(** * e2fsck.c: the superblock validator, the skip heuristic and the pass driver

    A shallow embedding of [e2fsck/e2fsck.c] (the main file of the ext2
    consistency checker) and the properties of its orchestration layer.

    The C globals become fields of a state record, every function of the file
    becomes a function in a state monad whose computations either return or
    stop the process ([exit], [fatal_error], [die]), and everything the file
    writes with [printf] is kept, unrendered, in a trace together with marks
    for the calls it makes. Code that lives in other files (the ext2fs
    library, the five passes, the prompt subsystem) is a parameter, collected
    in the class [Externals]. *)

From Stdlib Require Import ZArith Lia Bool String Ascii List.
From stdpp Require Import base list strings.

Open Scope Z_scope.

(** ** Machine integers *)

(** [__u32] and [blk_t] arithmetic wraps modulo 2^32. *)
Definition wrap32 (z : Z) : Z := z mod 2 ^ 32.

(** The cast [(unsigned) x] of a signed value. *)
Definition to_unsigned (z : Z) : Z := z mod 2 ^ 32.

(** A C truth value. [int] flags and counters are kept as [Z]; signed
    overflow is undefined in C and outside the model. *)
Definition truthy (z : Z) : bool := negb (z =? 0).

(** ** On-disk data, as the file reads it *)

(** The fields of [struct ext2_super_block] that e2fsck.c touches. The
    structure is declared in the ext2 headers; the counts are unsigned 32-bit
    quantities, [s_log_frag_size] is a signed one, [s_mnt_count] is unsigned
    and [s_max_mnt_count] signed (hence the cast in [check_if_skip]). *)
Record ext2_super_block := mk_super {
  s_inodes_count : Z;
  s_blocks_count : Z;
  s_r_blocks_count : Z;
  s_free_blocks_count : Z;
  s_free_inodes_count : Z;
  s_first_data_block : Z;
  s_log_block_size : Z;
  s_log_frag_size : Z;
  s_blocks_per_group : Z;
  s_frags_per_group : Z;
  s_inodes_per_group : Z;
  s_mnt_count : Z;
  s_max_mnt_count : Z;
  s_state : Z;
  s_lastcheck : Z;
  s_checkinterval : Z;
  s_rev_level : Z
}.

Record ext2_group_desc := mk_gd {
  bg_block_bitmap : Z;
  bg_inode_bitmap : Z;
  bg_inode_table : Z
}.

#[global] Instance ext2_group_desc_inhabited : Inhabited ext2_group_desc :=
  populate (mk_gd 0 0 0).

(** The object behind an [ext2_filsys] pointer. [fs->group_desc_count] is the
    length of [group_desc]; [fs_dirty] is what [ext2fs_mark_super_dirty]
    raises. *)
Record ext2_filsys := mk_fs {
  super : ext2_super_block;
  group_desc : list ext2_group_desc;
  inode_blocks_per_group : Z;
  fs_dirty : bool
}.

Definition group_desc_count (fs : ext2_filsys) : Z :=
  Z.of_nat (length (group_desc fs)).

(** The value of main's [fs] before [ext2fs_open] has stored a handle in it;
    it is never read. *)
Definition no_fs : ext2_filsys :=
  mk_fs (mk_super 0 0 0 0 0 0 0 0 0 0 0 0 0 0 0 0 0) [] 0 false.

Definition set_super (s : ext2_super_block) (fs : ext2_filsys) : ext2_filsys :=
  mk_fs s (group_desc fs) (inode_blocks_per_group fs) (fs_dirty fs).

Definition set_group_desc (l : list ext2_group_desc) (fs : ext2_filsys) : ext2_filsys :=
  mk_fs (super fs) l (inode_blocks_per_group fs) (fs_dirty fs).

Definition set_fs_dirty (b : bool) (fs : ext2_filsys) : ext2_filsys :=
  mk_fs (super fs) (group_desc fs) (inode_blocks_per_group fs) b.

Definition set_bg_block_bitmap (v : Z) (gd : ext2_group_desc) : ext2_group_desc :=
  mk_gd v (bg_inode_bitmap gd) (bg_inode_table gd).

Definition set_bg_inode_bitmap (v : Z) (gd : ext2_group_desc) : ext2_group_desc :=
  mk_gd (bg_block_bitmap gd) v (bg_inode_table gd).

Definition set_bg_inode_table (v : Z) (gd : ext2_group_desc) : ext2_group_desc :=
  mk_gd (bg_block_bitmap gd) (bg_inode_bitmap gd) v.

Definition set_state_mnt_lastcheck (state mnt lastcheck : Z) (s : ext2_super_block) :
  ext2_super_block :=
  mk_super (s_inodes_count s) (s_blocks_count s) (s_r_blocks_count s)
    (s_free_blocks_count s) (s_free_inodes_count s) (s_first_data_block s)
    (s_log_block_size s) (s_log_frag_size s) (s_blocks_per_group s)
    (s_frags_per_group s) (s_inodes_per_group s) mnt (s_max_mnt_count s)
    state lastcheck (s_checkinterval s) (s_rev_level s).

(** ** Globals of e2fsck.c *)

(** The command-line globals, set by [PRS] ([show_version_only],
    [replace_bad_blocks] and [bad_blocks_file] are static). Strings that start
    as [NULL] are options. *)
Record Options := mk_opts {
  program_name : string;
  device_name : option string;
  filesystem_name : option string;
  nflag : Z;
  yflag : Z;
  tflag : Z;
  cflag : Z;
  preen : Z;
  rwflag : Z;
  inode_buffer_blocks : Z;
  process_inode_size : Z;
  superblock : Z;
  blocksize : Z;
  verbose : Z;
  debug : Z;
  force : Z;
  show_version_only : Z;
  replace_bad_blocks : Z;
  bad_blocks_file : option string
}.

(** The initialisers of the file. [process_inode_size] is defined elsewhere
    and starts at the value given here as a parameter. *)
Definition initial_options (pis : Z) : Options :=
  mk_opts "e2fsck" None None 0 0 0 0 0 1 0 pis 0 0 0 0 0 0 0 None.

(** [static int root_filesystem = 0; static int read_only_root = 0;]
    Both are file-local and e2fsck.c never assigns them. *)
Definition root_filesystem : Z := 0.
Definition read_only_root : Z := 0.

(** The relocation counters: three [int] arrays allocated by [main] with one
    slot per group, their running total [invalid_bitmaps], and the restart
    request pass 1 may leave in [restart_e2fsck]. *)
Record Reloc := mk_reloc {
  invalid_inode_bitmap : list Z;
  invalid_block_bitmap : list Z;
  invalid_inode_table : list Z;
  invalid_bitmaps : Z;
  restart_e2fsck : Z
}.

Definition initial_reloc : Reloc := mk_reloc [] [] [] 0 0.

(** The statistics the passes leave for [show_stats] (declared in e2fsck.h). *)
Record Stats := mk_stats {
  fs_directory_count : Z;
  fs_regular_count : Z;
  fs_blockdev_count : Z;
  fs_chardev_count : Z;
  fs_links_count : Z;
  fs_symlinks_count : Z;
  fs_fast_symlinks_count : Z;
  fs_fifo_count : Z;
  fs_total_count : Z;
  fs_badblocks_count : Z;
  fs_sockets_count : Z;
  fs_ind_count : Z;
  fs_dind_count : Z;
  fs_tind_count : Z;
  fs_fragmented : Z
}.

Definition initial_stats : Stats := mk_stats 0 0 0 0 0 0 0 0 0 0 0 0 0 0 0.

(** Modelled from the spec: the run state of section 3, two process-wide
    booleans. The library calls that read and write them
    ([ext2fs_test_changed], [ext2fs_test_valid], [ext2fs_mark_valid]) are not
    part of e2fsck.c. *)
Record RunState := mk_run {
  modified : bool;
  valid : bool
}.

(** ** The trace *)

Inductive PArg :=
| ArgS (s : string)
| ArgZ (z : Z).

(** What the process did, oldest first. [printf] and [fprintf(stderr, ...)]
    keep their format string and arguments; [Call] marks a call: [main]
    leaves one before each function of the file it calls, and each function
    of another file leaves one when it is entered. C escapes in format
    strings are written as in the source. *)
Inductive Event :=
| Printf (fmt : string) (args : list PArg)
| Eprintf (fmt : string) (args : list PArg)
| ComErr (whoami : string) (code : Z) (fmt : string) (args : list PArg)
| Call (fn : string).

#[global] Instance PArg_eq_dec : EqDecision PArg.
Proof. solve_decision. Defined.

#[global] Instance Event_eq_dec : EqDecision Event.
Proof. solve_decision. Defined.

(** ** What the process can see of the outside, and what the passes share *)

(** The part of the process an external pass can reach: the open handle, the
    run state, the relocation counters, the statistics and the world. *)
Record Shared (W : Type) := mk_shared {
  sh_fs : ext2_filsys;
  sh_run : RunState;
  sh_reloc : Reloc;
  sh_stats : Stats;
  sh_world : W
}.

Arguments mk_shared {W}.
Arguments sh_fs {W}.
Arguments sh_run {W}.
Arguments sh_reloc {W}.
Arguments sh_stats {W}.
Arguments sh_world {W}.

(** Everything e2fsck.c takes from other files: constants and macros of the
    ext2 and system headers, the ext2fs library, the prompt subsystem and the
    passes. [World] is whatever lies outside the process (disk, terminal,
    clock, operator). *)
Class Externals := {
  World : Type;
  (* ext2_fs.h, ext2fs.h, errno.h, version.h *)
  EXT2_VALID_FS : Z;
  EXT2_ERROR_FS : Z;
  EXT2_FLAG_RW : Z;
  EXT2_MF_MOUNTED : Z;
  EXT2_BLOCK_SIZE : ext2_super_block → Z;
  EXT2_FRAG_SIZE : ext2_super_block → Z;
  EXT2_ET_REV_TOO_HIGH : Z;
  EXT2_ET_SHORT_READ : Z;
  EPERM : Z;
  EACCES : Z;
  ENXIO : Z;
  EROFS : Z;
  (* Some r when EXT2_CURRENT_REV is defined, r being E2FSCK_CURRENT_REV *)
  E2FSCK_CURRENT_REV : option Z;
  E2FSPROGS_VERSION : string;
  E2FSPROGS_DATE : string;
  EXT2FS_VERSION : string;
  EXT2FS_DATE : string;
  (* defined(__linux__) && defined(HAVE_MNTENT_H) *)
  linux_mntent : bool;
  (* defined(BLKFLSBUF) *)
  have_BLKFLSBUF : bool;
  (* limits.h: unsigned long has 64 bits; it has 32 otherwise *)
  LP64 : bool;
  (* libc and the terminal *)
  isatty : Z → World → bool;
  time : World → Z;
  (* errno left by open(MOUNTED, O_RDWR), 0 when the open succeeds *)
  open_mtab : World → Z;
  (* open + ioctl(BLKFLSBUF): 0 done, 1 open failed, 2 ioctl failed; errno *)
  flush_device : option string → World → Z * Z;
  atoi : string → Z;
  (* the blocking yes/no prompt *)
  ask_yn : string → Z → World → Z * World;
  (* the ext2fs library: return value and out parameter *)
  ext2fs_check_if_mounted : option string → World → Z * Z;
  ext2fs_open : option string → Z → Z → Z → World → Z * ext2_filsys;
  ext2fs_get_device_size : option string → Z → World → Z * Z;
  ext2fs_close : ext2_filsys → World → World;
  write_bitmaps : ext2_filsys → World → World;
  (* bad blocks and the five passes *)
  read_bad_blocks_file : string → Z → Shared World → Shared World;
  test_disk : Shared World → Shared World;
  pass1 : Shared World → Shared World;
  pass2 : Shared World → Shared World;
  pass3 : Shared World → Shared World;
  pass4 : Shared World → Shared World;
  pass5 : Shared World → Shared World
}.

(** Modelled from the spec: the exit codes of section 6 (0 clean, 1
    non-destructive fix, 2 reboot required, 4 uncorrected errors, 8
    operational error, 16 usage error); e2fsck.h, which defines them, is not
    part of the file. *)
Definition FSCK_OK : Z := 0.
Definition FSCK_NONDESTRUCT : Z := 1.
Definition FSCK_REBOOT : Z := 2.
Definition FSCK_UNCORRECTED : Z := 4.
Definition FSCK_ERROR : Z := 8.
Definition FSCK_USAGE : Z := 16.

Definition MIN_CHECK : Z := 1.
Definition MAX_CHECK : Z := 2.

Definition possible_block_sizes : list Z := [1024; 2048; 4096; 8192].

Definition corrupt_msg : string :=
  "\nThe filesystem superblock is corrupt.  Try running e2fsck with an alternate\nsuperblock using the -b option.  (8193 is commonly an alternate superblock;\nHence, 'e2fsck -b 8193 <device>' may recover the filesystem.)\n\n".

Definition relocate_hint_msg : string :=
  "Note: if there is several inode or block bitmap blocks\nwhich require relocation, or one part of the inode table\nwhich must be moved, you may wish to try running e2fsck\nthe '-b 8193' option first.  The problem may lie only with\nthe primary block group descriptor, and the backup block\ngroup descriptor may be OK.\n\n".

Section Program.
Context {X : Externals}.

(** ** The state of the process *)

Record State := mk_state {
  opts : Options;
  reloc : Reloc;
  (* static hint_issued, local to relocate_hint *)
  hint_issued : Z;
  stats : Stats;
  fs : ext2_filsys;
  run : RunState;
  world : World;
  out : list Event
}.

Definition set_opts (o : Options) (st : State) : State :=
  mk_state o (reloc st) (hint_issued st) (stats st) (fs st) (run st) (world st) (out st).

Definition set_reloc (r : Reloc) (st : State) : State :=
  mk_state (opts st) r (hint_issued st) (stats st) (fs st) (run st) (world st) (out st).

Definition set_hint_issued (h : Z) (st : State) : State :=
  mk_state (opts st) (reloc st) h (stats st) (fs st) (run st) (world st) (out st).

Definition set_fs (f : ext2_filsys) (st : State) : State :=
  mk_state (opts st) (reloc st) (hint_issued st) (stats st) f (run st) (world st) (out st).

Definition set_run (r : RunState) (st : State) : State :=
  mk_state (opts st) (reloc st) (hint_issued st) (stats st) (fs st) r (world st) (out st).

Definition set_world (w : World) (st : State) : State :=
  mk_state (opts st) (reloc st) (hint_issued st) (stats st) (fs st) (run st) w (out st).

Definition add_event (e : Event) (st : State) : State :=
  mk_state (opts st) (reloc st) (hint_issued st) (stats st) (fs st) (run st) (world st)
    (out st ++ [e]).

(** The state at the first instruction of [main]. *)
Definition initial_state (pis : Z) (w : World) : State :=
  mk_state (initial_options pis) initial_reloc 0 initial_stats no_fs
    (mk_run false false) w [].

(** ** Computations that may stop the process *)

Inductive Stop :=
| Exit (code : Z)
| FatalError (msg : option string)
| Die (msg : string)
| DivideByZero.

Inductive Outcome (A : Type) :=
| Normal (a : A) (st : State)
| Stopped (why : Stop) (st : State).

Arguments Normal {A}.
Arguments Stopped {A}.

Definition M (A : Type) : Type := State → Outcome A.

Definition state_of {A} (o : Outcome A) : State :=
  match o with
  | Normal _ st => st
  | Stopped _ st => st
  end.

Definition ret {A} (a : A) : M A := λ st, Normal a st.

Definition bind {A B} (m : M A) (k : A → M B) : M B :=
  λ st, match m st with
        | Normal a st' => k a st'
        | Stopped why st' => Stopped why st'
        end.

Definition gets {A} (f : State → A) : M A := λ st, Normal (f st) st.

Definition modify (f : State → State) : M unit := λ st, Normal tt (f st).

Definition stop {A} (why : Stop) : M A := λ st, Stopped why st.

Definition when (b : bool) (m : M unit) : M unit := if b then m else ret tt.

#[global] Instance M_ret : MRet M := @ret.
#[global] Instance M_bind : MBind M := λ A B k m, bind m k.

(** [printf], [fprintf(stderr, ...)], [com_err] and the call marks. *)
Definition emit (e : Event) : M unit := modify (add_event e).
Definition printf (fmt : string) (args : list PArg) : M unit := emit (Printf fmt args).
Definition eprintf (fmt : string) (args : list PArg) : M unit := emit (Eprintf fmt args).
Definition com_err (who : string) (code : Z) (fmt : string) (args : list PArg) : M unit :=
  emit (ComErr who code fmt args).
Definition call (fn : string) : M unit := emit (Call fn).

Definition exit {A} (code : Z) : M A := stop (Exit code).

(** Modelled from the spec: fatal termination (section 7) ends the process
    and never returns; [fatal_error] and [die] live in util.c, which is not
    part of the file. The optional message is the argument. *)
Definition fatal_error {A} (msg : option string) : M A := stop (FatalError msg).
Definition die {A} (msg : string) : M A := stop (Die msg).

(** A pointer test: [p] as a condition, [!p] its negation. *)
Definition non_null {A} (p : option A) : bool :=
  match p with
  | Some _ => true
  | None => false
  end.

Definition show (s : option string) : PArg :=
  match s with
  | Some x => ArgS x
  | None => ArgS "(null)"
  end.

(** The three ways a collaborator is run on the part of the state it can
    reach. *)
Definition shared_of (st : State) : Shared World :=
  mk_shared (fs st) (run st) (reloc st) (stats st) (world st).

Definition put_shared (sh : Shared World) (st : State) : State :=
  mk_state (opts st) (sh_reloc sh) (hint_issued st) (sh_stats sh) (sh_fs sh)
    (sh_run sh) (sh_world sh) (out st).

Definition run_external (fn : string) (p : Shared World → Shared World) : M unit :=
  call fn;;
  modify (λ st, put_shared (p (shared_of st)) st).

(** ** The repair decision policy *)

Definition raise_modified (r : RunState) : RunState := mk_run true (valid r).

(** Modelled from the spec: the decision policy of section 4.1; [ask] lives
    in util.c, which is not part of the file. Unattended mode returns the
    default answer without prompting; read-only mode never applies an action;
    always-yes applies it; interactive mode prompts on the terminal and falls
    back to the default answer when there is none. [policy_answer] is the
    answer and the world after a possible prompt. *)
Definition policy_answer (o : Options) (descr : string) (def : Z) (w : World) : Z * World :=
  if truthy (preen o) then (def, w)
  else if truthy (nflag o) then (0, w)
  else if truthy (yflag o) then (1, w)
  else if isatty 0 w && isatty 1 w then ask_yn descr def w
  else (def, w).

(** Modelled from the spec: [ask] returns the answer of the policy, and an
    answer that applies the action raises [modified] (the side effect of
    section 4.1). *)
Definition ask (descr : string) (def : Z) : M Z :=
  call "ask";;
  '(answer, w) ← gets (λ st, policy_answer (opts st) descr def (world st));
  modify (set_world w);;
  when (truthy answer) (modify (λ st, set_run (raise_modified (run st)) st));;
  mret answer.

(** Modelled from the spec: the preen-halt notifier of section 6 only prints
    a banner before an unattended decision; it lives in util.c, which is not
    part of the file. The banner is kept as the call mark. *)
Definition preenhalt : M unit := call "preenhalt".

(** ** check_super_value and relocate_hint *)

(** The conversion of an integer to [unsigned long]. *)
Definition ULONG_BITS : Z := if LP64 then 64 else 32.

Definition to_unsigned_long (z : Z) : Z := z mod 2 ^ ULONG_BITS.

(** [value], [min] and [max] are [unsigned long] parameters: what the caller
    passes is converted on entry, and it is the converted values that are
    compared and printed. *)
Definition check_super_value (descr : string) (value : Z) (flags : Z) (min max : Z) :
  M unit :=
  let value := to_unsigned_long value in
  let min := to_unsigned_long min in
  let max := to_unsigned_long max in
  if (truthy (Z.land flags MIN_CHECK) && (value <? min))
     || (truthy (Z.land flags MAX_CHECK) && (value >? max))
  then
    printf "Corruption found in superblock.  (%s = %lu).\n" [ArgS descr; ArgZ value];;
    printf corrupt_msg [];;
    fatal_error None
  else mret tt.

Definition relocate_hint : M unit :=
  issued ← gets hint_issued;
  (* Only issue the hint once *)
  if truthy issued then mret tt
  else
    printf relocate_hint_msg [];;
    modify (set_hint_issued 1).

(** ** check_super_block *)

Definition set_invalid_inode_bitmap (l : list Z) (r : Reloc) : Reloc :=
  mk_reloc l (invalid_block_bitmap r) (invalid_inode_table r) (invalid_bitmaps r)
    (restart_e2fsck r).

Definition set_invalid_block_bitmap (l : list Z) (r : Reloc) : Reloc :=
  mk_reloc (invalid_inode_bitmap r) l (invalid_inode_table r) (invalid_bitmaps r)
    (restart_e2fsck r).

Definition set_invalid_inode_table (l : list Z) (r : Reloc) : Reloc :=
  mk_reloc (invalid_inode_bitmap r) (invalid_block_bitmap r) l (invalid_bitmaps r)
    (restart_e2fsck r).

Definition set_invalid_bitmaps (n : Z) (r : Reloc) : Reloc :=
  mk_reloc (invalid_inode_bitmap r) (invalid_block_bitmap r) (invalid_inode_table r) n
    (restart_e2fsck r).

Definition set_restart_e2fsck (n : Z) (r : Reloc) : Reloc :=
  mk_reloc (invalid_inode_bitmap r) (invalid_block_bitmap r) (invalid_inode_table r)
    (invalid_bitmaps r) n.

(** [fs->group_desc[i].field = v] *)
Definition store_group (i : nat) (f : ext2_group_desc → ext2_group_desc) : M unit :=
  modify (λ st, set_fs (set_group_desc (alter f i (group_desc (fs st))) (fs st)) st).

(** [invalid_bitmaps++] *)
Definition incr_invalid_bitmaps : M unit :=
  modify (λ st, set_reloc (set_invalid_bitmaps (invalid_bitmaps (reloc st) + 1) (reloc st)) st).

(** The three tests of one turn of the group loop, in the order of the
    source. [i] is the loop counter, [first_block] and [last_block] the
    bounds as the loop holds them. *)
Definition check_block_bitmap (i : nat) (first_block last_block : Z) : M unit :=
  gd ← gets (λ st, group_desc (fs st) !!! i);
  if (bg_block_bitmap gd <? first_block) || (bg_block_bitmap gd >=? last_block) then
    relocate_hint;;
    printf "Block bitmap for group %d is not in group.  (block %u)\n"
      [ArgZ (Z.of_nat i); ArgZ (bg_block_bitmap gd)];;
    preenhalt;;
    answer ← ask "Relocate" 1;
    (if truthy answer then mret tt else fatal_error (Some "Block bitmap not in group"));;
    store_group i (set_bg_block_bitmap 0);;
    modify (λ st, set_reloc (set_invalid_block_bitmap
                               (alter Z.succ i (invalid_block_bitmap (reloc st)))
                               (reloc st)) st);;
    incr_invalid_bitmaps
  else mret tt.

Definition check_inode_bitmap (i : nat) (first_block last_block : Z) : M unit :=
  gd ← gets (λ st, group_desc (fs st) !!! i);
  if (bg_inode_bitmap gd <? first_block) || (bg_inode_bitmap gd >=? last_block) then
    relocate_hint;;
    printf "Inode bitmap group %d not in group.  (block %u)\n"
      [ArgZ (Z.of_nat i); ArgZ (bg_inode_bitmap gd)];;
    preenhalt;;
    answer ← ask "Relocate" 1;
    (if truthy answer then mret tt else fatal_error (Some "Inode bitmap not in group"));;
    store_group i (set_bg_inode_bitmap 0);;
    modify (λ st, set_reloc (set_invalid_inode_bitmap
                               (alter Z.succ i (invalid_inode_bitmap (reloc st)))
                               (reloc st)) st);;
    incr_invalid_bitmaps
  else mret tt.

Definition check_inode_table (i : nat) (first_block last_block : Z) : M unit :=
  gd ← gets (λ st, group_desc (fs st) !!! i);
  ibpg ← gets (λ st, inode_blocks_per_group (fs st));
  if (bg_inode_table gd <? first_block)
     || (wrap32 (bg_inode_table gd + ibpg - 1) >=? last_block) then
    relocate_hint;;
    printf "Inode table for group %d not in group.  (block %u)\n"
      [ArgZ (Z.of_nat i); ArgZ (bg_inode_table gd)];;
    printf "WARNING: SEVERE DATA LOSS POSSIBLE.\n" [];;
    preenhalt;;
    answer ← ask "Relocate" 1;
    (if truthy answer then mret tt else fatal_error (Some "Inode table not in group"));;
    store_group i (set_bg_inode_table 0);;
    modify (λ st, set_reloc (set_invalid_inode_table
                               (alter Z.succ i (invalid_inode_table (reloc st)))
                               (reloc st)) st);;
    incr_invalid_bitmaps
  else mret tt.

(** [if (i == fs->group_desc_count - 1) last_block = fs->super->s_blocks_count;] *)
Definition group_last_block (i : nat) (last_block : Z) (fs : ext2_filsys) : Z :=
  if Z.of_nat i =? group_desc_count fs - 1 then s_blocks_count (super fs) else last_block.

(** The [for] loop over the groups. [n] counts the turns left: the bound
    [fs->group_desc_count] does not change while the loop runs, so the loop
    is entered with [n] the group count and [i = 0]. *)
Fixpoint group_loop (n : nat) (i : nat) (first_block last_block : Z) : M unit :=
  match n with
  | O => mret tt
  | S n' =>
      last_block ← gets (λ st, group_last_block i last_block (fs st));
      check_block_bitmap i first_block last_block;;
      check_inode_bitmap i first_block last_block;;
      check_inode_table i first_block last_block;;
      bpg ← gets (λ st, s_blocks_per_group (super (fs st)));
      group_loop n' (S i) (wrap32 (first_block + bpg)) (wrap32 (last_block + bpg))
  end.

Definition check_super_block : M unit :=
  s ← gets (λ st, super (fs st));
  let blocks_per_group := s_blocks_per_group s in
  (* Verify the super block constants... *)
  check_super_value "inodes_count" (s_inodes_count s) MIN_CHECK 1 0;;
  check_super_value "blocks_count" (s_blocks_count s) MIN_CHECK 1 0;;
  check_super_value "first_data_block" (s_first_data_block s) MAX_CHECK 0 (s_blocks_count s);;
  check_super_value "log_frag_size" (s_log_frag_size s) MAX_CHECK 0 2;;
  check_super_value "log_block_size" (s_log_block_size s) (Z.lor MIN_CHECK MAX_CHECK)
    (s_log_frag_size s) 2;;
  check_super_value "frags_per_group" (s_frags_per_group s) (Z.lor MIN_CHECK MAX_CHECK)
    1 (8 * EXT2_BLOCK_SIZE s);;
  check_super_value "blocks_per_group" (s_blocks_per_group s) (Z.lor MIN_CHECK MAX_CHECK)
    1 (8 * EXT2_BLOCK_SIZE s);;
  check_super_value "inodes_per_group" (s_inodes_per_group s) MIN_CHECK 1 0;;
  check_super_value "r_blocks_count" (s_r_blocks_count s) MAX_CHECK 0 (s_blocks_count s);;
  '(retval, should_be) ← gets (λ st, ext2fs_get_device_size (filesystem_name (opts st))
                                       (EXT2_BLOCK_SIZE s) (world st));
  (if truthy retval then
     com_err "ext2fs_get_device_size" retval
       "while trying to check physical size of filesystem" [];;
     fatal_error None
   else mret tt);;
  (if should_be <? s_blocks_count s then
     printf "The filesystem size (according to the superblock) is %d blocks\n"
       [ArgZ (s_blocks_count s)];;
     printf "The physical size of the device is %d blocks\n" [ArgZ should_be];;
     printf "Either the superblock or the partition table is likely to be corrupt!\n" [];;
     preenhalt;;
     answer ← ask "Abort" 1;
     if truthy answer then fatal_error None else mret tt
   else mret tt);;
  (if negb (s_log_block_size s =? s_log_frag_size s) then
     printf "Superblock block_size = %d, fragsize = %d.\n"
       [ArgZ (EXT2_BLOCK_SIZE s); ArgZ (EXT2_FRAG_SIZE s)];;
     printf "This version of e2fsck does not support fragment sizes different\nfrom the block size.\n" [];;
     fatal_error None
   else mret tt);;
  let should_be :=
    s_frags_per_group s / wrap32 (s_log_block_size s - s_log_frag_size s + 1) in
  (if negb (s_blocks_per_group s =? should_be) then
     printf "Superblock blocks_per_group = %u, should have been %u\n"
       [ArgZ (s_blocks_per_group s); ArgZ should_be];;
     printf corrupt_msg [];;
     fatal_error None
   else mret tt);;
  let should_be := if s_log_block_size s =? 0 then 1 else 0 in
  (if negb (s_first_data_block s =? should_be) then
     printf "Superblock first_data_block = %u, should have been %u\n"
       [ArgZ (s_first_data_block s); ArgZ should_be];;
     printf corrupt_msg [];;
     fatal_error None
   else mret tt);;
  (* Verify the group descriptors.... *)
  let first_block := s_first_data_block s in
  let last_block := wrap32 (first_block + blocks_per_group) in
  n ← gets (λ st, length (group_desc (fs st)));
  group_loop n 0%nat first_block last_block.

(** ** check_if_skip *)

Definition skip_reason (o : Options) (s : ext2_super_block) (w : World) : option string :=
  if truthy (Z.land (s_state s) EXT2_ERROR_FS) then
    Some "contains a file system with errors"
  else if s_mnt_count s >=? to_unsigned (s_max_mnt_count s) then
    Some "has reached maximal mount count"
  else if truthy (s_checkinterval s)
          && (time w >=? wrap32 (s_lastcheck s + s_checkinterval s)) then
    Some "has gone too long without being checked"
  else None.

Definition check_if_skip : M unit :=
  o ← gets opts;
  if truthy (force o) || non_null (bad_blocks_file o) || truthy (cflag o)
  then mret tt
  else
    s ← gets (λ st, super (fs st));
    reason ← gets (λ st, skip_reason o s (world st));
    match reason with
    | Some r => printf "%s %s, check forced.\n" [show (device_name o); ArgS r]
    | None =>
        if truthy (Z.land (s_state s) EXT2_VALID_FS) then
          printf "%s: clean, %d/%d files, %d/%d blocks\n"
            [show (device_name o);
             ArgZ (wrap32 (s_inodes_count s - s_free_inodes_count s));
             ArgZ (s_inodes_count s);
             ArgZ (wrap32 (s_blocks_count s - s_free_blocks_count s));
             ArgZ (s_blocks_count s)];;
          exit FSCK_OK
        else mret tt
    end.

(** ** usage and PRS *)

Definition usage {A} : M A :=
  name ← gets (λ st, program_name (opts st));
  eprintf "Usage: %s [-panyrcdfvtFV] [-b superblock] [-B blocksize]\n\t\t[-I inode_buffer_blocks] [-P process_inode_size]\n\t\t[-l|-L bad_blocks_file] device\n" [ArgS name];;
  exit FSCK_USAGE.

(** What [getopt] hands to [PRS]: the program name in [argv[0]] if any, the
    options in the order [getopt] returns them, each with its [optarg] (an
    unknown option or a missing argument comes back as ['?']), and the
    operands left from [optind] on. *)
Record Cmdline := mk_cmdline {
  argv0 : option string;
  options : list (ascii * string);
  operands : list string
}.

Definition set_program_name (v : string) (o : Options) : Options :=
  mk_opts v (device_name o) (filesystem_name o) (nflag o) (yflag o) (tflag o) (cflag o)
    (preen o) (rwflag o) (inode_buffer_blocks o) (process_inode_size o) (superblock o)
    (blocksize o) (verbose o) (debug o) (force o) (show_version_only o)
    (replace_bad_blocks o) (bad_blocks_file o).

Definition set_device_name (v : option string) (o : Options) : Options :=
  mk_opts (program_name o) v (filesystem_name o) (nflag o) (yflag o) (tflag o) (cflag o)
    (preen o) (rwflag o) (inode_buffer_blocks o) (process_inode_size o) (superblock o)
    (blocksize o) (verbose o) (debug o) (force o) (show_version_only o)
    (replace_bad_blocks o) (bad_blocks_file o).

Definition set_filesystem_name (v : option string) (o : Options) : Options :=
  mk_opts (program_name o) (device_name o) v (nflag o) (yflag o) (tflag o) (cflag o)
    (preen o) (rwflag o) (inode_buffer_blocks o) (process_inode_size o) (superblock o)
    (blocksize o) (verbose o) (debug o) (force o) (show_version_only o)
    (replace_bad_blocks o) (bad_blocks_file o).

(** The three assignments of each of the cases 'p'/'a', 'n' and 'y'. *)
Definition set_mode (p n y : Z) (o : Options) : Options :=
  mk_opts (program_name o) (device_name o) (filesystem_name o) n y (tflag o) (cflag o)
    p (rwflag o) (inode_buffer_blocks o) (process_inode_size o) (superblock o)
    (blocksize o) (verbose o) (debug o) (force o) (show_version_only o)
    (replace_bad_blocks o) (bad_blocks_file o).

Definition set_tflag (v : Z) (o : Options) : Options :=
  mk_opts (program_name o) (device_name o) (filesystem_name o) (nflag o) (yflag o) v
    (cflag o) (preen o) (rwflag o) (inode_buffer_blocks o) (process_inode_size o)
    (superblock o) (blocksize o) (verbose o) (debug o) (force o) (show_version_only o)
    (replace_bad_blocks o) (bad_blocks_file o).

Definition set_cflag (v : Z) (o : Options) : Options :=
  mk_opts (program_name o) (device_name o) (filesystem_name o) (nflag o) (yflag o)
    (tflag o) v (preen o) (rwflag o) (inode_buffer_blocks o) (process_inode_size o)
    (superblock o) (blocksize o) (verbose o) (debug o) (force o) (show_version_only o)
    (replace_bad_blocks o) (bad_blocks_file o).

Definition set_rwflag (v : Z) (o : Options) : Options :=
  mk_opts (program_name o) (device_name o) (filesystem_name o) (nflag o) (yflag o)
    (tflag o) (cflag o) (preen o) v (inode_buffer_blocks o) (process_inode_size o)
    (superblock o) (blocksize o) (verbose o) (debug o) (force o) (show_version_only o)
    (replace_bad_blocks o) (bad_blocks_file o).

Definition set_inode_buffer_blocks (v : Z) (o : Options) : Options :=
  mk_opts (program_name o) (device_name o) (filesystem_name o) (nflag o) (yflag o)
    (tflag o) (cflag o) (preen o) (rwflag o) v (process_inode_size o)
    (superblock o) (blocksize o) (verbose o) (debug o) (force o) (show_version_only o)
    (replace_bad_blocks o) (bad_blocks_file o).

Definition set_process_inode_size (v : Z) (o : Options) : Options :=
  mk_opts (program_name o) (device_name o) (filesystem_name o) (nflag o) (yflag o)
    (tflag o) (cflag o) (preen o) (rwflag o) (inode_buffer_blocks o) v
    (superblock o) (blocksize o) (verbose o) (debug o) (force o) (show_version_only o)
    (replace_bad_blocks o) (bad_blocks_file o).

Definition set_superblock (v : Z) (o : Options) : Options :=
  mk_opts (program_name o) (device_name o) (filesystem_name o) (nflag o) (yflag o)
    (tflag o) (cflag o) (preen o) (rwflag o) (inode_buffer_blocks o)
    (process_inode_size o) v (blocksize o) (verbose o) (debug o) (force o)
    (show_version_only o) (replace_bad_blocks o) (bad_blocks_file o).

Definition set_blocksize (v : Z) (o : Options) : Options :=
  mk_opts (program_name o) (device_name o) (filesystem_name o) (nflag o) (yflag o)
    (tflag o) (cflag o) (preen o) (rwflag o) (inode_buffer_blocks o)
    (process_inode_size o) (superblock o) v (verbose o) (debug o) (force o)
    (show_version_only o) (replace_bad_blocks o) (bad_blocks_file o).

Definition set_verbose (v : Z) (o : Options) : Options :=
  mk_opts (program_name o) (device_name o) (filesystem_name o) (nflag o) (yflag o)
    (tflag o) (cflag o) (preen o) (rwflag o) (inode_buffer_blocks o)
    (process_inode_size o) (superblock o) (blocksize o) v (debug o) (force o)
    (show_version_only o) (replace_bad_blocks o) (bad_blocks_file o).

Definition set_debug (v : Z) (o : Options) : Options :=
  mk_opts (program_name o) (device_name o) (filesystem_name o) (nflag o) (yflag o)
    (tflag o) (cflag o) (preen o) (rwflag o) (inode_buffer_blocks o)
    (process_inode_size o) (superblock o) (blocksize o) (verbose o) v (force o)
    (show_version_only o) (replace_bad_blocks o) (bad_blocks_file o).

Definition set_force (v : Z) (o : Options) : Options :=
  mk_opts (program_name o) (device_name o) (filesystem_name o) (nflag o) (yflag o)
    (tflag o) (cflag o) (preen o) (rwflag o) (inode_buffer_blocks o)
    (process_inode_size o) (superblock o) (blocksize o) (verbose o) (debug o) v
    (show_version_only o) (replace_bad_blocks o) (bad_blocks_file o).

Definition set_show_version_only (v : Z) (o : Options) : Options :=
  mk_opts (program_name o) (device_name o) (filesystem_name o) (nflag o) (yflag o)
    (tflag o) (cflag o) (preen o) (rwflag o) (inode_buffer_blocks o)
    (process_inode_size o) (superblock o) (blocksize o) (verbose o) (debug o) (force o)
    v (replace_bad_blocks o) (bad_blocks_file o).

Definition set_replace_bad_blocks (v : Z) (o : Options) : Options :=
  mk_opts (program_name o) (device_name o) (filesystem_name o) (nflag o) (yflag o)
    (tflag o) (cflag o) (preen o) (rwflag o) (inode_buffer_blocks o)
    (process_inode_size o) (superblock o) (blocksize o) (verbose o) (debug o) (force o)
    (show_version_only o) v (bad_blocks_file o).

Definition set_bad_blocks_file (v : option string) (o : Options) : Options :=
  mk_opts (program_name o) (device_name o) (filesystem_name o) (nflag o) (yflag o)
    (tflag o) (cflag o) (preen o) (rwflag o) (inode_buffer_blocks o)
    (process_inode_size o) (superblock o) (blocksize o) (verbose o) (debug o) (force o)
    (show_version_only o) (replace_bad_blocks o) v.

Definition update_opts (f : Options → Options) : M unit :=
  modify (λ st, set_opts (f (opts st)) st).

(** One turn of the [switch] in [PRS]. [flush] is the local of that name and
    is returned. The [malloc] for the copy of the bad-blocks file name under
    'l' and 'L' is taken to succeed: the exit
    [fatal_error("Couldn't malloc bad_blocks_file")] that follows it in the
    source is not modelled. MTRACE is not defined, so 'M' is an unknown
    case. *)
Definition PRS_case (c : ascii) (optarg : string) (flush : Z) : M Z :=
  if (c =? "p")%char || (c =? "a")%char then
    update_opts (set_mode 1 0 0);; mret flush
  else if (c =? "n")%char then
    update_opts (set_mode 0 1 0);; mret flush
  else if (c =? "y")%char then
    update_opts (set_mode 0 0 1);; mret flush
  else if (c =? "t")%char then
    update_opts (λ o, set_tflag (tflag o + 1) o);; mret flush
  else if (c =? "c")%char then
    update_opts (λ o, set_cflag (cflag o + 1) o);; mret flush
  else if (c =? "r")%char then
    (* What we do by default, anyway! *)
    mret flush
  else if (c =? "b")%char then
    update_opts (set_superblock (wrap32 (atoi optarg)));; mret flush
  else if (c =? "B")%char then
    update_opts (set_blocksize (atoi optarg));; mret flush
  else if (c =? "I")%char then
    update_opts (set_inode_buffer_blocks (atoi optarg));; mret flush
  else if (c =? "P")%char then
    update_opts (set_process_inode_size (atoi optarg));; mret flush
  else if (c =? "L")%char then
    update_opts (λ o, set_replace_bad_blocks (replace_bad_blocks o + 1) o);;
    update_opts (set_bad_blocks_file (Some optarg));; mret flush
  else if (c =? "l")%char then
    update_opts (set_bad_blocks_file (Some optarg));; mret flush
  else if (c =? "d")%char then
    update_opts (set_debug 1);; mret flush
  else if (c =? "f")%char then
    update_opts (set_force 1);; mret flush
  else if (c =? "F")%char then
    if have_BLKFLSBUF then mret 1 else fatal_error (Some "-F not supported")
  else if (c =? "v")%char then
    update_opts (set_verbose 1);; mret flush
  else if (c =? "V")%char then
    update_opts (set_show_version_only 1);; mret flush
  else if (c =? "N")%char then
    update_opts (set_device_name (Some optarg));; mret flush
  else usage.

Fixpoint PRS_loop (l : list (ascii * string)) (flush : Z) : M Z :=
  match l with
  | [] => mret flush
  | (c, optarg) :: rest =>
      flush ← PRS_case c optarg flush;
      PRS_loop rest flush
  end.

(** [PRS]. The update of PATH in the environment, with which the function
    begins, has no effect on the rest of the file and is left out, and with
    it the exit [fatal_error("Couldn't malloc() newpath")] for want of
    memory: the model takes [malloc] to succeed. *)
Definition PRS (cmd : Cmdline) : M unit :=
  match argv0 cmd with
  | Some name => update_opts (set_program_name name)
  | None => mret tt
  end;;
  flush ← PRS_loop (options cmd) 0;
  o ← gets opts;
  if truthy (show_version_only o) then mret tt
  else
    match operands cmd with
    | [device] =>
        when (truthy (nflag o) && negb (non_null (bad_blocks_file o)) && negb (truthy (cflag o)))
          (update_opts (set_rwflag 0));;
        update_opts (set_filesystem_name (Some device));;
        name ← gets (λ st, device_name (opts st));
        when (negb (non_null name)) (update_opts (set_device_name (Some device)));;
        if truthy flush then
          if have_BLKFLSBUF then
            '(step, errno) ← gets (λ st, flush_device (filesystem_name (opts st)) (world st));
            if step =? 1 then
              com_err "open" errno "while opening %s for flushing" [ArgS device];;
              exit FSCK_ERROR
            else if step =? 2 then
              com_err "BLKFLSBUF" errno "while trying to flush %s" [ArgS device];;
              exit FSCK_ERROR
            else mret tt
          else fatal_error (Some "BLKFLSBUF not supported")
        else mret tt
    | _ => usage
    end.

(** ** check_mount, sync_disks, show_stats *)

Definition check_mount : M unit :=
  o ← gets opts;
  '(retval, mount_flags) ← gets (λ st, ext2fs_check_if_mounted (filesystem_name o) (world st));
  if truthy retval then
    com_err "ext2fs_check_if_mount" retval "while determining whether %s is mounted."
      [show (filesystem_name o)]
  else if negb (truthy (Z.land mount_flags EXT2_MF_MOUNTED)) then mret tt
  else
    (* If the root is mounted read-only, then /etc/mtab is probably not
       correct; so we won't issue a warning based on it. *)
    errno ← gets (λ st, open_mtab (world st));
    if linux_mntent && truthy errno && (errno =? EROFS) then mret tt
    else if negb (truthy (rwflag o)) then
      printf "Warning!  %s is mounted.\n" [show (device_name o)]
    else
      printf "%s is mounted.  " [show (device_name o)];;
      tty ← gets (λ st, isatty 0 (world st) && isatty 1 (world st));
      cont ← (if (tty : bool) then
                call "ask_yn";;
                '(answer, w) ← gets (λ st, ask_yn "Do you really want to continue" (-1) (world st));
                modify (set_world w);;
                mret answer
              else mret 0);
      if truthy cont then mret tt
      else printf "check aborted.\n" [];; exit 0.

Definition sync_disks : M unit :=
  call "sync";; call "sync";; call "sleep";; call "sync".

(** [int]-typed locals holding an unsigned 32-bit value. *)
Definition to_int (z : Z) : Z := (z + 2 ^ 31) mod 2 ^ 32 - 2 ^ 31.

Definition plural (n : Z) (many one : string) : PArg :=
  if n =? 1 then ArgS one else ArgS many.

(** [show_stats]. Division is C's; dividing by zero stops the process, at
    the statement whose operands hold the division: the assignment to
    [frag_percent], the first [printf] of the verbose report for the inodes
    and its fourth for the blocks. *)
Definition show_stats : M unit :=
  s ← gets (λ st, super (fs st));
  t ← gets stats;
  o ← gets opts;
  let dir_links := 2 * fs_directory_count t - 1 in
  let num_files := fs_total_count t - dir_links in
  let num_links := fs_links_count t - dir_links in
  let inodes := to_int (s_inodes_count s) in
  let inodes_used := to_int (wrap32 (s_inodes_count s - s_free_inodes_count s)) in
  let blocks := to_int (s_blocks_count s) in
  let blocks_used := to_int (wrap32 (s_blocks_count s - s_free_blocks_count s)) in
  if inodes_used =? 0 then stop DivideByZero
  else
    let frag_percent := Z.quot (10000 * fs_fragmented t) inodes_used in
    let frag_percent := Z.quot (frag_percent + 5) 10 in
    if negb (truthy (verbose o)) then
      printf "%s: %d/%d files (%0d.%d%% non-contiguous), %d/%d blocks\n"
        [show (device_name o); ArgZ inodes_used; ArgZ inodes;
         ArgZ (Z.quot frag_percent 10); ArgZ (Z.rem frag_percent 10);
         ArgZ blocks_used; ArgZ blocks]
    else if inodes =? 0 then stop DivideByZero
    else
      printf "\n%8d inode%s used (%d%%)\n"
        [ArgZ inodes_used; plural inodes_used "s" EmptyString;
         ArgZ (Z.quot (100 * inodes_used) inodes)];;
      printf "%8d non-contiguous inodes (%0d.%d%%)\n"
        [ArgZ (fs_fragmented t); ArgZ (Z.quot frag_percent 10); ArgZ (Z.rem frag_percent 10)];;
      printf "         # of inodes with ind/dind/tind blocks: %d/%d/%d\n"
        [ArgZ (fs_ind_count t); ArgZ (fs_dind_count t); ArgZ (fs_tind_count t)];;
      if blocks =? 0 then stop DivideByZero
      else
        printf "%8d block%s used (%d%%)\n%8d bad block%s\n"
          [ArgZ blocks_used; plural blocks_used "s" EmptyString;
           ArgZ (Z.quot (100 * blocks_used) blocks);
           ArgZ (fs_badblocks_count t); plural (fs_badblocks_count t) "s" EmptyString];;
        printf "\n%8d regular file%s\n%8d director%s\n%8d character device file%s\n%8d block device file%s\n%8d fifo%s\n%8d link%s\n%8d symbolic link%s (%d fast symbolic link%s)\n%8d socket%s\n--------\n%8d file%s\n"
          [ArgZ (fs_regular_count t); plural (fs_regular_count t) "s" EmptyString;
           ArgZ (fs_directory_count t); plural (fs_directory_count t) "ies" "y";
           ArgZ (fs_chardev_count t); plural (fs_chardev_count t) "s" EmptyString;
           ArgZ (fs_blockdev_count t); plural (fs_blockdev_count t) "s" EmptyString;
           ArgZ (fs_fifo_count t); plural (fs_fifo_count t) "s" EmptyString;
           ArgZ num_links; plural num_links "s" EmptyString;
           ArgZ (fs_symlinks_count t); plural (fs_symlinks_count t) "s" EmptyString;
           ArgZ (fs_fast_symlinks_count t); plural (fs_fast_symlinks_count t) "s" EmptyString;
           ArgZ (fs_sockets_count t); plural (fs_sockets_count t) "s" EmptyString;
           ArgZ num_files; plural num_files "s" EmptyString].

(** ** main *)

(** Modelled from the spec: the handle and run-state calls of section 6
    ([mark_dirty], [mark_valid], [test_valid], [test_changed], [close]);
    they belong to the ext2fs library, which is not part of the file. *)
Definition ext2fs_mark_super_dirty : M unit :=
  call "ext2fs_mark_super_dirty";;
  modify (λ st, set_fs (set_fs_dirty true (fs st)) st).

Definition ext2fs_mark_valid : M unit :=
  modify (λ st, set_run (mk_run (modified (run st)) true) st).

Definition ext2fs_test_changed : M bool := gets (λ st, modified (run st)).

Definition ext2fs_test_valid : M bool := gets (λ st, valid (run st)).

(** Modelled from the spec: [allocate_memory] (util.c, not part of the file)
    hands out the per-group relocation counters, which read as all-zero once
    allocated (sections 3, 5 and 8). *)
Definition allocate_memory (count : Z) : list Z := replicate (Z.to_nat count) 0.

(** One call of [ext2fs_open]; the handle goes to [fs], the return value is
    returned. *)
Definition open_once (sb bs : Z) : M Z :=
  call "ext2fs_open";;
  st ← gets id;
  let '(retval, handle) :=
    ext2fs_open (filesystem_name (opts st))
      (if truthy (rwflag (opts st)) then EXT2_FLAG_RW else 0) sb bs (world st) in
  modify (set_fs handle);;
  mret retval.

(** [for (i=0; possible_block_sizes[i]; i++) { retval = ...; if (!retval) break; }] *)
Fixpoint open_block_sizes (sb : Z) (sizes : list Z) (retval : Z) : M Z :=
  match sizes with
  | [] => mret retval
  | size :: rest =>
      retval ← open_once sb size;
      if truthy retval then open_block_sizes sb rest retval else mret retval
  end.

(** From the label [restart] to the allocation of the counters. The local
    [retval] is 0 whenever the label is reached. *)
Definition open_filesystem : M unit :=
  sync_disks;;
  o ← gets opts;
  retval ← (if truthy (superblock o) && truthy (blocksize o) then
              open_once (superblock o) (blocksize o)
            else if truthy (superblock o) then
              open_block_sizes (superblock o) possible_block_sizes 0
            else open_once 0 0);
  (if truthy retval then
     com_err (program_name o) retval "while trying to open %s" [show (filesystem_name o)];;
     (if retval =? EXT2_ET_REV_TOO_HIGH then
        printf "Get a newer version of e2fsck!\n" []
      else if retval =? EXT2_ET_SHORT_READ then
        printf "Could this be a zero-length partition?\n" []
      else if (retval =? EPERM) || (retval =? EACCES) then
        printf "You must have %s access to the filesystem or be root\n"
          [ArgS (if truthy (rwflag o) then "r/w" else "r/o")]
      else if retval =? ENXIO then
        printf "Possibly non-existent or swap device?\n" []
      else printf corrupt_msg []);;
     fatal_error None
   else mret tt);;
  match E2FSCK_CURRENT_REV with
  | Some current =>
      rev ← gets (λ st, s_rev_level (super (fs st)));
      if rev >? current then
        com_err (program_name o) EXT2_ET_REV_TOO_HIGH "while trying to open %s"
          [show (filesystem_name o)];;
        printf "Get a newer version of e2fsck!\n" [];;
        fatal_error None
      else mret tt
  | None => mret tt
  end;;
  (* If the user specified a specific superblock, presumably the master
     superblock has been trashed.  So we mark the superblock as dirty, so it
     can be written out. *)
  when (truthy (superblock o) && truthy (rwflag o)) ext2fs_mark_super_dirty;;
  call "ehandler_init";;
  count ← gets (λ st, group_desc_count (fs st));
  modify (λ st, set_reloc (set_invalid_inode_bitmap (allocate_memory count) (reloc st)) st);;
  modify (λ st, set_reloc (set_invalid_block_bitmap (allocate_memory count) (reloc st)) st);;
  modify (λ st, set_reloc (set_invalid_inode_table (allocate_memory count) (reloc st)) st).

(** The end of [main], from the test of [ext2fs_test_changed] to [return]. *)
Definition finalize : M Z :=
  o ← gets opts;
  changed ← ext2fs_test_changed;
  exit_value ← (if (changed : bool) then
                  when (negb (truthy (preen o)))
                    (printf "\n%s: ***** FILE SYSTEM WAS MODIFIED *****\n" [show (device_name o)]);;
                  if truthy root_filesystem && negb (truthy read_only_root) then
                    printf "%s: ***** REBOOT LINUX *****\n" [show (device_name o)];;
                    mret FSCK_REBOOT
                  else mret FSCK_NONDESTRUCT
                else mret FSCK_OK);
  valid ← ext2fs_test_valid;
  let exit_value := if (valid : bool) then exit_value else FSCK_UNCORRECTED in
  (if truthy (rwflag o) then
     valid ← ext2fs_test_valid;
     modify (λ st,
       let s := super (fs st) in
       let state := if (valid : bool) then EXT2_VALID_FS
                    else Z.land (s_state s) (Z.lnot EXT2_VALID_FS) in
       set_fs (set_super (set_state_mnt_lastcheck state 0 (wrap32 (time (world st))) s) (fs st)) st);;
     ext2fs_mark_super_dirty
   else mret tt);;
  call "show_stats";;
  show_stats;;
  call "write_bitmaps";;
  modify (λ st, set_world (write_bitmaps (fs st) (world st)) st);;
  call "ext2fs_close";;
  modify (λ st, set_world (ext2fs_close (fs st) (world st)) st);;
  sync_disks;;
  when (truthy (tflag o)) (call "print_resource_track");;
  mret exit_value.

(** How one pass over the body of [main] below [restart] ends: with
    [goto restart] or with [return exit_value]. *)
Inductive Next :=
| GotoRestart
| Finish (exit_value : Z).

(** [free] leaves the pointer dangling; the counters are gone. *)
Definition free_counters : M unit :=
  modify (λ st, set_reloc (set_invalid_inode_bitmap [] (reloc st)) st);;
  modify (λ st, set_reloc (set_invalid_block_bitmap [] (reloc st)) st);;
  modify (λ st, set_reloc (set_invalid_inode_table [] (reloc st)) st).

(** What follows [check_super_block], down to [goto restart] or [return]. *)
Definition after_validation : M Next :=
  call "check_if_skip";;
  check_if_skip;;
  o ← gets opts;
  match bad_blocks_file o with
  | Some file =>
      run_external "read_bad_blocks_file" (read_bad_blocks_file file (replace_bad_blocks o))
  | None => when (truthy (cflag o)) (run_external "test_disk" test_disk)
  end;;
  (* Mark the system as valid, 'til proven otherwise *)
  ext2fs_mark_valid;;
  run_external "pass1" pass1;;
  free_counters;;
  restart ← gets (λ st, restart_e2fsck (reloc st));
  if truthy restart then
    call "ext2fs_close";;
    modify (λ st, set_world (ext2fs_close (fs st) (world st)) st);;
    printf "Restarting e2fsck from the beginning...\n" [];;
    modify (λ st, set_reloc (set_restart_e2fsck 0 (reloc st)) st);;
    mret GotoRestart
  else
    run_external "pass2" pass2;;
    run_external "pass3" pass3;;
    run_external "pass4" pass4;;
    run_external "pass5" pass5;;
    exit_value ← finalize;
    mret (Finish exit_value).

(** What follows the allocations. *)
Definition check_and_repair : M Next :=
  call "check_super_block";;
  check_super_block;;
  after_validation.

Definition round : M Next :=
  open_filesystem;;
  check_and_repair.

(** From the return of [PRS] to the return of [check_mount]. *)
Definition banner_and_mount : M unit :=
  o ← gets opts;
  when (negb (truthy (preen o)))
    (eprintf "e2fsck %s, %s for EXT2 FS %s, %s\n"
       [ArgS E2FSPROGS_VERSION; ArgS E2FSPROGS_DATE; ArgS EXT2FS_VERSION; ArgS EXT2FS_DATE]);;
  (if truthy (show_version_only o) then exit 0 else mret tt);;
  call "check_mount";;
  check_mount.

(** [main] down to the return of [check_mount]. *)
Definition startup (cmd : Cmdline) : M unit :=
  call "init_resource_track";;
  call "PRS";;
  PRS cmd;;
  banner_and_mount.

(** [if (!preen && !nflag && !yflag) { if (!isatty (0) || !isatty (1)) die (...); }] *)
Definition need_terminal : M unit :=
  o ← gets opts;
  if negb (truthy (preen o)) && negb (truthy (nflag o)) && negb (truthy (yflag o)) then
    tty ← gets (λ st, isatty 0 (world st) && isatty 1 (world st));
    if (tty : bool) then mret tt else die "need terminal for interactive repairs"
  else mret tt.

(** The part of [main] above the label [restart]. *)
Definition prologue (cmd : Cmdline) : M unit :=
  startup cmd;;
  need_terminal.

(** How far a run of [main] got: it returned, it was stopped, or it is
    about to go through [restart] once more when the count of rounds
    allowed to it ran out. The source puts no bound on the restarts. *)
Inductive MainResult :=
| Returned (exit_value : Z) (st : State)
| Terminated (why : Stop) (st : State)
| Running (st : State).

Definition final_state (r : MainResult) : State :=
  match r with
  | Returned _ st => st
  | Terminated _ st => st
  | Running st => st
  end.

Fixpoint rounds (n : nat) (st : State) : MainResult :=
  match n with
  | O => Running st
  | S n' =>
      match round st with
      | Normal GotoRestart st' => rounds n' st'
      | Normal (Finish exit_value) st' => Returned exit_value st'
      | Stopped why st' => Terminated why st'
      end
  end.

Definition main (n : nat) (cmd : Cmdline) (pis : Z) (w : World) : MainResult :=
  match prologue cmd (initial_state pis w) with
  | Normal _ st => rounds n st
  | Stopped why st => Terminated why st
  end.

(** ** Vocabulary of the statements *)

(** The three pointers of a group descriptor, with the counter array, the
    test of the group loop and the message of [fatal_error] that go with
    each. *)
Inductive Field :=
| BlockBitmap
| InodeBitmap
| InodeTable.

#[global] Instance Field_eq_dec : EqDecision Field.
Proof. solve_decision. Defined.

Definition pointer (f : Field) (gd : ext2_group_desc) : Z :=
  match f with
  | BlockBitmap => bg_block_bitmap gd
  | InodeBitmap => bg_inode_bitmap gd
  | InodeTable => bg_inode_table gd
  end.

Definition counters (f : Field) (r : Reloc) : list Z :=
  match f with
  | BlockBitmap => invalid_block_bitmap r
  | InodeBitmap => invalid_inode_bitmap r
  | InodeTable => invalid_inode_table r
  end.

Definition check_field (f : Field) : nat → Z → Z → M unit :=
  match f with
  | BlockBitmap => check_block_bitmap
  | InodeBitmap => check_inode_bitmap
  | InodeTable => check_inode_table
  end.

(** The condition of the [if] that guards each relocation. *)
Definition out_of_range (f : Field) (ibpg : Z) (gd : ext2_group_desc) (first_block last_block : Z) :
  bool :=
  match f with
  | BlockBitmap => (bg_block_bitmap gd <? first_block) || (bg_block_bitmap gd >=? last_block)
  | InodeBitmap => (bg_inode_bitmap gd <? first_block) || (bg_inode_bitmap gd >=? last_block)
  | InodeTable =>
      (bg_inode_table gd <? first_block)
      || (wrap32 (bg_inode_table gd + ibpg - 1) >=? last_block)
  end.

Definition fatal_message (f : Field) : string :=
  match f with
  | BlockBitmap => "Block bitmap not in group"
  | InodeBitmap => "Inode bitmap not in group"
  | InodeTable => "Inode table not in group"
  end.

(** The bounds the group loop holds when it tests group [i + k], having
    reached group [i] with [first_block] and [last_block]: the updates of
    [group_loop], without the tests. *)
Fixpoint turn_bounds (fs : ext2_filsys) (k i : nat) (first_block last_block : Z) : Z * Z :=
  match k with
  | O => (first_block, group_last_block i last_block fs)
  | S k' =>
      turn_bounds fs k' (S i)
        (wrap32 (first_block + s_blocks_per_group (super fs)))
        (wrap32 (group_last_block i last_block fs + s_blocks_per_group (super fs)))
  end.

(** The bounds of group [j] when the loop is entered from [check_super_block]. *)
Definition loop_bounds (fs : ext2_filsys) (j : nat) : Z * Z :=
  turn_bounds fs j 0
    (s_first_data_block (super fs))
    (wrap32 (s_first_data_block (super fs) + s_blocks_per_group (super fs))).

(** The tests of the group loop in the order it makes them: the three
    pointers of group [i], then those of group [i + 1], for [n] groups. *)
Fixpoint loop_tests (n i : nat) : list (Field * nat) :=
  match n with
  | O => []
  | S n' => (BlockBitmap, i) :: (InodeBitmap, i) :: (InodeTable, i) :: loop_tests n' (S i)
  end.

(** A list of tests made one after the other, each with the bounds that
    [bounds] gives for its group. *)
Fixpoint run_tests (bounds : nat → Z * Z) (l : list (Field * nat)) : M unit :=
  match l with
  | [] => mret tt
  | (f, j) :: l' => check_field f j (bounds j).1 (bounds j).2;; run_tests bounds l'
  end.

(** The fields a turn of the loop tests before and after field [f]. *)
Definition fields_before (f : Field) : list Field :=
  match f with
  | BlockBitmap => []
  | InodeBitmap => [BlockBitmap]
  | InodeTable => [BlockBitmap; InodeBitmap]
  end.

Definition fields_after (f : Field) : list Field :=
  match f with
  | BlockBitmap => [InodeBitmap; InodeTable]
  | InodeBitmap => [InodeTable]
  | InodeTable => []
  end.

(** The tests the loop over [n] groups makes before it comes to pointer [f]
    of group [j], and those it makes after it. *)
Definition earlier_tests (f : Field) (j : nat) : list (Field * nat) :=
  loop_tests j 0 ++ map (λ f', (f', j)) (fields_before f).

Definition later_tests (f : Field) (j n : nat) : list (Field * nat) :=
  map (λ f', (f', j)) (fields_after f) ++ loop_tests (n - S j) (S j).

(** The block range of group [j] in the words of the specification: groups
    follow each other from the first data block, each [s_blocks_per_group]
    long, and the last one ends at the block count. *)
Definition group_first (fs : ext2_filsys) (j : nat) : Z :=
  s_first_data_block (super fs) + Z.of_nat j * s_blocks_per_group (super fs).

Definition group_last (fs : ext2_filsys) (j : nat) : Z :=
  if Z.of_nat j =? group_desc_count fs - 1 then s_blocks_count (super fs)
  else group_first fs j + s_blocks_per_group (super fs).

Definition in_group_range (f : Field) (fs : ext2_filsys) (j : nat) : Prop :=
  let gd := group_desc fs !!! j in
  match f with
  | BlockBitmap => group_first fs j ≤ bg_block_bitmap gd < group_last fs j
  | InodeBitmap => group_first fs j ≤ bg_inode_bitmap gd < group_last fs j
  | InodeTable =>
      group_first fs j ≤ bg_inode_table gd < group_last fs j
      ∧ group_first fs j ≤ bg_inode_table gd + inode_blocks_per_group fs - 1 < group_last fs j
  end.

(** A handle as [ext2fs_open] builds it: 32-bit geometry, and every group
    starts inside the volume. *)
Definition geometry_fits (fs : ext2_filsys) : Prop :=
  0 ≤ s_first_data_block (super fs)
  ∧ 0 ≤ s_blocks_per_group (super fs)
  ∧ s_blocks_count (super fs) < 2 ^ 32
  ∧ s_first_data_block (super fs)
    + (group_desc_count fs - 1) * s_blocks_per_group (super fs) ≤ s_blocks_count (super fs).

(** The scalar invariants of the superblock, in the words of the
    specification (section 3). *)
Definition scalar_invariants (s : ext2_super_block) : Prop :=
  1 ≤ s_inodes_count s
  ∧ 1 ≤ s_blocks_count s
  ∧ s_first_data_block s ≤ s_blocks_count s
  ∧ 0 ≤ s_log_frag_size s ≤ 2
  ∧ s_log_frag_size s ≤ s_log_block_size s ≤ 2
  ∧ 1 ≤ s_frags_per_group s ≤ 8 * EXT2_BLOCK_SIZE s
  ∧ 1 ≤ s_blocks_per_group s ≤ 8 * EXT2_BLOCK_SIZE s
  ∧ s_r_blocks_count s ≤ s_blocks_count s.

(** A superblock whose fields hold values of their C types: [__u32], but
    for the signed [s_log_frag_size]; and a block size whose eightfold is an
    [int] where the exponent is a legal one. *)
Definition typed_super (s : ext2_super_block) : Prop :=
  0 ≤ s_inodes_count s < 2 ^ 32
  ∧ 0 ≤ s_blocks_count s < 2 ^ 32
  ∧ 0 ≤ s_r_blocks_count s < 2 ^ 32
  ∧ 0 ≤ s_first_data_block s < 2 ^ 32
  ∧ 0 ≤ s_log_block_size s < 2 ^ 32
  ∧ - 2 ^ 31 ≤ s_log_frag_size s < 2 ^ 31
  ∧ 0 ≤ s_blocks_per_group s < 2 ^ 32
  ∧ 0 ≤ s_frags_per_group s < 2 ^ 32
  ∧ 0 ≤ s_inodes_per_group s < 2 ^ 32
  ∧ (s_log_block_size s ≤ 2 → 0 ≤ 8 * EXT2_BLOCK_SIZE s < 2 ^ 31).

(** [violated s descr value]: the field named [descr] breaks its bound, and
    [value] is what [check_super_value] prints for it, the field as an
    [unsigned long]. [inodes_per_group] is tested by the source between
    [blocks_per_group] and [r_blocks_count]. *)
Inductive violated (s : ext2_super_block) : string → Z → Prop :=
| bad_inodes_count :
    s_inodes_count s < 1 → violated s "inodes_count" (s_inodes_count s)
| bad_blocks_count :
    s_blocks_count s < 1 → violated s "blocks_count" (s_blocks_count s)
| bad_first_data_block :
    s_blocks_count s < s_first_data_block s →
    violated s "first_data_block" (s_first_data_block s)
| bad_log_frag_size :
    s_log_frag_size s < 0 ∨ 2 < s_log_frag_size s →
    violated s "log_frag_size" (to_unsigned_long (s_log_frag_size s))
| bad_log_block_size :
    s_log_block_size s < s_log_frag_size s ∨ 2 < s_log_block_size s →
    violated s "log_block_size" (s_log_block_size s)
| bad_frags_per_group :
    s_frags_per_group s < 1 ∨ 8 * EXT2_BLOCK_SIZE s < s_frags_per_group s →
    violated s "frags_per_group" (s_frags_per_group s)
| bad_blocks_per_group :
    s_blocks_per_group s < 1 ∨ 8 * EXT2_BLOCK_SIZE s < s_blocks_per_group s →
    violated s "blocks_per_group" (s_blocks_per_group s)
| bad_inodes_per_group :
    s_inodes_per_group s < 1 → violated s "inodes_per_group" (s_inodes_per_group s)
| bad_r_blocks_count :
    s_blocks_count s < s_r_blocks_count s →
    violated s "r_blocks_count" (s_r_blocks_count s).

(** What the process has written when a scalar check fails in state [st]. *)
Definition corruption_report (descr : string) (value : Z) (st : State) : State :=
  add_event (Printf corrupt_msg [])
    (add_event (Printf "Corruption found in superblock.  (%s = %lu).\n" [ArgS descr; ArgZ value])
       st).

(** How often the general relocation hint occurs in a trace. *)
Definition hint_event : Event := Printf relocate_hint_msg [].

Definition hint_count (l : list Event) : nat :=
  length (filter (λ e, e = hint_event) l).

(** What [check_if_skip] has written when it ends the process. *)
Definition clean_report (st : State) : State :=
  let s := super (fs st) in
  add_event
    (Printf "%s: clean, %d/%d files, %d/%d blocks\n"
       [show (device_name (opts st));
        ArgZ (wrap32 (s_inodes_count s - s_free_inodes_count s));
        ArgZ (s_inodes_count s);
        ArgZ (wrap32 (s_blocks_count s - s_free_blocks_count s));
        ArgZ (s_blocks_count s)])
    st.

(** What [check_if_skip] has written when it returns with the reason for
    which the check is forced. *)
Definition forced_report (reason : string) (st : State) : State :=
  add_event
    (Printf "%s %s, check forced.\n" [show (device_name (opts st)); ArgS reason]) st.

(** The exit value the end of [main] computes from the run state. *)
Definition exit_classification (r : RunState) : Z :=
  if valid r then (if modified r then FSCK_NONDESTRUCT else FSCK_OK)
  else FSCK_UNCORRECTED.

(** [main] from the call of [check_super_block] to the call of pass 1: the
    statements of [check_and_repair] down to the mark of pass 1. *)
Definition up_to_pass1 : M unit :=
  call "check_super_block";;
  check_super_block;;
  call "check_if_skip";;
  check_if_skip;;
  o ← gets opts;
  match bad_blocks_file o with
  | Some file =>
      run_external "read_bad_blocks_file" (read_bad_blocks_file file (replace_bad_blocks o))
  | None => when (truthy (cflag o)) (run_external "test_disk" test_disk)
  end;;
  (* Mark the system as valid, 'til proven otherwise *)
  ext2fs_mark_valid;;
  call "pass1".

(** The state in which [main] tests [restart_e2fsck], when pass 1 was
    entered in [st]: pass 1 has run and the three arrays are freed. *)
Definition after_pass1 (st : State) : State :=
  let st1 := put_shared (pass1 (shared_of st)) st in
  set_reloc
    (set_invalid_inode_table []
       (set_invalid_block_bitmap [] (set_invalid_inode_bitmap [] (reloc st1)))) st1.

(** The four statements under [if (restart_e2fsck)]. *)
Definition restarting (st : State) : State :=
  let st1 := add_event (Call "ext2fs_close") st in
  let st2 := set_world (ext2fs_close (fs st1) (world st1)) st1 in
  let st3 := add_event (Printf "Restarting e2fsck from the beginning...\n" []) st2 in
  set_reloc (set_restart_e2fsck 0 (reloc st3)) st3.

(** The state an external pass leaves. *)
Definition passed (fn : string) (p : Shared World → Shared World) (st : State) : State :=
  put_shared (p (shared_of st)) (add_event (Call fn) st).

(** The state in which [main] reaches its end when no restart was asked
    for: passes 2 to 5 have run. *)
Definition passes_done (st : State) : State :=
  passed "pass5" pass5 (passed "pass4" pass4 (passed "pass3" pass3 (passed "pass2" pass2 st))).

(** Modelled from the spec: pass 1 (pass1.c, not part of the file) consumes
    the relocation flags (section 3), which are fully reset on every restart
    (section 5). [main] itself clears the restart request and allocates the
    three arrays afresh; the running total [invalid_bitmaps] it never writes,
    so its reset is left to pass 1: entered on [sh], pass 1 leaves the total
    at zero. *)
Definition pass1_consumes_flags (sh : Shared World) : Prop :=
  invalid_bitmaps (sh_reloc (pass1 sh)) = 0.

(** ** Vocabulary of the proofs *)

(** [preserves R m]: the computation [m] relates the state it starts in to
    the state it ends in, however it ends. *)
Definition preserves (R : State → State → Prop) {A} (m : M A) : Prop :=
  ∀ st, R st (state_of (m st)).

(** An event that is neither the relocation hint nor the entry mark of
    [check_if_skip]. *)
Definition quiet (e : Event) : Prop :=
  e ≠ hint_event ∧ e ≠ Call "check_if_skip".

(** While [hint_issued] is 0 the hint has not been printed, and it is never
    in the trace twice. *)
Definition hint_inv (st : State) : Prop :=
  (hint_count (out st) ≤ 1)%nat ∧ (hint_issued st = 0 → hint_count (out st) = 0%nat).

(** The condition under which [check_super_value] reports corruption. *)
Definition out_of_bounds (value flags min max : Z) : bool :=
  (truthy (Z.land flags MIN_CHECK) && (to_unsigned_long value <? to_unsigned_long min))
  || (truthy (Z.land flags MAX_CHECK) && (to_unsigned_long value >? to_unsigned_long max)).

(** [show_stats] can be printed: none of its divisions is by zero. *)
Definition stats_printable (st : State) : Prop :=
  let s := super (fs st) in
  to_int (wrap32 (s_inodes_count s - s_free_inodes_count s)) ≠ 0
  ∧ (verbose (opts st) ≠ 0 →
     to_int (s_inodes_count s) ≠ 0 ∧ to_int (s_blocks_count s) ≠ 0).

(** The handle as the write-back under [if (rwflag)] leaves it. *)
Definition written_back (st : State) : ext2_filsys :=
  let s := super (fs st) in
  let state := if valid (run st) then EXT2_VALID_FS
               else Z.land (s_state s) (Z.lnot EXT2_VALID_FS) in
  set_fs_dirty true
    (set_super (set_state_mnt_lastcheck state 0 (wrap32 (time (world st))) s) (fs st)).

(** The state in which [finalize] calls [show_stats]. *)
Definition before_stats (st : State) : State :=
  let o := opts st in
  let st1 :=
    if modified (run st) && negb (truthy (preen o)) then
      add_event (Printf "\n%s: ***** FILE SYSTEM WAS MODIFIED *****\n" [show (device_name o)]) st
    else st in
  add_event (Call "show_stats")
    (if truthy (rwflag o) then
       add_event (Call "ext2fs_mark_super_dirty") (set_fs (written_back st) st1)
     else st1).

(** What [PRS] guarantees about [rwflag]: it is still 1 unless -n came
    without a bad-blocks file and without -c. *)
Definition rw_unless_plain_n (o : Options) : Prop :=
  rwflag o = 1 ∨ (nflag o ≠ 0 ∧ bad_blocks_file o = None ∧ cflag o = 0).

(** After [PRS], nothing in [main] writes the options. *)
Definition same_opts (st st' : State) : Prop := opts st' = opts st.

(** The trace only grows. *)
Definition extends (st st' : State) : Prop := ∃ l, out st' = out st ++ l.

(** The trace grows by events that are neither the hint nor the mark of
    [check_if_skip]. *)
Definition extends_quietly (st st' : State) : Prop :=
  ∃ l, out st' = out st ++ l ∧ Forall quiet l.

(** The flags [main] passes to [ext2fs_open]. *)
Definition open_flags (o : Options) : Z :=
  if truthy (rwflag o) then EXT2_FLAG_RW else 0.

(** Options, counters, run state and world are the same in both states. *)
Definition same_but_handle (st st' : State) : Prop :=
  opts st' = opts st ∧ reloc st' = reloc st ∧ run st' = run st ∧ world st' = world st.

Definition add_events (l : list Event) (st : State) : State :=
  fold_left (λ s e, add_event e s) l st.

(** The state [relocate_hint] leaves. *)
Definition hinted (st : State) : State :=
  if truthy (hint_issued st) then st else set_hint_issued 1 (add_event hint_event st).

(** The lines printed when pointer [f] of group [i] is found out of range. *)
Definition complaint (f : Field) (i : nat) (gd : ext2_group_desc) : list Event :=
  match f with
  | BlockBitmap =>
      [Printf "Block bitmap for group %d is not in group.  (block %u)\n"
         [ArgZ (Z.of_nat i); ArgZ (bg_block_bitmap gd)]]
  | InodeBitmap =>
      [Printf "Inode bitmap group %d not in group.  (block %u)\n"
         [ArgZ (Z.of_nat i); ArgZ (bg_inode_bitmap gd)]]
  | InodeTable =>
      [Printf "Inode table for group %d not in group.  (block %u)\n"
         [ArgZ (Z.of_nat i); ArgZ (bg_inode_table gd)];
       Printf "WARNING: SEVERE DATA LOSS POSSIBLE.\n" []]
  end.

(** The state in which the relocation of pointer [f] of group [i] has been
    offered and answered: after the hint, the complaint, [preenhalt] and the
    prompt of [ask], if there was one. *)
Definition offered (f : Field) (i : nat) (st : State) : State :=
  set_world (policy_answer (opts st) "Relocate" 1 (world st)).2
    (add_events (complaint f i (group_desc (fs st) !!! i) ++ [Call "preenhalt"; Call "ask"])
       (hinted st)).

(** An answer that applies the action raises [modified]. *)
Definition accepted (st : State) : State := set_run (raise_modified (run st)) st.

Definition set_pointer (f : Field) (v : Z) : ext2_group_desc → ext2_group_desc :=
  match f with
  | BlockBitmap => set_bg_block_bitmap v
  | InodeBitmap => set_bg_inode_bitmap v
  | InodeTable => set_bg_inode_table v
  end.

Definition set_counters (f : Field) (l : list Z) : Reloc → Reloc :=
  match f with
  | BlockBitmap => set_invalid_block_bitmap l
  | InodeBitmap => set_invalid_inode_bitmap l
  | InodeTable => set_invalid_inode_table l
  end.

(** The three assignments that follow an accepted relocation. *)
Definition relocated (f : Field) (i : nat) (st : State) : State :=
  let st1 := set_fs (set_group_desc (alter (set_pointer f 0) i (group_desc (fs st))) (fs st)) st in
  let st2 := set_reloc (set_counters f (alter Z.succ i (counters f (reloc st1))) (reloc st1)) st1 in
  set_reloc (set_invalid_bitmaps (invalid_bitmaps (reloc st2) + 1) (reloc st2)) st2.

(** What the tests of the fields [fields] of group [i], made with the bounds
    [first_block] and [last_block], may have changed between [st] and [st']:
    nothing of the geometry, no other group, no other field of the group, and
    a counter only where the pointer was out of range. *)
Definition touches (i : nat) (first_block last_block : Z) (fields : list Field)
  (st st' : State) : Prop :=
  super (fs st') = super (fs st)
  ∧ inode_blocks_per_group (fs st') = inode_blocks_per_group (fs st)
  ∧ length (group_desc (fs st')) = length (group_desc (fs st))
  ∧ (∀ j, j ≠ i → group_desc (fs st') !!! j = group_desc (fs st) !!! j)
  ∧ (∀ f, f ∉ fields →
       pointer f (group_desc (fs st') !!! i) = pointer f (group_desc (fs st) !!! i))
  ∧ (∀ f j,
       counters f (reloc st') !!! j = counters f (reloc st) !!! j
       ∨ (f ∈ fields ∧ j = i
          ∧ out_of_range f (inode_blocks_per_group (fs st)) (group_desc (fs st) !!! i)
              first_block last_block = true)).

End Program.

Arguments Normal {X A}.
Arguments Stopped {X A}.

Arguments ask : simpl never.
Arguments preenhalt : simpl never.
Arguments relocate_hint : simpl never.
Arguments check_super_value : simpl never.
Arguments check_block_bitmap : simpl never.
Arguments check_inode_bitmap : simpl never.
Arguments check_inode_table : simpl never.
Arguments check_super_block : simpl never.
Arguments check_if_skip : simpl never.
Arguments usage : simpl never.
Arguments PRS_case : simpl never.
Arguments PRS : simpl never.
Arguments check_mount : simpl never.
Arguments sync_disks : simpl never.
Arguments show_stats : simpl never.
Arguments open_once : simpl never.
Arguments open_block_sizes : simpl never.
Arguments group_loop : simpl never.
Arguments PRS_loop : simpl never.
Arguments rounds : simpl never.
Arguments open_filesystem : simpl never.
Arguments finalize : simpl never.
Arguments after_validation : simpl never.
Arguments check_and_repair : simpl never.
Arguments round : simpl never.
Arguments banner_and_mount : simpl never.
Arguments startup : simpl never.
Arguments need_terminal : simpl never.
Arguments prologue : simpl never.
Arguments run_external : simpl never.

(** ** Vocabulary of the further properties *)

Section Vocabulary.
Context {X : Externals}.

(** At most one of the three modes of operation is set. *)
Definition exclusive_modes (o : Options) : Prop :=
  (preen o = 0 ∧ nflag o = 0 ∧ yflag o = 0)
  ∨ (preen o = 1 ∧ nflag o = 0 ∧ yflag o = 0)
  ∨ (preen o = 0 ∧ nflag o = 1 ∧ yflag o = 0)
  ∨ (preen o = 0 ∧ nflag o = 0 ∧ yflag o = 1).

(** The option letters of the cases 'p'/'a', 'n' and 'y', and the values
    each of them gives to [preen], [nflag] and [yflag]. *)
Definition is_mode (c : ascii) : bool :=
  (c =? "p")%char || (c =? "a")%char || (c =? "n")%char || (c =? "y")%char.

Definition modes (o : Options) : Z * Z * Z := (preen o, nflag o, yflag o).

Definition mode_of (c : ascii) : Z * Z * Z :=
  if (c =? "n")%char then (0, 1, 0)
  else if (c =? "y")%char then (0, 0, 1)
  else (1, 0, 0).

(** The letters that have a case of their own in the [switch] of [PRS]. *)
Definition known_option (c : ascii) : bool :=
  existsb (Ascii.eqb c) (list_ascii_of_string "panytcrbBIPLldfFvVN").

(** The two letters that name a bad-blocks file. *)
Definition names_bad_blocks (c : ascii) : bool := (c =? "l")%char || (c =? "L")%char.

(** How often the letter [c] is among the options. *)
Definition occurrences (c : ascii) (l : list (ascii * string)) : Z :=
  Z.of_nat (length (filter (λ p, p.1 = c) l)).

(** The state after [if (argc && *argv) program_name = *argv;]. *)
Definition named (cmd : Cmdline) (st : State) : State :=
  match argv0 cmd with
  | Some name => set_opts (set_program_name name (opts st)) st
  | None => st
  end.

(** -n without a bad-blocks file and without -c: the condition under which
    [PRS] clears [rwflag]. *)
Definition plain_n (o : Options) : bool :=
  truthy (nflag o) && negb (non_null (bad_blocks_file o)) && negb (truthy (cflag o)).

(** The options as the assignments of [PRS] below the loop leave them, for
    the operand [device]. *)
Definition settled (device : string) (o : Options) : Options :=
  let o1 := if plain_n o then set_rwflag 0 o else o in
  let o2 := set_filesystem_name (Some device) o1 in
  if non_null (device_name o2) then o2 else set_device_name (Some device) o2.

(** The state in which [usage] leaves the process. *)
Definition usage_report (st : State) : State :=
  add_event
    (Eprintf "Usage: %s [-panyrcdfvtFV] [-b superblock] [-B blocksize]\n\t\t[-I inode_buffer_blocks] [-P process_inode_size]\n\t\t[-l|-L bad_blocks_file] device\n"
       [ArgS (program_name (opts st))])
    st.

(** Two states that differ in their options at most. *)
Definition same_but_opts (st st' : State) : Prop :=
  fs st' = fs st ∧ reloc st' = reloc st ∧ run st' = run st ∧ world st' = world st
  ∧ stats st' = stats st ∧ hint_issued st' = hint_issued st ∧ out st' = out st.

(** Two states that differ in their trace and in the world at most. *)
Definition same_but_trace (st st' : State) : Prop :=
  opts st' = opts st ∧ fs st' = fs st ∧ reloc st' = reloc st ∧ run st' = run st
  ∧ stats st' = stats st ∧ hint_issued st' = hint_issued st.

(** What [check_super_block] has verified of a superblock when it reaches
    the group descriptors: the nine bounds, a fragment size equal to the
    block size, as many blocks as fragments in a group, and the first data
    block where the block size puts it. *)
Definition consistent_superblock (s : ext2_super_block) : Prop :=
  scalar_invariants s
  ∧ 1 ≤ s_inodes_per_group s
  ∧ s_log_block_size s = s_log_frag_size s
  ∧ s_blocks_per_group s = s_frags_per_group s
  ∧ s_first_data_block s = (if s_log_block_size s =? 0 then 1 else 0).

(** The sum of a counter array, and of the three of them. *)
Definition total (l : list Z) : Z := foldr Z.add 0 l.

Definition relocations (r : Reloc) : Z :=
  total (invalid_inode_bitmap r) + total (invalid_block_bitmap r)
  + total (invalid_inode_table r).

(** The running total [invalid_bitmaps] and the three counter arrays have
    grown by the same amount between [st] and [st'], and no array has
    changed its length. *)
Definition balanced (st st' : State) : Prop :=
  length (group_desc (fs st')) = length (group_desc (fs st))
  ∧ (∀ f, length (counters f (reloc st')) = length (counters f (reloc st)))
  ∧ invalid_bitmaps (reloc st') - invalid_bitmaps (reloc st)
    = relocations (reloc st') - relocations (reloc st).

(** [st'] is [st] with the pointers [(f, j)] for which [hit f j] holds
    relocated: these are 0 and their counters one higher; every other
    pointer and counter of a group the handle has is as it was, and so is
    the geometry. *)
Definition relocates (hit : Field → nat → bool) (st st' : State) : Prop :=
  super (fs st') = super (fs st)
  ∧ inode_blocks_per_group (fs st') = inode_blocks_per_group (fs st)
  ∧ length (group_desc (fs st')) = length (group_desc (fs st))
  ∧ (∀ f, length (counters f (reloc st')) = length (counters f (reloc st)))
  ∧ ∀ f j, (j < length (group_desc (fs st)))%nat →
      if hit f j
      then pointer f (group_desc (fs st') !!! j) = 0
           ∧ counters f (reloc st') !!! j = counters f (reloc st) !!! j + 1
      else pointer f (group_desc (fs st') !!! j) = pointer f (group_desc (fs st) !!! j)
           ∧ counters f (reloc st') !!! j = counters f (reloc st) !!! j.

(** Whether the loop entered with [n] turns left at group [i] finds pointer
    [f] of group [j] out of range. *)
Definition flagged (fs : ext2_filsys) (n i : nat) (first_block last_block : Z)
  (f : Field) (j : nat) : bool :=
  bool_decide (i ≤ j < i + n)%nat
  && out_of_range f (inode_blocks_per_group fs) (group_desc fs !!! j)
       (turn_bounds fs (j - i) i first_block last_block).1
       (turn_bounds fs (j - i) i first_block last_block).2.

(** [ext2fs_open] fails for the superblock [sb] and the block size [bs] in
    state [st]. *)
Definition open_fails (st : State) (sb bs : Z) : Prop :=
  (ext2fs_open (filesystem_name (opts st)) (open_flags (opts st)) sb bs (world st)).1 ≠ 0.

(** The events [main] leaves between the label [restart] and the return of
    the last [ext2fs_open]. *)
Definition opening_event (e : Event) : Prop :=
  e = Call "sync" ∨ e = Call "sleep" ∨ e = Call "ext2fs_open".

(** The calls a round that finishes makes, in their order. *)
Definition calls_of_a_full_round : list Event :=
  [Call "ext2fs_open"; Call "check_super_block"; Call "check_if_skip"; Call "pass1";
   Call "pass2"; Call "pass3"; Call "pass4"; Call "pass5"; Call "show_stats";
   Call "write_bitmaps"; Call "ext2fs_close"].

(** What [check_mount] takes for a mounted volume: the query succeeded, the
    flag is set, and /etc/mtab is not the stale one of a root mounted
    read-only. *)
Definition seen_mounted (st : State) : bool :=
  let query := ext2fs_check_if_mounted (filesystem_name (opts st)) (world st) in
  negb (truthy query.1)
  && truthy (Z.land query.2 EXT2_MF_MOUNTED)
  && negb (linux_mntent && truthy (open_mtab (world st)) && (open_mtab (world st) =? EROFS)).

(** There is a terminal, and the operator answers yes to "Do you really
    want to continue". *)
Definition confirmed (st : State) : bool :=
  isatty 0 (world st) && isatty 1 (world st)
  && truthy (ask_yn "Do you really want to continue" (-1) (world st)).1.

(** The line [main] prints unless in preen mode. *)
Definition banner : Event :=
  Eprintf "e2fsck %s, %s for EXT2 FS %s, %s\n"
    [ArgS E2FSPROGS_VERSION; ArgS E2FSPROGS_DATE; ArgS EXT2FS_VERSION; ArgS EXT2FS_DATE].

(** What [check_mount] reports when the mount state cannot be found out. *)
Definition mount_error (st : State) : list Event :=
  let query := ext2fs_check_if_mounted (filesystem_name (opts st)) (world st) in
  if truthy query.1 then
    [ComErr "ext2fs_check_if_mount" query.1 "while determining whether %s is mounted."
       [show (filesystem_name (opts st))]]
  else [].

End Vocabulary.

(** ** A small world to run the program in *)

(** A disk holding one filesystem image, a terminal that is there or not,
    an operator with a list of answers, a clock, and a pass 1 that asks for a
    restart a given number of times, having consumed the count of the
    relocations each time. *)
Record Toy := mk_toy {
  toy_disk : ext2_filsys;
  toy_open_error : Z;
  toy_device_blocks : Z;
  toy_mount_flags : Z;
  toy_tty : bool;
  toy_answers : list Z;
  toy_clock : Z;
  toy_restarts : nat
}.

Definition toy_ask_yn (descr : string) (def : Z) (w : Toy) : Z * Toy :=
  match toy_answers w with
  | [] => (0, w)
  | a :: rest =>
      (a, mk_toy (toy_disk w) (toy_open_error w) (toy_device_blocks w) (toy_mount_flags w)
            (toy_tty w) rest (toy_clock w) (toy_restarts w))
  end.

Definition toy_pass1 (sh : Shared Toy) : Shared Toy :=
  let w := sh_world sh in
  match toy_restarts w with
  | O => sh
  | S n =>
      mk_shared (sh_fs sh) (sh_run sh)
        (set_invalid_bitmaps 0
           (set_restart_e2fsck (restart_e2fsck (sh_reloc sh) + 1) (sh_reloc sh)))
        (sh_stats sh)
        (mk_toy (toy_disk w) (toy_open_error w) (toy_device_blocks w) (toy_mount_flags w)
           (toy_tty w) (toy_answers w) (toy_clock w) n)
  end.

#[global] Instance toy : Externals := {|
  World := Toy;
  EXT2_VALID_FS := 1;
  EXT2_ERROR_FS := 2;
  EXT2_FLAG_RW := 1;
  EXT2_MF_MOUNTED := 1;
  EXT2_BLOCK_SIZE := λ s, Z.shiftl 1024 (s_log_block_size s);
  EXT2_FRAG_SIZE := λ s, Z.shiftl 1024 (s_log_frag_size s);
  EXT2_ET_REV_TOO_HIGH := 2133571348;
  EXT2_ET_SHORT_READ := 2133571364;
  EPERM := 1;
  EACCES := 13;
  ENXIO := 6;
  EROFS := 30;
  E2FSCK_CURRENT_REV := Some 0;
  E2FSPROGS_VERSION := "1.02";
  E2FSPROGS_DATE := "16-Jan-96";
  EXT2FS_VERSION := "0.5b";
  EXT2FS_DATE := "95/08/09";
  linux_mntent := true;
  have_BLKFLSBUF := true;
  LP64 := false;
  isatty := λ _ w, toy_tty w;
  time := toy_clock;
  open_mtab := λ _, 0;
  flush_device := λ _ _, (0, 0);
  atoi := λ _, 0;
  ask_yn := toy_ask_yn;
  ext2fs_check_if_mounted := λ _ w, (0, toy_mount_flags w);
  ext2fs_open := λ _ _ _ _ w, (toy_open_error w, toy_disk w);
  ext2fs_get_device_size := λ _ _ w, (0, toy_device_blocks w);
  ext2fs_close := λ _ w, w;
  write_bitmaps := λ _ w, w;
  read_bad_blocks_file := λ _ _ sh, sh;
  test_disk := λ sh, sh;
  pass1 := toy_pass1;
  pass2 := λ sh, sh;
  pass3 := λ sh, sh;
  pass4 := λ sh, sh;
  pass5 := λ sh, sh
|}.

(** A clean volume of 4096 blocks of 1 KB, half of them and half of the 1000
    inodes in use, mounted once out of twenty: one group starting at block 1
    whose nominal span of 8192 blocks is cut short by the end of the
    volume. *)
Definition toy_super : ext2_super_block :=
  mk_super 1000 4096 0 2048 500 1 0 0 8192 8192 1000 1 20 1 0 0 0.

Definition toy_fs (gd : ext2_group_desc) : ext2_filsys :=
  mk_fs toy_super [gd] 32 false.

Definition good_gd : ext2_group_desc := mk_gd 3 4 5.

(** The same descriptor with its block bitmap beyond the end of the volume. *)
Definition bad_gd : ext2_group_desc := mk_gd 5000 4 5.

Definition toy_world (gd : ext2_group_desc) (tty : bool) (restarts : nat) : Toy :=
  mk_toy (toy_fs gd) 0 4096 0 tty [] 1000 restarts.

(** The command line [e2fsck <options> /dev/hda1], the options without
    arguments. *)
Definition cmdline (l : list ascii) : Cmdline :=
  mk_cmdline (Some "e2fsck") (map (λ c, (c, EmptyString)) l) ["/dev/hda1"].

(** The state of a run with options [l] in the world [w] at the label
    [restart], once the filesystem is open, and when [check_super_block] has
    been run on it. *)
Definition at_restart (l : list ascii) (w : Toy) : State :=
  state_of (prologue (cmdline l) (initial_state 0 w)).

Definition opened (l : list ascii) (w : Toy) : State :=
  state_of (open_filesystem (at_restart l w)).

Definition validated (l : list ascii) (w : Toy) : State :=
  state_of (check_super_block (add_event (Call "check_super_block") (opened l w))).

(** A volume of 12000 blocks in two groups, the second one cut short; the
    pointers of the second group lie in its last blocks. *)
Definition two_groups : ext2_filsys :=
  mk_fs (mk_super 2000 12000 0 2048 500 1 0 0 8192 8192 1000 1 20 1 0 0 0)
    [mk_gd 3 4 5; mk_gd 11900 11901 11902] 32 false.

(** The clean volume, opened with -p and validated: the state in which
    [main] calls [check_if_skip]. *)
Definition skippable_state : State := validated ["p"%char] (toy_world good_gd false 0).

(** The volume with the misplaced block bitmap, opened with -y -f, pass 1
    asking for one restart. *)
Definition relocation_state : State :=
  opened ["y"%char; "f"%char] (toy_world bad_gd true 1).

(** A modified, valid filesystem about to be finalized. *)
Definition modified_state : State :=
  set_run (mk_run true true) (validated ["y"%char; "f"%char] (toy_world bad_gd true 0)).

(** A volume marked clean whose superblock reserves more blocks than the
    volume has. *)
Definition unsound_clean_world : Toy :=
  mk_toy
    (mk_fs (mk_super 1000 4096 5000 2048 500 1 0 0 8192 8192 1000 1 20 1 0 0 0)
       [good_gd] 32 false)
    0 4096 0 false [] 1000 0.

(** The run [e2fsck -n -c /dev/hda1] on the clean volume, and the state it
    ends in. *)
Definition read_only_scan : MainResult :=
  main 1 (cmdline ["n"%char; "c"%char]) 0 (toy_world good_gd false 0).

Definition read_only_scan_end : State := final_state read_only_scan.

(** An open handle whose superblock has no inodes. *)
Definition corrupt_state : State :=
  set_fs (set_super (mk_super 0 4096 0 2048 500 1 0 0 8192 8192 1000 1 20 1 0 0 0)
            (toy_fs good_gd))
    (opened ["p"%char] (toy_world good_gd false 0)).

(** The state in which [main] calls [PRS]. *)
Definition before_PRS : State :=
  add_event (Call "PRS")
    (add_event (Call "init_resource_track") (initial_state 0 (toy_world good_gd false 0))).

(** The command line [e2fsck <options> /dev/hda1], the options with their
    arguments. *)
Definition command (l : list (ascii * string)) : Cmdline :=
  mk_cmdline (Some "e2fsck") l ["/dev/hda1"].

(** [e2fsck -p -n -y -f /dev/hda1], [e2fsck -t -c -t -L bad -c -c /dev/hda1]
    and [e2fsck -l first -L second -f /dev/hda1]. *)
Definition three_modes : Cmdline := cmdline ["p"; "n"; "y"; "f"]%char.

Definition counted_options : Cmdline :=
  command [("t"%char, EmptyString); ("c"%char, EmptyString); ("t"%char, EmptyString);
           ("L"%char, "bad"); ("c"%char, EmptyString); ("c"%char, EmptyString)].

Definition two_bad_blocks_files : Cmdline :=
  command [("l"%char, "first"); ("L"%char, "second"); ("f"%char, EmptyString)].

(** [e2fsck -p], without a device. *)
Definition no_device : Cmdline :=
  mk_cmdline (Some "e2fsck") [("p"%char, EmptyString)] [].

(** [e2fsck -N root -p /dev/hda1]. *)
Definition named_device : Cmdline :=
  command [("N"%char, "root"); ("p"%char, EmptyString)].

(** A disk that cannot be opened for lack of permission. *)
Definition unreadable_world : Toy :=
  mk_toy (toy_fs good_gd) 13 4096 0 false [] 1000 0.

(** The clean volume, opened and validated, mounted as often as it may be. *)
Definition overdue_state : State :=
  set_fs (set_super (mk_super 1000 4096 0 2048 500 1 0 0 8192 8192 1000 20 20 1 0 0 0)
            (toy_fs good_gd))
    skippable_state.

(** The volume with two groups on a device large enough for it, open. *)
Definition two_group_volume : State :=
  opened ["p"%char] (mk_toy two_groups 0 12000 0 false [] 1000 0).

(** The volume of one group whose inode table is said to begin at the last
    block a 32-bit number can name, opened with -y -f. *)
Definition wrapping_table : ext2_group_desc := mk_gd 3 4 4294967295.

Definition wrapping_table_state : State :=
  opened ["y"%char; "f"%char] (toy_world wrapping_table true 0).

(** The clean volume, last checked at 1700000000 and to be checked every
    2594968296 seconds, opened with -p and validated at 1700005000. *)
Definition long_interval_world : Toy :=
  mk_toy
    (mk_fs (mk_super 1000 4096 0 2048 500 1 0 0 8192 8192 1000 1 20 1 1700000000 2594968296 0)
       [good_gd] 32 false)
    0 4096 0 false [] 1700005000 0.

Definition long_interval_state : State := validated ["p"%char] long_interval_world.

(** An open handle whose superblock has the fragment size exponent -1 and
    reserves more blocks than the volume has. *)
Definition negative_frag_state : State :=
  set_fs (set_super (mk_super 1000 4096 5000 2048 500 1 0 (-1) 8192 8192 1000 1 20 1 0 0 0)
            (toy_fs good_gd))
    (opened ["p"%char] (toy_world good_gd false 0)).

(** The clean volume, mounted, and no terminal. *)
Definition mounted_world : Toy := mk_toy (toy_fs good_gd) 0 4096 1 false [] 1000 0.

(** The state in which [PRS] leaves a run without options. *)
Definition after_PRS (w : Toy) : State :=
  state_of (PRS (cmdline [])
              (add_event (Call "PRS")
                 (add_event (Call "init_resource_track") (initial_state 0 w)))).


(** * Properties *)

(** ** Running the monad *)

(** Unfolds the monad and the printing primitives in the goal. *)
Ltac exec :=
  cbv beta iota delta
    [mbind M_bind bind mret M_ret ret gets modify stop emit printf eprintf com_err
     call exit fatal_error die when];
  simpl.

(** Names the two components of the pair a [let] takes apart. *)
Ltac split_pair :=
  match goal with
  | |- context [let '(_, _) := ?p in _] => destruct p
  end.

Ltac exec_in H :=
  cbv beta iota delta
    [mbind M_bind bind mret M_ret ret gets modify stop emit printf eprintf com_err
     call exit fatal_error die when] in H;
  simpl in H.

(** Splits the goal on the condition of its first [if]. *)
Ltac split_if :=
  match goal with
  | |- context [if ?b then _ else _] => destruct b eqn:?
  end.

Section Run.
Context {X : Externals}.

Lemma bind_run {A B} (m : M A) (k : A → M B) (st : State) :
  (m ≫= k) st =
  match m st with
  | Normal a st' => k a st'
  | Stopped why st' => Stopped why st'
  end.
Proof. reflexivity. Qed.

Lemma bind_normal {A B} (m : M A) (k : A → M B) st a st' :
  m st = Normal a st' → (m ≫= k) st = k a st'.
Proof. intros H. rewrite bind_run, H. reflexivity. Qed.

Lemma bind_stopped {A B} (m : M A) (k : A → M B) st why st' :
  m st = Stopped why st' → (m ≫= k) st = Stopped why st'.
Proof. intros H. rewrite bind_run, H. reflexivity. Qed.

Lemma bind_normal_inv {A B} (m : M A) (k : A → M B) st b st' :
  (m ≫= k) st = Normal b st' →
  ∃ a st1, m st = Normal a st1 ∧ k a st1 = Normal b st'.
Proof.
  rewrite bind_run. destruct (m st) as [a st1|why st1]; [eauto | discriminate].
Qed.

End Run.

(** Taking a computation that returned apart: [H] is replaced by the
    equation of the continuation. *)
Ltac inv_bind H :=
  apply bind_normal_inv in H;
  let a := fresh "a" in
  let st := fresh "st" in
  let Hm := fresh "Hm" in
  destruct H as (a & st & Hm & H);
  cbv beta in H.


(** What a primitive step that returned did. *)
Ltac step_in H := exec_in H; inversion H; subst; clear H.

(** A block that ends in [fatal_error] does not return. *)
Ltac never_returns H := repeat inv_bind H; discriminate H.

(** ** Frames: what a computation leaves alone *)

Create HintDb frame.

Ltac quiet_ok :=
  split; [unfold hint_event, relocate_hint_msg, corrupt_msg | ]; discriminate.

Section Frames.
Context {X : Externals}.

(** A relation between the state before and after a computation, closed
    under the steps listed as hypotheses. Each lemma of the form
    [preserves R m] then says that [m] relates the state it starts in to the
    state it ends in, however it ends. *)
Variable R : State → State → Prop.

Hypothesis R_refl : ∀ st, R st st.
Hypothesis R_trans : ∀ a b c, R a b → R b c → R a c.
Hypothesis R_emit : ∀ e st, quiet e → R st (add_event e st).
Hypothesis R_silent : ∀ st st',
  opts st' = opts st → hint_issued st' = hint_issued st → out st' = out st → R st st'.

Lemma preserves_ret {A} (a : A) : preserves R (mret a).
Proof. intros st. apply R_refl. Qed.

Lemma preserves_bind {A B} (m : M A) (k : A → M B) :
  preserves R m → (∀ a, preserves R (k a)) → preserves R (m ≫= k).
Proof.
  intros Hm Hk st. rewrite bind_run. specialize (Hm st).
  destruct (m st) as [a st1|why st1]; simpl in *; [| exact Hm].
  eapply R_trans; [exact Hm | apply Hk].
Qed.

Lemma preserves_gets {A} (f : State → A) : preserves R (gets f).
Proof. intros st. apply R_refl. Qed.

Lemma preserves_stop {A} (why : Stop) : preserves R (stop (A:=A) why).
Proof. intros st. apply R_refl. Qed.

Lemma preserves_modify (f : State → State) :
  (∀ st, opts (f st) = opts st ∧ hint_issued (f st) = hint_issued st ∧ out (f st) = out st) →
  preserves R (modify f).
Proof. intros H st. destruct (H st) as (? & ? & ?). apply R_silent; assumption. Qed.

Lemma preserves_emit (e : Event) : quiet e → preserves R (emit e).
Proof. intros H st. apply R_emit, H. Qed.

Lemma preserves_when (b : bool) (m : M unit) : preserves R m → preserves R (when b m).
Proof. intros H. destruct b; [exact H | apply preserves_ret]. Qed.

Lemma preserves_external fn p :
  fn ≠ "check_if_skip" → preserves R (run_external fn p).
Proof.
  intros Hfn. unfold run_external. apply preserves_bind.
  - apply preserves_emit. split; [discriminate | congruence].
  - intros _. apply preserves_modify. intros st. simpl. auto.
Qed.

Ltac frame_leaf :=
  first
    [ apply preserves_ret
    | apply preserves_gets
    | apply preserves_stop
    | apply preserves_emit; quiet_ok
    | apply preserves_modify; intros; simpl; solve [auto]
    | apply preserves_external; discriminate
    | solve [auto with frame] ].

Ltac frame :=
  unfold printf, eprintf, com_err, call, exit, fatal_error, die;
  repeat
    (cbv beta;
     match goal with
     | |- preserves R (_ ≫= _) => apply preserves_bind; [| intros ?]
     | |- preserves R (when _ _) => apply preserves_when
     | |- preserves R (if ?b then _ else _) => destruct b
     | |- preserves R (match ?x with _ => _ end) => destruct x
     | |- preserves R _ => frame_leaf
     end).

Lemma preserves_ask descr def : preserves R (ask descr def).
Proof. unfold ask. frame. Qed.

Lemma preserves_preenhalt : preserves R preenhalt.
Proof. unfold preenhalt. frame. Qed.

Lemma preserves_check_super_value descr value flags min max :
  preserves R (check_super_value descr value flags min max).
Proof. unfold check_super_value. frame. Qed.

Lemma preserves_store_group i f : preserves R (store_group i f).
Proof. unfold store_group. frame. Qed.

Lemma preserves_incr_invalid_bitmaps : preserves R incr_invalid_bitmaps.
Proof. unfold incr_invalid_bitmaps. frame. Qed.

#[local] Hint Resolve preserves_ask preserves_preenhalt
  preserves_check_super_value preserves_store_group preserves_incr_invalid_bitmaps : frame.

(** The relocation hint is a step of its own: it writes [hint_issued] and
    prints the hint. *)
Hypothesis R_hint : preserves R relocate_hint.
#[local] Hint Resolve R_hint : frame.

Lemma preserves_check_field f i first_block last_block :
  preserves R (check_field f i first_block last_block).
Proof.
  destruct f; simpl;
    [unfold check_block_bitmap | unfold check_inode_bitmap | unfold check_inode_table];
    frame.
Qed.

Lemma preserves_group_loop n : ∀ i first_block last_block,
  preserves R (group_loop n i first_block last_block).
Proof.
  induction n as [|n IH]; intros i first_block last_block;
    unfold group_loop; fold group_loop.
  - frame.
  - pose proof (preserves_check_field BlockBitmap) as Hb.
    pose proof (preserves_check_field InodeBitmap) as Hi.
    pose proof (preserves_check_field InodeTable) as Ht.
    simpl in Hb, Hi, Ht. frame; auto.
Qed.

Lemma preserves_check_super_block : preserves R check_super_block.
Proof.
  pose proof preserves_group_loop as Hloop.
  unfold check_super_block. frame; auto.
Qed.

Lemma preserves_check_if_skip : preserves R check_if_skip.
Proof. unfold check_if_skip. frame. Qed.

Lemma preserves_sync_disks : preserves R sync_disks.
Proof. unfold sync_disks. frame. Qed.

Lemma preserves_show_stats : preserves R show_stats.
Proof. unfold show_stats. frame. Qed.

Lemma preserves_mark_super_dirty : preserves R ext2fs_mark_super_dirty.
Proof. unfold ext2fs_mark_super_dirty. frame. Qed.

Lemma preserves_mark_valid : preserves R ext2fs_mark_valid.
Proof. unfold ext2fs_mark_valid. frame. Qed.

Lemma preserves_open_once sb bs : preserves R (open_once sb bs).
Proof. unfold open_once. frame. Qed.

#[local] Hint Resolve preserves_check_super_block preserves_check_if_skip preserves_sync_disks
  preserves_show_stats preserves_mark_super_dirty preserves_mark_valid
  preserves_open_once : frame.

Lemma preserves_open_block_sizes sb sizes : ∀ retval,
  preserves R (open_block_sizes sb sizes retval).
Proof.
  induction sizes as [|size rest IH]; intros retval;
    unfold open_block_sizes; fold open_block_sizes; frame.
Qed.

#[local] Hint Resolve preserves_open_block_sizes : frame.

Lemma preserves_open_filesystem : preserves R open_filesystem.
Proof. unfold open_filesystem. frame. Qed.

Lemma preserves_finalize : preserves R finalize.
Proof. unfold finalize, ext2fs_test_changed, ext2fs_test_valid. frame. Qed.

Lemma preserves_free_counters : preserves R free_counters.
Proof. unfold free_counters. frame. Qed.

#[local] Hint Resolve preserves_open_filesystem preserves_finalize preserves_free_counters : frame.

(** The mark [main] leaves before it calls [check_if_skip]. *)
Hypothesis R_skip : ∀ st, R st (add_event (Call "check_if_skip") st).

Lemma preserves_after_validation : preserves R after_validation.
Proof.
  unfold after_validation. apply preserves_bind; [exact R_skip | intros _]. frame.
Qed.

#[local] Hint Resolve preserves_after_validation : frame.

Lemma preserves_up_to_pass1 : preserves R up_to_pass1.
Proof.
  unfold up_to_pass1.
  apply preserves_bind; [frame | intros _].
  apply preserves_bind; [frame | intros _].
  apply preserves_bind; [exact R_skip | intros _]. frame.
Qed.

Lemma preserves_check_and_repair : preserves R check_and_repair.
Proof. unfold check_and_repair. frame. Qed.

#[local] Hint Resolve preserves_check_and_repair : frame.

Lemma preserves_round : preserves R round.
Proof. unfold round. frame. Qed.

Lemma preserves_rounds n : ∀ st, R st (final_state (rounds n st)).
Proof.
  induction n as [|n IH]; intros st; unfold rounds; fold rounds; [apply R_refl |].
  pose proof (preserves_round st) as Hr.
  destruct (round st) as [[|v] st1|why st1]; simpl in *; [| exact Hr | exact Hr].
  eapply R_trans; [exact Hr | apply IH].
Qed.

Lemma preserves_check_mount : preserves R check_mount.
Proof. unfold check_mount. frame. Qed.

Lemma preserves_need_terminal : preserves R need_terminal.
Proof. unfold need_terminal. frame. Qed.

#[local] Hint Resolve preserves_check_mount preserves_need_terminal : frame.

Lemma preserves_banner_and_mount : preserves R banner_and_mount.
Proof. unfold banner_and_mount. frame. Qed.

(** [PRS] is the one function that writes the options. *)
Hypothesis R_opts : ∀ f st, R st (set_opts (f (opts st)) st).

Lemma preserves_update_opts f : preserves R (update_opts f).
Proof. intros st. apply R_opts. Qed.

Lemma preserves_usage {A} : preserves R (usage (A:=A)).
Proof. unfold usage. frame. Qed.

#[local] Hint Resolve preserves_update_opts preserves_usage : frame.

Lemma preserves_PRS_case c optarg flush : preserves R (PRS_case c optarg flush).
Proof. unfold PRS_case. frame. Qed.

#[local] Hint Resolve preserves_PRS_case : frame.

Lemma preserves_PRS_loop l : ∀ flush, preserves R (PRS_loop l flush).
Proof.
  induction l as [|[c optarg] rest IH]; intros flush;
    unfold PRS_loop; fold PRS_loop; frame.
Qed.

#[local] Hint Resolve preserves_PRS_loop : frame.

Lemma preserves_PRS cmd : preserves R (PRS cmd).
Proof. unfold PRS. frame. Qed.

#[local] Hint Resolve preserves_PRS : frame.

Lemma preserves_startup cmd : preserves R (startup cmd).
Proof. pose proof preserves_banner_and_mount. unfold startup. frame. Qed.

#[local] Hint Resolve preserves_startup : frame.

Lemma preserves_prologue cmd : preserves R (prologue cmd).
Proof. unfold prologue. frame. Qed.

Lemma preserves_main n cmd pis w :
  R (initial_state pis w) (final_state (main n cmd pis w)).
Proof.
  unfold main. pose proof (preserves_prologue cmd (initial_state pis w)) as Hp.
  destruct (prologue cmd (initial_state pis w)) as [[] st|why st]; simpl in *; [| exact Hp].
  eapply R_trans; [exact Hp | apply preserves_rounds].
Qed.

End Frames.

(** ** The relocation hint *)

Section Hint.
Context {X : Externals}.

Lemma hint_count_app l1 l2 : hint_count (l1 ++ l2) = (hint_count l1 + hint_count l2)%nat.
Proof. unfold hint_count. rewrite filter_app, length_app. reflexivity. Qed.

Lemma hint_count_other e : e ≠ hint_event → hint_count [e] = 0%nat.
Proof.
  intros He. unfold hint_count. rewrite filter_cons_False by exact He. reflexivity.
Qed.

Lemma hint_count_hint : hint_count [hint_event] = 1%nat.
Proof. unfold hint_count. rewrite filter_cons_True by reflexivity. reflexivity. Qed.

Lemma hint_inv_emit e st : e ≠ hint_event → hint_inv st → hint_inv (add_event e st).
Proof.
  intros He [H1 H2]. unfold hint_inv. simpl.
  rewrite hint_count_app, hint_count_other by exact He.
  split; [lia | intros H0; rewrite H2 by exact H0; reflexivity].
Qed.

Lemma hint_inv_relocate_hint st : hint_inv st → hint_inv (state_of (relocate_hint st)).
Proof.
  intros [H1 H2]. unfold relocate_hint. rewrite bind_run. simpl.
  unfold truthy. destruct (hint_issued st =? 0) eqn:E; simpl.
  - apply Z.eqb_eq in E. unfold hint_inv. simpl.
    fold hint_event. rewrite hint_count_app, hint_count_hint, (H2 E).
    split; [lia | discriminate].
  - split; assumption.
Qed.

Lemma hint_inv_main n cmd pis w : hint_inv (final_state (main n cmd pis w)).
Proof.
  apply (preserves_main (λ st st', hint_inv st → hint_inv st')).
  - auto.
  - auto.
  - intros e st [He _]. apply hint_inv_emit, He.
  - intros st st' _ Hh Ho. unfold hint_inv. rewrite Hh, Ho. auto.
  - intros st. apply hint_inv_relocate_hint.
  - intros st. apply hint_inv_emit. discriminate.
  - intros f st. unfold hint_inv. simpl. auto.
  - unfold hint_inv, hint_count. simpl. split; [lia | reflexivity].
Qed.

(** C9. The general relocation hint occurs at most once in the trace of
    [main], whatever the number of pointers out of range, of groups and of
    restarts: [hint_issued] is static and nothing resets it. The bound holds
    at every point a run can have reached, also when it is still restarting
    after [n] rounds. *)
Theorem C9_hint_at_most_once (n : nat) (cmd : Cmdline) (pis : Z) (w : World) :
  (hint_count (out (final_state (main n cmd pis w))) ≤ 1)%nat.
Proof. apply hint_inv_main. Qed.

End Hint.

(** ** The scalar checks of the superblock *)

Section Scalars.
Context {X : Externals}.

Lemma ULONG_BITS_cases : ULONG_BITS = 32 ∨ ULONG_BITS = 64.
Proof. unfold ULONG_BITS. destruct LP64; auto. Qed.

(** An unsigned 32-bit value is converted to itself. *)
Lemma to_unsigned_long_small z : 0 ≤ z < 2 ^ 32 → to_unsigned_long z = z.
Proof.
  intros H. unfold to_unsigned_long. apply Z.mod_small.
  destruct ULONG_BITS_cases as [-> | ->]; lia.
Qed.

(** A negative [int] is converted to a value of at least 2^31. *)
Lemma to_unsigned_long_negative z : - 2 ^ 31 ≤ z < 0 → 2 ^ 31 ≤ to_unsigned_long z.
Proof.
  intros H. unfold to_unsigned_long.
  destruct ULONG_BITS_cases as [-> | ->].
  - replace (z mod 2 ^ 32) with (z + 2 ^ 32); [lia |].
    apply (Z.mod_unique _ _ (-1)); lia.
  - replace (z mod 2 ^ 64) with (z + 2 ^ 64); [lia |].
    apply (Z.mod_unique _ _ (-1)); lia.
Qed.

Lemma check_super_value_run descr value flags min max st :
  check_super_value descr value flags min max st =
  if out_of_bounds value flags min max then
    Stopped (FatalError None)
      (add_event (Printf corrupt_msg [])
         (add_event (Printf "Corruption found in superblock.  (%s = %lu).\n"
                       [ArgS descr; ArgZ (to_unsigned_long value)]) st))
  else Normal tt st.
Proof.
  unfold check_super_value, out_of_bounds.
  destruct (_ || _); reflexivity.
Qed.

Lemma min_check_bounds value min max :
  out_of_bounds value MIN_CHECK min max = (to_unsigned_long value <? to_unsigned_long min).
Proof. unfold out_of_bounds. simpl. apply orb_false_r. Qed.

Lemma max_check_bounds value min max :
  out_of_bounds value MAX_CHECK min max = (to_unsigned_long value >? to_unsigned_long max).
Proof. reflexivity. Qed.

Lemma both_check_bounds value min max :
  out_of_bounds value (Z.lor MIN_CHECK MAX_CHECK) min max
  = (to_unsigned_long value <? to_unsigned_long min)
    || (to_unsigned_long value >? to_unsigned_long max).
Proof. reflexivity. Qed.

(** One scalar check in front of the rest of [check_super_block]: either it
    reports, or the rest runs in the same state. *)
Lemma scalar_check_step {A} descr value flags min max (k : M A) st :
  (check_super_value descr value flags min max ≫= λ _, k) st =
  if out_of_bounds value flags min max then
    Stopped (FatalError None)
      (add_event (Printf corrupt_msg [])
         (add_event (Printf "Corruption found in superblock.  (%s = %lu).\n"
                       [ArgS descr; ArgZ (to_unsigned_long value)]) st))
  else k st.
Proof.
  rewrite bind_run, check_super_value_run.
  destruct (out_of_bounds value flags min max); reflexivity.
Qed.

(** C4. A superblock that breaks one of the scalar invariants of the
    specification makes [check_super_block] stop with [fatal_error(0)]: the
    trace gains the line naming a violated field with its value and the hint
    about the backup superblock, and nothing else; handle, counters, run
    state and world are as before, so no repair was offered and the group
    loop was not reached. The reported field is the first one, in the order
    of the source, that is out of bounds; its value is printed as the
    [unsigned long] the check receives, so a negative [s_log_frag_size] shows
    as a large number. The fields are taken to hold values of their C
    types. *)
Theorem C4_scalar_corruption_is_fatal (st : State) :
  typed_super (super (fs st)) →
  ¬ scalar_invariants (super (fs st)) →
  ∃ descr value,
    violated (super (fs st)) descr value
    ∧ check_super_block st = Stopped (FatalError None) (corruption_report descr value st).
Proof.
  intros Htyped Hbad. unfold check_super_block, corruption_report.
  rewrite bind_run. simpl.
  set (s := super (fs st)) in *.
  destruct Htyped as (Ti & Tb & Tr & Tf & Tlb & Tlf & Tbpg & Tfpg & Tipg & Tsize).
  assert (S0 : to_unsigned_long 0 = 0) by (apply to_unsigned_long_small; lia).
  assert (S1 : to_unsigned_long 1 = 1) by (apply to_unsigned_long_small; lia).
  assert (S2 : to_unsigned_long 2 = 2) by (apply to_unsigned_long_small; lia).
  rewrite scalar_check_step, min_check_bounds, S1, (to_unsigned_long_small (s_inodes_count s)) by lia.
  destruct (Z.ltb_spec (s_inodes_count s) 1) as [H1|H1];
    [exists "inodes_count", (s_inodes_count s); split; [constructor; lia | reflexivity] |].
  rewrite scalar_check_step, min_check_bounds, S1, (to_unsigned_long_small (s_blocks_count s)) by lia.
  destruct (Z.ltb_spec (s_blocks_count s) 1) as [H2|H2];
    [exists "blocks_count", (s_blocks_count s); split; [constructor; lia | reflexivity] |].
  rewrite scalar_check_step, max_check_bounds,
    (to_unsigned_long_small (s_first_data_block s)), (to_unsigned_long_small (s_blocks_count s))
    by lia.
  destruct (Z.gtb_spec (s_first_data_block s) (s_blocks_count s)) as [H3|H3];
    [exists "first_data_block", (s_first_data_block s); split; [constructor; lia | reflexivity] |].
  rewrite scalar_check_step, max_check_bounds, S2.
  destruct (Z.gtb_spec (to_unsigned_long (s_log_frag_size s)) 2) as [H4|H4].
  { exists "log_frag_size", (to_unsigned_long (s_log_frag_size s)).
    split; [| reflexivity]. constructor.
    destruct (Z.lt_ge_cases (s_log_frag_size s) 0) as [Hneg|Hpos]; [left; exact Hneg |].
    right. rewrite to_unsigned_long_small in H4 by lia. lia. }
  assert (H4' : 0 ≤ s_log_frag_size s ≤ 2).
  { destruct (Z.lt_ge_cases (s_log_frag_size s) 0) as [Hneg|Hpos].
    - pose proof (to_unsigned_long_negative (s_log_frag_size s)). lia.
    - rewrite to_unsigned_long_small in H4 by lia. lia. }
  rewrite scalar_check_step, both_check_bounds, S2,
    (to_unsigned_long_small (s_log_block_size s)), (to_unsigned_long_small (s_log_frag_size s))
    by lia.
  destruct (Z.ltb_spec (s_log_block_size s) (s_log_frag_size s)) as [H5|H5];
    [exists "log_block_size", (s_log_block_size s); split; [constructor; lia | reflexivity] |].
  destruct (Z.gtb_spec (s_log_block_size s) 2) as [H6|H6];
    [exists "log_block_size", (s_log_block_size s); split; [constructor; lia | reflexivity] |].
  cbn [orb]. specialize (Tsize ltac:(lia)).
  rewrite scalar_check_step, both_check_bounds, S1,
    (to_unsigned_long_small (s_frags_per_group s)),
    (to_unsigned_long_small (8 * EXT2_BLOCK_SIZE s)) by lia.
  destruct (Z.ltb_spec (s_frags_per_group s) 1) as [H7|H7];
    [exists "frags_per_group", (s_frags_per_group s); split; [constructor; lia | reflexivity] |].
  destruct (Z.gtb_spec (s_frags_per_group s) (8 * EXT2_BLOCK_SIZE s)) as [H8|H8];
    [exists "frags_per_group", (s_frags_per_group s); split; [constructor; lia | reflexivity] |].
  cbn [orb].
  rewrite scalar_check_step, both_check_bounds, S1,
    (to_unsigned_long_small (s_blocks_per_group s)),
    (to_unsigned_long_small (8 * EXT2_BLOCK_SIZE s)) by lia.
  destruct (Z.ltb_spec (s_blocks_per_group s) 1) as [H9|H9];
    [exists "blocks_per_group", (s_blocks_per_group s); split; [constructor; lia | reflexivity] |].
  destruct (Z.gtb_spec (s_blocks_per_group s) (8 * EXT2_BLOCK_SIZE s)) as [H10|H10];
    [exists "blocks_per_group", (s_blocks_per_group s); split; [constructor; lia | reflexivity] |].
  cbn [orb].
  rewrite scalar_check_step, min_check_bounds, S1,
    (to_unsigned_long_small (s_inodes_per_group s)) by lia.
  destruct (Z.ltb_spec (s_inodes_per_group s) 1) as [H11|H11];
    [exists "inodes_per_group", (s_inodes_per_group s); split; [constructor; lia | reflexivity] |].
  rewrite scalar_check_step, max_check_bounds,
    (to_unsigned_long_small (s_r_blocks_count s)), (to_unsigned_long_small (s_blocks_count s))
    by lia.
  destruct (Z.gtb_spec (s_r_blocks_count s) (s_blocks_count s)) as [H12|H12];
    [exists "r_blocks_count", (s_r_blocks_count s); split; [constructor; lia | reflexivity] |].
  exfalso. apply Hbad. unfold scalar_invariants. fold s. lia.
Qed.

End Scalars.

(** ** The skip heuristic *)

Section Skip.
Context {X : Externals}.

Lemma truthy_false z : truthy z = false ↔ z = 0.
Proof. unfold truthy. rewrite negb_false_iff. apply Z.eqb_eq. Qed.

Lemma truthy_true z : truthy z = true ↔ z ≠ 0.
Proof. unfold truthy. rewrite negb_true_iff. apply Z.eqb_neq. Qed.

Lemma to_unsigned_small z : 0 ≤ z < 2 ^ 32 → to_unsigned z = z.
Proof. intros H. unfold to_unsigned. apply Z.mod_small, H. Qed.


End Skip.

(** ** The end of main *)

Section Finalize.
Context {X : Externals}.

Lemma show_stats_frame st :
  let st' := state_of (show_stats st) in
  fs st' = fs st ∧ opts st' = opts st ∧ run st' = run st ∧ reloc st' = reloc st
  ∧ world st' = world st.
Proof.
  unfold show_stats. exec. repeat (split_if; simpl); auto.
Qed.

Lemma show_stats_returns st :
  stats_printable st → ∃ st', show_stats st = Normal tt st'.
Proof.
  intros [Hused Hverbose]. unfold show_stats. exec.
  apply Z.eqb_neq in Hused. rewrite Hused.
  destruct (truthy (verbose (opts st))) eqn:Ev; simpl.
  - apply truthy_true in Ev. destruct (Hverbose Ev) as [Hi Hb].
    apply Z.eqb_neq in Hi, Hb. rewrite Hi, Hb. simpl. eauto.
  - eauto.
Qed.

Lemma set_fs_after_mark f g e st :
  set_fs f (add_event e (set_fs g st)) = add_event e (set_fs f st).
Proof. reflexivity. Qed.

Lemma finalize_run st :
  finalize st =
  match show_stats (before_stats st) with
  | Normal _ st1 =>
      let st2 := add_event (Call "write_bitmaps") st1 in
      let st3 := set_world (write_bitmaps (fs st2) (world st2)) st2 in
      let st4 := add_event (Call "ext2fs_close") st3 in
      let st5 := set_world (ext2fs_close (fs st4) (world st4)) st4 in
      let st6 := add_event (Call "sync")
                   (add_event (Call "sleep")
                      (add_event (Call "sync") (add_event (Call "sync") st5))) in
      Normal (exit_classification (run st))
        (if truthy (tflag (opts st)) then add_event (Call "print_resource_track") st6
         else st6)
  | Stopped why st1 => Stopped why st1
  end.
Proof.
  unfold finalize, before_stats, written_back, exit_classification,
    ext2fs_test_changed, ext2fs_test_valid, ext2fs_mark_super_dirty, sync_disks,
    root_filesystem, read_only_root.
  exec.
  repeat (split_if; simpl);
    rewrite ?set_fs_after_mark;
    repeat match goal with
           | |- context [show_stats ?s] => destruct (show_stats s) as [[] ?|? ?]; simpl
           end;
    reflexivity.
Qed.

Lemma stats_printable_before_stats st :
  stats_printable st → stats_printable (before_stats st).
Proof.
  unfold stats_printable, before_stats, written_back.
  destruct (modified (run st) && negb (truthy (preen (opts st)))),
    (truthy (rwflag (opts st))); simpl; auto.
Qed.

(** C2. Whenever the statistics can be printed, the end of [main] returns
    0 for an unmodified valid filesystem, 1 for a modified valid one and 4
    for an invalid one, modified or not. It never returns 2: the branch that
    would is guarded by the static [root_filesystem], which is initialised to
    0 and assigned nowhere in the file, so a modified, valid root filesystem
    mounted read-write ends with 1 as well. *)
Theorem C2_exit_value_of_finalize (st : State) :
  stats_printable st →
  ∃ st', finalize st = Normal (exit_classification (run st)) st'
         ∧ exit_classification (run st) ≠ FSCK_REBOOT
         ∧ exit_classification (run st) =
           match modified (run st), valid (run st) with
           | false, true => 0
           | true, true => 1
           | _, false => 4
           end.
Proof.
  intros Hp. apply stats_printable_before_stats in Hp.
  destruct (show_stats_returns _ Hp) as [st1 E].
  rewrite finalize_run, E. eexists. split; [reflexivity |].
  unfold exit_classification. destruct (modified (run st)), (valid (run st)); simpl;
    split; (discriminate || reflexivity).
Qed.

End Finalize.

(** ** The body of main, taken apart *)

Section Body.
Context {X : Externals}.

Lemma call_run fn st : call fn st = Normal tt (add_event (Call fn) st).
Proof. reflexivity. Qed.

Lemma run_external_run fn p st : run_external fn p st = Normal tt (passed fn p st).
Proof. reflexivity. Qed.

Lemma mark_valid_run st :
  ext2fs_mark_valid st = Normal tt (set_run (mk_run (modified (run st)) true) st).
Proof. reflexivity. Qed.

Lemma free_counters_run st :
  free_counters st
  = Normal tt
      (set_reloc
         (set_invalid_inode_table []
            (set_invalid_block_bitmap [] (set_invalid_inode_bitmap [] (reloc st)))) st).
Proof. reflexivity. Qed.

(** What follows the call of pass 1. *)
Lemma from_pass1_run st_p :
  (modify (λ st, put_shared (pass1 (shared_of st)) st);;
   free_counters;;
   restart ← gets (λ st, restart_e2fsck (reloc st));
   if truthy restart then
     call "ext2fs_close";;
     modify (λ st, set_world (ext2fs_close (fs st) (world st)) st);;
     printf "Restarting e2fsck from the beginning...\n" [];;
     modify (λ st, set_reloc (set_restart_e2fsck 0 (reloc st)) st);;
     mret GotoRestart
   else
     run_external "pass2" pass2;;
     run_external "pass3" pass3;;
     run_external "pass4" pass4;;
     run_external "pass5" pass5;;
     exit_value ← finalize;
     mret (Finish exit_value)) st_p
  = if truthy (restart_e2fsck (reloc (after_pass1 st_p))) then
      Normal GotoRestart (restarting (after_pass1 st_p))
    else
      match finalize (passes_done (after_pass1 st_p)) with
      | Normal v st' => Normal (Finish v) st'
      | Stopped why st' => Stopped why st'
      end.
Proof.
  rewrite bind_run. cbn [modify].
  rewrite bind_run, free_counters_run.
  fold (after_pass1 st_p). generalize (after_pass1 st_p). intros st_q.
  rewrite bind_run. cbn [gets].
  destruct (truthy (restart_e2fsck (reloc st_q))).
  - reflexivity.
  - do 4 (rewrite bind_run, run_external_run; cbv beta iota).
    fold (passes_done st_q). rewrite bind_run.
    destruct (finalize (passes_done st_q)); reflexivity.
Qed.

(** [check_and_repair] is what leads to pass 1, pass 1, and then either the
    restart or the other passes and [finalize]. *)
Lemma check_and_repair_run st :
  check_and_repair st =
  match up_to_pass1 st with
  | Stopped why st1 => Stopped why st1
  | Normal _ st_p =>
      if truthy (restart_e2fsck (reloc (after_pass1 st_p))) then
        Normal GotoRestart (restarting (after_pass1 st_p))
      else
        match finalize (passes_done (after_pass1 st_p)) with
        | Normal v st' => Normal (Finish v) st'
        | Stopped why st' => Stopped why st'
        end
  end.
Proof.
  unfold check_and_repair, up_to_pass1.
  repeat (progress (rewrite ?bind_run, ?call_run; cbv beta iota)).
  destruct (check_super_block _) as [[] st1|why st1]; [| reflexivity].
  unfold after_validation.
  repeat (progress (rewrite ?bind_run, ?call_run; cbv beta iota)).
  destruct (check_if_skip _) as [[] st2|why st2]; [| reflexivity].
  repeat (progress (rewrite ?bind_run; cbn [gets]; cbv beta iota)).
  assert (Hbb : ∃ st3,
            (match bad_blocks_file (opts st2) with
             | Some file =>
                 run_external "read_bad_blocks_file"
                   (read_bad_blocks_file file (replace_bad_blocks (opts st2)))
             | None => when (truthy (cflag (opts st2))) (run_external "test_disk" test_disk)
             end) st2 = Normal tt st3).
  { destruct (bad_blocks_file (opts st2)); [eexists; reflexivity |].
    destruct (truthy (cflag (opts st2))); eexists; reflexivity. }
  destruct Hbb as (st3 & ->).
  repeat (progress (rewrite ?bind_run, ?mark_valid_run, ?call_run; cbv beta iota)).
  rewrite run_external_run. cbv beta iota.
  exact (from_pass1_run
           (add_event (Call "pass1") (set_run (mk_run (modified (run st3)) true) st3))).
Qed.

End Body.

(** ** Read-write mode *)

Section ReadWrite.
Context {X : Externals}.

Lemma PRS_case_rwflag c optarg flush st :
  rwflag (opts (state_of (PRS_case c optarg flush st))) = rwflag (opts st).
Proof.
  unfold PRS_case, usage, update_opts. exec. repeat (split_if; simpl); reflexivity.
Qed.

Lemma PRS_loop_rwflag l : ∀ flush st,
  rwflag (opts (state_of (PRS_loop l flush st))) = rwflag (opts st).
Proof.
  induction l as [|[c optarg] rest IH]; intros flush st;
    unfold PRS_loop; fold PRS_loop; [reflexivity |].
  rewrite bind_run. pose proof (PRS_case_rwflag c optarg flush st) as Hc.
  destruct (PRS_case c optarg flush st) as [flush' st1|why st1]; simpl in *.
  - rewrite IH. exact Hc.
  - exact Hc.
Qed.

Lemma PRS_rwflag cmd st :
  rwflag (opts st) = 1 → rw_unless_plain_n (opts (state_of (PRS cmd st))).
Proof.
  intros Hrw. unfold PRS. rewrite bind_run.
  set (st0 := st).
  assert (H1 : ∃ st1, (match argv0 cmd with
                       | Some name => update_opts (set_program_name name)
                       | None => mret tt
                       end) st0 = Normal tt st1 ∧ rwflag (opts st1) = 1).
  { destruct (argv0 cmd); eexists; (split; [reflexivity | exact Hrw]). }
  destruct H1 as (st1 & -> & Hrw1). rewrite bind_run.
  pose proof (PRS_loop_rwflag (options cmd) 0 st1) as Hloop. rewrite Hrw1 in Hloop.
  destruct (PRS_loop (options cmd) 0 st1) as [flush st2|why st2]; simpl in Hloop;
    [| left; exact Hloop].
  unfold usage, update_opts. exec.
  destruct (truthy (show_version_only (opts st2))); [left; exact Hloop |].
  destruct (operands cmd) as [|device [|]]; simpl; [left; exact Hloop | | left; exact Hloop].
  destruct (truthy (nflag (opts st2)) && negb (non_null (bad_blocks_file (opts st2)))
            && negb (truthy (cflag (opts st2)))) eqn:Eplain; simpl.
  - assert (Hright : nflag (opts st2) ≠ 0 ∧ bad_blocks_file (opts st2) = None
                     ∧ cflag (opts st2) = 0).
    { apply andb_true_iff in Eplain as [Eplain Hc].
      apply andb_true_iff in Eplain as [Hn Hb].
      apply truthy_true in Hn. apply negb_true_iff in Hb, Hc. apply truthy_false in Hc.
      destruct (bad_blocks_file (opts st2)); [discriminate | auto]. }
    repeat (first [split_if | split_pair]; simpl); right; exact Hright.
  - repeat (first [split_if | split_pair]; simpl); left; exact Hloop.
Qed.

Lemma same_opts_refl st : same_opts st st.
Proof. reflexivity. Qed.

Lemma same_opts_trans a b c : same_opts a b → same_opts b c → same_opts a c.
Proof. unfold same_opts. congruence. Qed.

Lemma same_opts_emit e st : quiet e → same_opts st (add_event e st).
Proof. reflexivity. Qed.

Lemma same_opts_silent st st' :
  opts st' = opts st → hint_issued st' = hint_issued st → out st' = out st →
  same_opts st st'.
Proof. auto. Qed.

Lemma same_opts_hint : preserves same_opts relocate_hint.
Proof. intros st. unfold relocate_hint. exec. split_if; reflexivity. Qed.

Lemma same_opts_skip st : same_opts st (add_event (Call "check_if_skip") st).
Proof. reflexivity. Qed.

Ltac by_same_opts :=
  first
    [ exact same_opts_refl | exact same_opts_trans | exact same_opts_emit
    | exact same_opts_silent | exact same_opts_hint | exact same_opts_skip ].

Lemma rounds_same_opts n st : opts (final_state (rounds n st)) = opts st.
Proof. apply (preserves_rounds same_opts); by_same_opts. Qed.

Lemma finalize_same_opts st : opts (state_of (finalize st)) = opts st.
Proof. apply (preserves_finalize same_opts); by_same_opts. Qed.

(** The options at any point [main] can have reached are those [PRS] left. *)
Lemma main_opts n cmd pis w :
  opts (final_state (main n cmd pis w)) =
  opts (state_of (PRS cmd (add_event (Call "PRS")
                             (add_event (Call "init_resource_track") (initial_state pis w))))).
Proof.
  unfold main, prologue, startup. exec.
  destruct (PRS cmd _) as [[] st1|why st1]; simpl; [| reflexivity].
  assert (Hb : same_opts st1 (state_of (banner_and_mount st1)))
    by (apply (preserves_banner_and_mount same_opts); by_same_opts).
  destruct (banner_and_mount st1) as [[] st2|why st2]; simpl in *; [| exact Hb].
  assert (Ht : same_opts st2 (state_of (need_terminal st2)))
    by (apply (preserves_need_terminal same_opts); by_same_opts).
  destruct (need_terminal st2) as [[] st3|why st3]; simpl in *.
  - rewrite rounds_same_opts. unfold same_opts in *. congruence.
  - unfold same_opts in *. congruence.
Qed.

(** A run that returns does so out of [finalize]. *)
Lemma round_finish st v st' :
  round st = Normal (Finish v) st' → ∃ st_f, finalize st_f = Normal v st'.
Proof.
  intros H. unfold round, check_and_repair, after_validation in H.
  repeat inv_bind H.
  match type of H with (if ?b then _ else _) _ = _ => destruct b end.
  - repeat inv_bind H. discriminate H.
  - repeat inv_bind H. injection H as -> ->. eauto.
Qed.

Lemma rounds_returned n : ∀ st v st',
  rounds n st = Returned v st' → ∃ st_f, finalize st_f = Normal v st'.
Proof.
  induction n as [|n IH]; intros st v st' H; unfold rounds in H; fold rounds in H;
    [discriminate |].
  destruct (round st) as [[|v1] st1|why st1] eqn:E.
  - eapply IH, H.
  - injection H as -> ->. eapply round_finish, E.
  - discriminate.
Qed.

Lemma main_returned n cmd pis w v st' :
  main n cmd pis w = Returned v st' → ∃ st_f, finalize st_f = Normal v st'.
Proof.
  unfold main. destruct (prologue cmd (initial_state pis w)) as [[] st|why st];
    [apply rounds_returned | discriminate].
Qed.

(** What [finalize] leaves in the handle when [rwflag] is set. *)
Lemma finalize_writes_back st v st' :
  finalize st = Normal v st' → rwflag (opts st) ≠ 0 → fs st' = written_back st.
Proof.
  intros H Hrw. rewrite finalize_run in H.
  pose proof (show_stats_frame (before_stats st)) as (Hfs & _).
  destruct (show_stats (before_stats st)) as [[] st1|why st1]; [| discriminate].
  simpl in Hfs. injection H as _ <-.
  assert (Hst1 : fs st1 = written_back st).
  { rewrite Hfs. unfold before_stats. apply truthy_true in Hrw. rewrite Hrw. reflexivity. }
  destruct (truthy (tflag (opts st))); simpl; exact Hst1.
Qed.

(** The handle [finalize] leaves when [rwflag] is set, whether the
    statistics can then be printed or not. *)
Lemma finalize_handle st :
  rwflag (opts st) ≠ 0 → fs (state_of (finalize st)) = written_back st.
Proof.
  intros Hrw. rewrite finalize_run.
  pose proof (show_stats_frame (before_stats st)) as (Hfs & _).
  assert (Hst1 : fs (before_stats st) = written_back st).
  { unfold before_stats. apply truthy_true in Hrw. rewrite Hrw. reflexivity. }
  destruct (show_stats (before_stats st)) as [[] st1|why st1]; simpl in *.
  - destruct (truthy (tflag (opts st))); simpl; congruence.
  - congruence.
Qed.

Lemma finalize_returns st :
  stats_printable st → ∃ st', finalize st = Normal (exit_classification (run st)) st'.
Proof.
  intros Hp. apply stats_printable_before_stats in Hp.
  destruct (show_stats_returns _ Hp) as [st1 E].
  rewrite finalize_run, E. eexists. reflexivity.
Qed.

Lemma up_to_pass1_same_opts st : opts (state_of (up_to_pass1 st)) = opts st.
Proof. apply (preserves_up_to_pass1 same_opts); by_same_opts. Qed.

(** C10. When [main] has got anywhere with the read-only flag set together
    with a bad-blocks file (-l, -L) or -c, [rwflag] is still 1: [PRS] clears
    it only for -n alone and nothing else writes it. So the write-back under
    [if (rwflag)] is executed: every round of the run that gets through pass
    1 without a restart ends, after passes 2 to 5, with the handle written
    back, that is with the state bit set from the validity of the run, the
    mount count reset, the time of the check stored and the superblock
    marked dirty, and [main] returns from it whenever the statistics can be
    printed. Whenever the run returns, the handle it leaves is the one so
    written. *)
Theorem C10_read_only_with_bad_blocks_stays_rw (n : nat) (cmd : Cmdline) (pis : Z)
  (w : World) :
  let st' := final_state (main n cmd pis w) in
  nflag (opts st') ≠ 0 →
  bad_blocks_file (opts st') ≠ None ∨ cflag (opts st') ≠ 0 →
  rwflag (opts st') = 1
  ∧ (∀ st st_p,
       opts st = opts st' →
       up_to_pass1 st = Normal tt st_p →
       restart_e2fsck (reloc (after_pass1 st_p)) = 0 →
       let st_f := passes_done (after_pass1 st_p) in
       let st_e := state_of (check_and_repair st) in
       fs st_e = written_back st_f
       ∧ s_mnt_count (super (fs st_e)) = 0
       ∧ s_lastcheck (super (fs st_e)) = wrap32 (time (world st_f))
       ∧ s_state (super (fs st_e)) =
         (if valid (run st_f) then EXT2_VALID_FS
          else Z.land (s_state (super (fs st_f))) (Z.lnot EXT2_VALID_FS))
       ∧ fs_dirty (fs st_e) = true
       ∧ (stats_printable st_f →
          check_and_repair st = Normal (Finish (exit_classification (run st_f))) st_e))
  ∧ ∀ v, main n cmd pis w = Returned v st' →
         ∃ st_f, finalize st_f = Normal v st'
                 ∧ fs st' = written_back st_f
                 ∧ s_mnt_count (super (fs st')) = 0
                 ∧ s_lastcheck (super (fs st')) = wrap32 (time (world st_f))
                 ∧ s_state (super (fs st')) =
                   (if valid (run st_f) then EXT2_VALID_FS
                    else Z.land (s_state (super (fs st_f))) (Z.lnot EXT2_VALID_FS))
                 ∧ fs_dirty (fs st') = true.
Proof.
  intros st' Hn Hbc.
  assert (Hrw : rwflag (opts st') = 1).
  { unfold st' in *. rewrite main_opts in *.
    destruct (PRS_rwflag cmd (add_event (Call "PRS")
                (add_event (Call "init_resource_track") (initial_state pis w))))
      as [H1|(_ & Hb & Hc)]; [reflexivity | exact H1 |].
    destruct Hbc; contradiction. }
  split; [exact Hrw |]. split.
  - intros st st_p Ho Hup Hno st_f st_e.
    assert (Hof : rwflag (opts st_f) ≠ 0).
    { pose proof (up_to_pass1_same_opts st) as Hp. rewrite Hup in Hp. simpl in Hp.
      change (opts st_f) with (opts st_p). rewrite Hp, Ho, Hrw. discriminate. }
    assert (Hrun : check_and_repair st =
                   match finalize st_f with
                   | Normal v s => Normal (Finish v) s
                   | Stopped why s => Stopped why s
                   end).
    { rewrite check_and_repair_run, Hup.
      replace (truthy (restart_e2fsck (reloc (after_pass1 st_p)))) with false
        by (symmetry; apply truthy_false, Hno).
      reflexivity. }
    assert (Hwb : fs st_e = written_back st_f).
    { unfold st_e. rewrite Hrun. rewrite <- (finalize_handle st_f Hof).
      destruct (finalize st_f); reflexivity. }
    split; [exact Hwb |]. rewrite Hwb. unfold written_back. simpl.
    repeat (split; [reflexivity |]).
    intros Hp. destruct (finalize_returns st_f Hp) as (s & Hf).
    unfold st_e. rewrite Hrun, Hf. reflexivity.
  - intros v Hret. destruct (main_returned _ _ _ _ _ _ Hret) as [st_f Hf].
    assert (Hopts : opts st_f = opts st').
    { pose proof (finalize_same_opts st_f) as Ho. rewrite Hf in Ho. simpl in Ho.
      symmetry. exact Ho. }
    assert (Hwb : fs st' = written_back st_f).
    { eapply finalize_writes_back; [exact Hf |]. rewrite Hopts, Hrw. discriminate. }
    exists st_f. split; [exact Hf |]. split; [exact Hwb |].
    rewrite Hwb. unfold written_back. simpl. auto.
Qed.

End ReadWrite.

(** ** The order of validator and skip heuristic *)

Section Order.
Context {X : Externals}.

Lemma extends_refl st : extends st st.
Proof. exists []. symmetry. apply app_nil_r. Qed.

Lemma extends_trans a b c : extends a b → extends b c → extends a c.
Proof.
  intros [l1 H1] [l2 H2]. exists (l1 ++ l2). rewrite H2, H1. symmetry. apply app_assoc.
Qed.

Lemma extends_emit e st : quiet e → extends st (add_event e st).
Proof. intros _. exists [e]. reflexivity. Qed.

Lemma extends_silent st st' :
  opts st' = opts st → hint_issued st' = hint_issued st → out st' = out st →
  extends st st'.
Proof. intros _ _ H. exists []. rewrite H. symmetry. apply app_nil_r. Qed.

Lemma extends_hint : preserves extends relocate_hint.
Proof.
  intros st. unfold relocate_hint. exec. split_if; simpl.
  - apply extends_refl.
  - eexists. reflexivity.
Qed.

Lemma extends_skip st : extends st (add_event (Call "check_if_skip") st).
Proof. eexists. reflexivity. Qed.

Ltac by_extends :=
  first
    [ exact extends_refl | exact extends_trans | exact extends_emit
    | exact extends_silent | exact extends_hint | exact extends_skip ].

Lemma extends_quietly_refl st : extends_quietly st st.
Proof. exists []. split; [symmetry; apply app_nil_r | constructor]. Qed.

Lemma extends_quietly_trans a b c :
  extends_quietly a b → extends_quietly b c → extends_quietly a c.
Proof.
  intros (l1 & H1 & Q1) (l2 & H2 & Q2). exists (l1 ++ l2). split.
  - rewrite H2, H1. symmetry. apply app_assoc.
  - apply Forall_app. split; assumption.
Qed.

Lemma extends_quietly_emit e st : quiet e → extends_quietly st (add_event e st).
Proof.
  intros He. exists [e]. split; [reflexivity |].
  apply Forall_cons. split; [exact He | apply Forall_nil_2].
Qed.

Lemma extends_quietly_silent st st' :
  opts st' = opts st → hint_issued st' = hint_issued st → out st' = out st →
  extends_quietly st st'.
Proof.
  intros _ _ H. exists []. split; [rewrite H; symmetry; apply app_nil_r | constructor].
Qed.

Ltac by_extends_quietly :=
  first
    [ exact extends_quietly_refl | exact extends_quietly_trans
    | exact extends_quietly_emit | exact extends_quietly_silent ].

(** Where two ways of cutting a list meet: if [b] is found past a prefix
    that does not hold it and ends in [a], then [a] comes before [b]. *)
Lemma mark_before (a b : Event) : ∀ l0 l l1 l2,
  l0 ++ a :: l = l1 ++ b :: l2 → b ∉ l0 → a ≠ b → a ∈ l1.
Proof.
  induction l0 as [|x l0 IH]; intros l l1 l2 Heq Hb Hab.
  - destruct l1 as [|y l1]; simpl in Heq.
    + injection Heq as Heq _. contradiction.
    + injection Heq as <- _. apply list_elem_of_here.
  - destruct l1 as [|y l1]; simpl in Heq.
    + injection Heq as -> _. exfalso. apply Hb, list_elem_of_here.
    + injection Heq as _ Heq. apply list_elem_of_further.
      eapply IH; [exact Heq | | exact Hab].
      intros Hin. apply Hb, list_elem_of_further, Hin.
Qed.

Lemma quiet_no_skip l : Forall quiet l → Call "check_if_skip" ∉ l.
Proof.
  intros Hq Hin. rewrite Forall_forall in Hq. destruct (Hq _ Hin) as [_ Hne].
  apply Hne. reflexivity.
Qed.

(** C7, as the code has it. In every pass over the body of [main], the
    validator is called before the skip heuristic: whenever the mark of
    [check_if_skip] is in what the round adds to the trace, the mark of
    [check_super_block] comes before it. A validator that stops the process
    ends the round there, so the heuristic is consulted only once the
    validator has returned, and on every volume that could be opened, the
    ones the heuristic would skip included. *)
Theorem C7_validator_runs_before_skip_check (st : State) :
  (∀ l1 l2,
     out (state_of (round st)) = out st ++ l1 ++ Call "check_if_skip" :: l2 →
     Call "check_super_block" ∈ l1)
  ∧ (∀ st1 why st2,
       open_filesystem st = Normal tt st1 →
       check_super_block (add_event (Call "check_super_block") st1) = Stopped why st2 →
       round st = Stopped why st2).
Proof.
  split.
  - intros l1 l2 Hout. unfold round in Hout. rewrite bind_run in Hout.
    assert (Hopen : extends_quietly st (state_of (open_filesystem st)))
      by (apply (preserves_open_filesystem extends_quietly); by_extends_quietly).
    destruct Hopen as (l0 & H0 & Hq).
    destruct (open_filesystem st) as [[] st1|why st1]; simpl in H0, Hout.
    + unfold check_and_repair in Hout. rewrite bind_run in Hout. simpl in Hout.
      set (st2 := add_event (Call "check_super_block") st1) in Hout.
      assert (Hrest : extends st2 (state_of ((check_super_block ≫= λ _, after_validation) st2))).
      { apply (preserves_bind extends extends_trans).
        - apply (preserves_check_super_block extends); by_extends.
        - intros _. apply (preserves_after_validation extends); by_extends. }
      destruct Hrest as (l & Hl). rewrite Hl in Hout. unfold st2 in Hout. simpl in Hout.
      rewrite H0 in Hout. rewrite <- !app_assoc in Hout.
      apply app_inv_head in Hout. simpl in Hout.
      eapply mark_before; [exact Hout | apply quiet_no_skip, Hq | discriminate].
    + rewrite H0 in Hout. apply app_inv_head in Hout. exfalso.
      apply (quiet_no_skip _ Hq). rewrite Hout.
      apply elem_of_app. right. apply list_elem_of_here.
  - intros st1 why st2 Hopen Hstop. unfold round. rewrite (bind_normal _ _ _ _ _ Hopen).
    unfold check_and_repair. rewrite bind_run. simpl.
    apply bind_stopped, Hstop.
Qed.

End Order.

(** ** Reopening after a restart *)

Section Reopen.
Context {X : Externals}.

Lemma open_once_run sb bs st :
  open_once sb bs st =
  Normal (ext2fs_open (filesystem_name (opts st)) (open_flags (opts st)) sb bs (world st)).1
    (set_fs (ext2fs_open (filesystem_name (opts st)) (open_flags (opts st)) sb bs (world st)).2
       (add_event (Call "ext2fs_open") st)).
Proof.
  unfold open_once, open_flags. exec.
  destruct (ext2fs_open _ _ _ _ _) as [r h]. reflexivity.
Qed.

Lemma open_block_sizes_opened sb sizes : ∀ retval st r st1,
  open_block_sizes sb sizes retval st = Normal r st1 → r = 0 →
  (sizes = [] ∧ retval = 0 ∧ st1 = st)
  ∨ (∃ bs h,
       ext2fs_open (filesystem_name (opts st)) (open_flags (opts st)) sb bs (world st) = (0, h)
       ∧ fs st1 = h ∧ same_but_handle st st1).
Proof.
  induction sizes as [|size rest IH]; intros retval st r st1 H Hr.
  - injection H as <- <-. left. auto.
  - unfold open_block_sizes in H. fold open_block_sizes in H.
    rewrite bind_run, open_once_run in H.
    destruct (ext2fs_open _ _ sb size _) as [r0 h0] eqn:E. simpl in H.
    destruct (truthy r0) eqn:Er0.
    + destruct (IH _ _ _ _ H Hr) as [(_ & H0 & _)|(bs & h & Hopen & Hfs & Hsame)].
      * apply truthy_true in Er0. contradiction.
      * right. exists bs, h. simpl in Hopen. repeat split; try assumption;
          destruct Hsame as (? & ? & ? & ?); assumption.
    + injection H as <- <-. apply truthy_false in Er0. subst r0.
      right. exists size, h0. repeat split. exact E.
Qed.

Lemma open_filesystem_returns st st1 :
  open_filesystem st = Normal tt st1 →
  ∃ sb bs h,
    ext2fs_open (filesystem_name (opts st)) (open_flags (opts st)) sb bs (world st) = (0, h)
    ∧ (fs st1 = h ∨ fs st1 = set_fs_dirty true h)
    ∧ (∀ f, counters f (reloc st1) = replicate (length (group_desc h)) 0)
    ∧ invalid_bitmaps (reloc st1) = invalid_bitmaps (reloc st)
    ∧ restart_e2fsck (reloc st1) = restart_e2fsck (reloc st)
    ∧ opts st1 = opts st ∧ run st1 = run st ∧ world st1 = world st.
Proof.
  intros H. unfold open_filesystem in H. repeat inv_bind H.
  match goal with Hs : sync_disks _ = _ |- _ => unfold sync_disks in Hs; step_in Hs end.
  match goal with Hs : gets opts _ = _ |- _ => step_in Hs end.
  set (st0 := add_event (Call "sync") (add_event (Call "sleep")
                (add_event (Call "sync") (add_event (Call "sync") st)))) in *.
  (* the call, or calls, of ext2fs_open *)
  assert (Hopened : ∀ r st2,
            (if truthy (superblock (opts st0)) && truthy (blocksize (opts st0)) then
               open_once (superblock (opts st0)) (blocksize (opts st0))
             else if truthy (superblock (opts st0)) then
               open_block_sizes (superblock (opts st0)) possible_block_sizes 0
             else open_once 0 0) st0 = Normal r st2 →
            r = 0 →
            ∃ sb bs h,
              ext2fs_open (filesystem_name (opts st)) (open_flags (opts st)) sb bs (world st)
              = (0, h)
              ∧ fs st2 = h ∧ same_but_handle st st2).
  { intros r st2 Hopen Hr.
    destruct (truthy (superblock (opts st0)) && truthy (blocksize (opts st0)));
      [| destruct (truthy (superblock (opts st0)))].
    - rewrite open_once_run in Hopen.
      destruct (ext2fs_open _ _ _ _ _) as [r0 h0] eqn:E. simpl in Hopen.
      injection Hopen as -> <-. subst r.
      eexists _, _, h0. split; [exact E |]. split; [reflexivity | repeat split].
    - destruct (open_block_sizes_opened _ _ _ _ _ _ Hopen Hr)
        as [(Hnil & _)|(bs & h & Hopen' & Hfs & Hsame)]; [discriminate Hnil |].
      exists (superblock (opts st0)), bs, h. auto.
    - rewrite open_once_run in Hopen.
      destruct (ext2fs_open _ _ _ _ _) as [r0 h0] eqn:E. simpl in Hopen.
      injection Hopen as -> <-. subst r.
      eexists _, _, h0. split; [exact E |]. split; [reflexivity | repeat split]. }
  match goal with
  | Hs : (if truthy ?r then _ else _) _ = Normal _ _ |- _ =>
      destruct (truthy r) eqn:Er; [never_returns Hs | step_in Hs]
  end.
  apply truthy_false in Er.
  match goal with
  | Hs : (if _ then _ else _) st0 = Normal _ _ |- _ =>
      destruct (Hopened _ _ Hs Er) as (sb & bs & h & Hopen & Hfs & Ho & Hrel & Hrun & Hw)
  end.
  exists sb, bs, h. split; [exact Hopen |].
  (* the revision test returns without touching the state *)
  match goal with
  | Hs : match E2FSCK_CURRENT_REV with _ => _ end _ = Normal _ _ |- _ =>
      destruct E2FSCK_CURRENT_REV;
        [ inv_bind Hs; destruct (_ >? _); [never_returns Hs | step_in Hs]
        | step_in Hs ]
  end;
    match goal with Hs : gets _ _ = Normal _ _ |- _ => step_in Hs | _ => idtac end;
    match goal with
    | Hs : when ?b _ _ = Normal _ _ |- _ =>
        destruct b; unfold ext2fs_mark_super_dirty in Hs; step_in Hs
    end;
    repeat match goal with
           | Hs : call _ _ = Normal _ _ |- _ => step_in Hs
           | Hs : gets _ _ = Normal _ _ |- _ => step_in Hs
           | Hs : modify _ _ = Normal _ _ |- _ => step_in Hs
           end;
    simpl; rewrite ?Hfs, ?Ho, ?Hrel, ?Hrun, ?Hw;
    (split; [auto |]);
    (split; [intros []; simpl; unfold allocate_memory, group_desc_count; simpl;
             rewrite ?Hfs, Nat2Z.id; reflexivity |]);
    repeat split.
Qed.


End Reopen.

(** ** Relocation of a pointer *)

Section Relocation.
Context {X : Externals}.

Lemma relocate_hint_run st : relocate_hint st = Normal tt (hinted st).
Proof. unfold relocate_hint, hinted. exec. split_if; reflexivity. Qed.

Lemma ask_run descr def st :
  ask descr def st =
  let answer := (policy_answer (opts st) descr def (world st)).1 in
  let st1 := set_world (policy_answer (opts st) descr def (world st)).2
               (add_event (Call "ask") st) in
  Normal answer (if truthy answer then accepted st1 else st1).
Proof.
  unfold ask, accepted. exec.
  destruct (policy_answer (opts st) descr def (world st)) as [answer w]. simpl.
  destruct (truthy answer); reflexivity.
Qed.

Lemma check_field_run f i first_block last_block st :
  check_field f i first_block last_block st =
  if out_of_range f (inode_blocks_per_group (fs st)) (group_desc (fs st) !!! i)
       first_block last_block
  then
    if truthy (policy_answer (opts st) "Relocate" 1 (world st)).1
    then Normal tt (relocated f i (accepted (offered f i st)))
    else Stopped (FatalError (Some (fatal_message f))) (offered f i st)
  else Normal tt st.
Proof.
  destruct f; simpl;
    [unfold check_block_bitmap | unfold check_inode_bitmap | unfold check_inode_table];
    unfold store_group, incr_invalid_bitmaps, preenhalt; exec;
    split_if; try reflexivity;
    rewrite relocate_hint_run; simpl; rewrite ask_run; simpl;
    assert (Ho : opts (hinted st) = opts st) by (unfold hinted; split_if; reflexivity);
    assert (Hw : world (hinted st) = world st) by (unfold hinted; split_if; reflexivity);
    rewrite Ho, Hw;
    destruct (truthy (policy_answer (opts st) "Relocate" 1 (world st)).1); reflexivity.
Qed.

Lemma offered_frame f i st :
  opts (offered f i st) = opts st ∧ fs (offered f i st) = fs st
  ∧ reloc (offered f i st) = reloc st ∧ run (offered f i st) = run st.
Proof.
  unfold offered, hinted, add_events. destruct f; simpl; split_if; auto.
Qed.

Lemma pointer_set_pointer f f' v gd :
  pointer f' (set_pointer f v gd) = if decide (f' = f) then v else pointer f' gd.
Proof. destruct f, f'; reflexivity. Qed.

Lemma relocated_counters f f' i st :
  counters f' (reloc (relocated f i st)) =
  if decide (f' = f) then alter Z.succ i (counters f (reloc st)) else counters f' (reloc st).
Proof. destruct f, f'; reflexivity. Qed.

Lemma relocated_frame f i st :
  group_desc (fs (relocated f i st)) = alter (set_pointer f 0) i (group_desc (fs st))
  ∧ super (fs (relocated f i st)) = super (fs st)
  ∧ inode_blocks_per_group (fs (relocated f i st)) = inode_blocks_per_group (fs st)
  ∧ invalid_bitmaps (reloc (relocated f i st)) = invalid_bitmaps (reloc st) + 1
  ∧ run (relocated f i st) = run st.
Proof. destruct f; repeat split. Qed.

End Relocation.

(** ** The group loop *)

Section Groups.
Context {X : Externals}.

Lemma out_of_range_pointer f ibpg gd gd' first_block last_block :
  pointer f gd = pointer f gd' →
  out_of_range f ibpg gd first_block last_block
  = out_of_range f ibpg gd' first_block last_block.
Proof. destruct f; simpl; intros ->; reflexivity. Qed.

Lemma touches_nothing i first_block last_block fields st :
  touches i first_block last_block fields st st.
Proof. unfold touches. repeat split; auto. Qed.

Lemma touches_check f i first_block last_block st :
  touches i first_block last_block [f] st (state_of (check_field f i first_block last_block st)).
Proof.
  rewrite check_field_run.
  destruct (out_of_range _ _ _ _ _) eqn:Hout; [| apply touches_nothing].
  destruct (offered_frame f i st) as (Ho & Hfs & Hrel & Hrun).
  destruct (truthy _); simpl.
  - destruct (relocated_frame f i (accepted (offered f i st))) as (Hgd & Hs & Hi & _).
    change (fs (accepted (offered f i st))) with (fs (offered f i st)) in Hgd, Hs, Hi.
    rewrite Hfs in Hgd, Hs, Hi. unfold touches.
    split; [exact Hs |]. split; [exact Hi |].
    split; [rewrite Hgd; apply length_alter |].
    split; [intros j Hj; rewrite Hgd; apply list_lookup_total_alter_ne; auto |].
    split.
    + intros f' Hf'. rewrite Hgd, list_lookup_total_alter.
      destruct (decide _); [| reflexivity].
      rewrite pointer_set_pointer, decide_False; [reflexivity |].
      intros ->. apply Hf', list_elem_of_here.
    + intros f' j. rewrite relocated_counters.
      change (reloc (accepted (offered f i st))) with (reloc (offered f i st)).
      rewrite Hrel. destruct (decide (f' = f)) as [-> |]; [| left; reflexivity].
      destruct (decide (j = i)) as [-> |Hj].
      * right. split; [apply list_elem_of_here | auto].
      * left. apply list_lookup_total_alter_ne. auto.
  - unfold touches. rewrite Hfs, Hrel. repeat split; auto.
Qed.

Lemma touches_then f fields i first_block last_block st st1 st2 :
  f ∉ fields →
  touches i first_block last_block fields st st1 →
  touches i first_block last_block [f] st1 st2 →
  touches i first_block last_block (f :: fields) st st2.
Proof.
  intros Hf (Hs & Hi & Hl & Hgd & Hp & Hc) (Hs' & Hi' & Hl' & Hgd' & Hp' & Hc').
  unfold touches. split; [congruence |]. split; [congruence |]. split; [congruence |].
  split; [intros j Hj; rewrite Hgd', Hgd by exact Hj; reflexivity |].
  split.
  - intros f' Hf'. apply not_elem_of_cons in Hf' as [Hne Hnin].
    rewrite Hp', Hp; [reflexivity | exact Hnin |].
    intros Hin. apply list_elem_of_singleton in Hin. contradiction.
  - intros f' j. destruct (Hc' f' j) as [E2|(Hin & -> & Hout)].
    + destruct (Hc f' j) as [E1|(Hin & -> & Hout)].
      * left. congruence.
      * right. split; [apply list_elem_of_further, Hin | auto].
    + apply list_elem_of_singleton in Hin. subst f'.
      destruct (Hc f i) as [E1|(Hin & _)]; [| contradiction].
      right. split; [apply list_elem_of_here |]. split; [reflexivity |].
      rewrite <- Hout, Hi. apply out_of_range_pointer. symmetry. apply Hp, Hf.
Qed.

Lemma touches_more fields fields' i first_block last_block st st' :
  (∀ f, f ∈ fields → f ∈ fields') →
  touches i first_block last_block fields st st' →
  touches i first_block last_block fields' st st'.
Proof.
  intros Hincl (Hs & Hi & Hl & Hgd & Hp & Hc). unfold touches.
  split; [exact Hs |]. split; [exact Hi |]. split; [exact Hl |]. split; [exact Hgd |].
  split.
  - intros f Hf. apply Hp. intros Hin. apply Hf, Hincl, Hin.
  - intros f j. destruct (Hc f j) as [|(Hin & ?)]; [left; auto | right].
    split; [apply Hincl, Hin | auto].
Qed.

(** Membership of a field in a list of fields that is written out. *)
Ltac field_in_list :=
  repeat match goal with
         | H : _ ∈ _ :: _ |- _ =>
             apply elem_of_cons in H; destruct H as [H | H];
             [first [discriminate H | subst] |]
         | H : _ ∈ [] |- _ => apply elem_of_nil in H; contradiction
         end;
  repeat first [apply list_elem_of_here | apply list_elem_of_further].

(** The state after the three tests of one turn, however far they got. *)
Lemma touches_turn i first_block last_block st :
  touches i first_block last_block [InodeTable; InodeBitmap; BlockBitmap] st
    (state_of ((check_block_bitmap i first_block last_block
                ≫= λ _, check_inode_bitmap i first_block last_block
                ≫= λ _, check_inode_table i first_block last_block) st)).
Proof.
  pose proof (touches_check BlockBitmap i first_block last_block st) as H1.
  simpl in H1. rewrite bind_run.
  destruct (check_block_bitmap i first_block last_block st) as [[] st1|why st1];
    simpl in *;
    [| eapply touches_more; [| exact H1]; intros f Hin; field_in_list].
  pose proof (touches_check InodeBitmap i first_block last_block st1) as H2.
  simpl in H2. rewrite bind_run.
  assert (H12 : touches i first_block last_block [InodeBitmap; BlockBitmap] st
                  (state_of (check_inode_bitmap i first_block last_block st1))).
  { eapply touches_then; [| exact H1 | exact H2]. intros Hin. field_in_list. }
  destruct (check_inode_bitmap i first_block last_block st1) as [[] st2|why st2];
    simpl in *;
    [| eapply touches_more; [| exact H12]; intros f Hin; field_in_list].
  pose proof (touches_check InodeTable i first_block last_block st2) as H3.
  simpl in H3.
  eapply touches_then; [| exact H12 | exact H3]. intros Hin. field_in_list.
Qed.

Lemma turn_then {A} (k : M A) i first_block last_block st :
  (check_block_bitmap i first_block last_block
   ≫= λ _, check_inode_bitmap i first_block last_block
   ≫= λ _, check_inode_table i first_block last_block
   ≫= λ _, k) st
  = match (check_block_bitmap i first_block last_block
           ≫= λ _, check_inode_bitmap i first_block last_block
           ≫= λ _, check_inode_table i first_block last_block) st with
    | Normal _ st3 => k st3
    | Stopped why st3 => Stopped why st3
    end.
Proof.
  rewrite !bind_run.
  destruct (check_block_bitmap i first_block last_block st) as [[] st1|]; [| reflexivity].
  rewrite !bind_run.
  destruct (check_inode_bitmap i first_block last_block st1) as [[] st2|]; [| reflexivity].
  rewrite !bind_run.
  destruct (check_inode_table i first_block last_block st2) as [[] st3|]; reflexivity.
Qed.

Lemma turn_bounds_same fs fs' k : ∀ i first_block last_block,
  super fs' = super fs → length (group_desc fs') = length (group_desc fs) →
  turn_bounds fs' k i first_block last_block = turn_bounds fs k i first_block last_block.
Proof.
  induction k as [|k IH]; intros i first_block last_block Hs Hl; simpl;
    unfold group_last_block, group_desc_count; rewrite Hs, Hl; [reflexivity |].
  apply IH; assumption.
Qed.

(** A counter of group [j] changes in the loop only if the pointer it
    belongs to fails the test made with the bounds the loop holds at the
    turn of group [j], on the descriptor as it was when the loop began. *)
Lemma group_loop_flags n : ∀ i first_block last_block st,
  let st' := state_of (group_loop n i first_block last_block st) in
  super (fs st') = super (fs st)
  ∧ inode_blocks_per_group (fs st') = inode_blocks_per_group (fs st)
  ∧ length (group_desc (fs st')) = length (group_desc (fs st))
  ∧ (∀ j, (j < i)%nat → group_desc (fs st') !!! j = group_desc (fs st) !!! j)
  ∧ ∀ f j,
      counters f (reloc st') !!! j = counters f (reloc st) !!! j
      ∨ ((i ≤ j < i + n)%nat
         ∧ out_of_range f (inode_blocks_per_group (fs st)) (group_desc (fs st) !!! j)
             (turn_bounds (fs st) (j - i) i first_block last_block).1
             (turn_bounds (fs st) (j - i) i first_block last_block).2 = true).
Proof.
  induction n as [|n IH]; intros i first_block last_block st;
    unfold group_loop; fold group_loop.
  - simpl. repeat split; auto.
  - rewrite bind_run. simpl.
    set (last := group_last_block i last_block (fs st)).
    pose proof (touches_turn i first_block last st) as Hturn.
    rewrite turn_then.
    destruct ((check_block_bitmap i first_block last
               ≫= λ _, check_inode_bitmap i first_block last
               ≫= λ _, check_inode_table i first_block last) st) as [[] st3|why st3];
      simpl in Hturn; destruct Hturn as (Hs & Hi & Hl & Hgd & _ & Hc).
    + rewrite bind_run. simpl.
      specialize (IH (S i) (wrap32 (first_block + s_blocks_per_group (super (fs st3))))
                    (wrap32 (last + s_blocks_per_group (super (fs st3)))) st3).
      simpl in IH. destruct IH as (Hs' & Hi' & Hl' & Hgd' & Hc').
      split; [congruence |]. split; [congruence |]. split; [congruence |].
      split; [intros j Hj; rewrite Hgd' by lia; apply Hgd; lia |].
      intros f j. destruct (Hc' f j) as [E|(Hj & Hout)].
      * destruct (Hc f j) as [E0|(_ & -> & Hout)]; [left; congruence |].
        right. split; [lia |]. rewrite Nat.sub_diag. exact Hout.
      * right. split; [lia |].
        rewrite Hi, Hgd in Hout by lia.
        rewrite (turn_bounds_same (fs st) (fs st3)) in Hout by assumption.
        replace (j - i)%nat with (S (j - S i)) by lia. simpl. fold last.
        rewrite Hs in Hout. exact Hout.
    + simpl. split; [exact Hs |]. split; [exact Hi |]. split; [exact Hl |].
      split; [intros j Hj; apply Hgd; lia |].
      intros f j. destruct (Hc f j) as [E0|(_ & -> & Hout)]; [left; exact E0 |].
      right. split; [lia |]. rewrite Nat.sub_diag. exact Hout.
Qed.

(** The loop is entered, if at all, with handle and counters as
    [check_super_block] found them. *)
Lemma check_super_block_enters_loop st :
  ∃ st0,
    (state_of (check_super_block st) = st0
     ∨ state_of (check_super_block st)
       = state_of (group_loop (length (group_desc (fs st))) 0
                     (s_first_data_block (super (fs st)))
                     (wrap32 (s_first_data_block (super (fs st))
                              + s_blocks_per_group (super (fs st))))
                     st0))
    ∧ fs st0 = fs st ∧ reloc st0 = reloc st.
Proof.
  unfold check_super_block. rewrite bind_run. simpl.
  do 9 (rewrite scalar_check_step;
        destruct (out_of_bounds _ _ _ _);
        [eexists; split; [left; reflexivity | split; reflexivity] |]).
  unfold preenhalt. exec.
  destruct (ext2fs_get_device_size _ _ _) as [retval should_be]. simpl.
  destruct (truthy retval);
    [eexists; split; [left; reflexivity | split; reflexivity] |].
  destruct (should_be <? s_blocks_count (super (fs st))); simpl.
  - rewrite ask_run. simpl.
    destruct (truthy (policy_answer _ _ _ _).1); simpl;
      [eexists; split; [left; reflexivity | split; reflexivity] |].
    repeat (split_if; simpl;
            [eexists; split; [left; reflexivity | split; reflexivity] |]).
    eexists; split; [right; reflexivity | split; reflexivity].
  - repeat (split_if; simpl;
            [eexists; split; [left; reflexivity | split; reflexivity] |]).
    eexists; split; [right; reflexivity | split; reflexivity].
Qed.

(** The bounds the loop holds are the block range of the group, when the
    geometry fits. *)
Lemma turn_bounds_range fs k : ∀ i first_block last_block,
  geometry_fits fs →
  (i + k < length (group_desc fs))%nat →
  first_block = group_first fs i →
  (Z.of_nat i < group_desc_count fs - 1 →
   last_block = group_first fs i + s_blocks_per_group (super fs)) →
  turn_bounds fs k i first_block last_block
  = (group_first fs (i + k), group_last fs (i + k)).
Proof.
  induction k as [|k IH]; intros i first_block last_block Hgeo Hik Hfirst Hlast; simpl.
  - rewrite Nat.add_0_r. unfold group_last_block, group_last.
    destruct (Z.eqb_spec (Z.of_nat i) (group_desc_count fs - 1)) as [|Hne];
      [rewrite Hfirst; reflexivity |].
    unfold group_desc_count in *. rewrite Hlast, Hfirst by lia. reflexivity.
  - destruct Hgeo as (Hf & Hbpg & Hcount & Hfit).
    assert (Hi : Z.of_nat i < group_desc_count fs - 1) by (unfold group_desc_count; lia).
    unfold group_last_block.
    destruct (Z.eqb_spec (Z.of_nat i) (group_desc_count fs - 1)) as [|_]; [lia |].
    rewrite (Hlast Hi), Hfirst.
    assert (Hstep : ∀ m : nat, Z.of_nat m ≤ group_desc_count fs - 1 →
                    0 ≤ group_first fs m < 2 ^ 32).
    { intros m Hm. unfold group_first. split; [nia |].
      assert (Z.of_nat m * s_blocks_per_group (super fs)
              ≤ (group_desc_count fs - 1) * s_blocks_per_group (super fs))
        by (apply Z.mul_le_mono_nonneg_r; lia).
      lia. }
    assert (Hnext : group_first fs i + s_blocks_per_group (super fs) = group_first fs (S i))
      by (unfold group_first; lia).
    replace (i + S k)%nat with (S i + k)%nat by lia.
    apply IH; [repeat split; assumption | lia | |].
    + rewrite Hnext. unfold wrap32. apply Z.mod_small, Hstep. lia.
    + intros HSi. rewrite Hnext.
      replace (group_first fs (S i) + s_blocks_per_group (super fs))
        with (group_first fs (S (S i))) by (unfold group_first; lia).
      unfold wrap32. apply Z.mod_small, Hstep. lia.
Qed.

Lemma loop_bounds_range fs j :
  geometry_fits fs → (j < length (group_desc fs))%nat →
  loop_bounds fs j = (group_first fs j, group_last fs j).
Proof.
  intros Hgeo Hj. unfold loop_bounds.
  rewrite (turn_bounds_range fs j 0); [reflexivity | exact Hgeo | lia | |].
  - unfold group_first. lia.
  - intros Hcount. destruct Hgeo as (Hf & Hbpg & Hblocks & Hfit).
    unfold group_first. rewrite Z.mul_0_l, Z.add_0_r.
    unfold wrap32. apply Z.mod_small.
    assert (1 * s_blocks_per_group (super fs)
            ≤ (group_desc_count fs - 1) * s_blocks_per_group (super fs))
      by (apply Z.mul_le_mono_nonneg_r; lia).
    lia.
Qed.

Lemma group_range_32bit fs j :
  geometry_fits fs → (j < length (group_desc fs))%nat →
  0 ≤ group_first fs j ∧ group_last fs j ≤ 2 ^ 32.
Proof.
  intros (Hf & Hbpg & Hblocks & Hfit) Hj. unfold group_last, group_first. split; [nia |].
  destruct (Z.eqb_spec (Z.of_nat j) (group_desc_count fs - 1)) as [|Hne]; [lia |].
  assert ((Z.of_nat j + 1) * s_blocks_per_group (super fs)
          ≤ (group_desc_count fs - 1) * s_blocks_per_group (super fs))
    by (apply Z.mul_le_mono_nonneg_r; unfold group_desc_count in *; lia).
  lia.
Qed.

Lemma in_range_passes_test f fs j :
  geometry_fits fs → (j < length (group_desc fs))%nat →
  in_group_range f fs j →
  out_of_range f (inode_blocks_per_group fs) (group_desc fs !!! j)
    (group_first fs j) (group_last fs j) = false.
Proof.
  intros Hgeo Hj Hin. destruct (group_range_32bit fs j Hgeo Hj) as [H0 H32].
  destruct f; simpl in *.
  - apply orb_false_iff. split; [apply Z.ltb_ge | rewrite Z.geb_leb; apply Z.leb_gt]; lia.
  - apply orb_false_iff. split; [apply Z.ltb_ge | rewrite Z.geb_leb; apply Z.leb_gt]; lia.
  - destruct Hin as [Hstart Hend].
    unfold wrap32. rewrite Z.mod_small by lia.
    apply orb_false_iff. split; [apply Z.ltb_ge | rewrite Z.geb_leb; apply Z.leb_gt]; lia.
Qed.

(** C5. With a geometry that fits, the bounds the loop holds when it tests
    group [j] are the block range of the group: [s_blocks_per_group] blocks
    from [s_first_data_block + j * s_blocks_per_group] on, except that the
    last group ends at [s_blocks_count]. A pointer inside that range, and an
    inode table whose first and last block are inside it, leaves its counter
    as it was, whether [check_super_block] returns or stops on the way. *)
Theorem C5_pointers_in_range_are_not_flagged (st : State) :
  geometry_fits (fs st) →
  (∀ j, (j < length (group_desc (fs st)))%nat →
        loop_bounds (fs st) j = (group_first (fs st) j, group_last (fs st) j))
  ∧ (∀ f j, (j < length (group_desc (fs st)))%nat →
            in_group_range f (fs st) j →
            counters f (reloc (state_of (check_super_block st))) !!! j
            = counters f (reloc st) !!! j).
Proof.
  intros Hgeo. split; [intros j Hj; apply loop_bounds_range; assumption |].
  intros f j Hj Hin.
  destruct (check_super_block_enters_loop st) as (st0 & [-> | ->] & Hfs & Hrel);
    [rewrite Hrel; reflexivity |].
  destruct (group_loop_flags (length (group_desc (fs st))) 0
              (s_first_data_block (super (fs st)))
              (wrap32 (s_first_data_block (super (fs st))
                       + s_blocks_per_group (super (fs st)))) st0)
    as (_ & _ & _ & _ & Hc).
  destruct (Hc f j) as [E|(_ & Hout)]; [rewrite E, Hrel; reflexivity |].
  exfalso. rewrite Hfs, Nat.sub_0_r in Hout.
  change (turn_bounds (fs st) j 0 _ _) with (loop_bounds (fs st) j) in Hout.
  rewrite loop_bounds_range in Hout by assumption. simpl in Hout.
  rewrite in_range_passes_test in Hout by assumption. discriminate.
Qed.

End Groups.

(** ** The offer of a relocation *)

Section Offer.
Context {X : Externals}.

Lemma run_tests_app bounds l1 l2 : ∀ st,
  run_tests bounds (l1 ++ l2) st =
  match run_tests bounds l1 st with
  | Normal _ st1 => run_tests bounds l2 st1
  | Stopped why st1 => Stopped why st1
  end.
Proof.
  induction l1 as [|[f j] l1 IH]; intros st; [reflexivity |].
  simpl. rewrite !bind_run.
  destruct (check_field f j _ _ st) as [[] st1|]; [apply IH | reflexivity].
Qed.

Lemma run_tests_ext b b' l :
  (∀ f j, (f, j) ∈ l → b j = b' j) → ∀ st, run_tests b l st = run_tests b' l st.
Proof.
  induction l as [|[f j] l IH]; intros H st; [reflexivity |].
  simpl. rewrite (H f j) by apply list_elem_of_here. rewrite !bind_run.
  destruct (check_field f j _ _ st) as [[] st1|]; [| reflexivity].
  apply IH. intros f0 j0 Hin. apply (H f0 j0), list_elem_of_further, Hin.
Qed.

Lemma loop_tests_groups n : ∀ i f j, (f, j) ∈ loop_tests n i → (i ≤ j < i + n)%nat.
Proof.
  induction n as [|n IH]; intros i f j H; simpl in H; [apply elem_of_nil in H; contradiction |].
  rewrite !elem_of_cons in H.
  destruct H as [H|[H|[H|H]]]; try (inversion H; lia).
  apply IH in H. lia.
Qed.

Lemma loop_tests_app a : ∀ b i, loop_tests (a + b) i = loop_tests a i ++ loop_tests b (i + a).
Proof.
  induction a as [|a IH]; intros b i; simpl; [rewrite Nat.add_0_r; reflexivity |].
  rewrite IH. replace (S i + a)%nat with (i + S a)%nat by lia. reflexivity.
Qed.

Lemma loop_tests_split f j n :
  (j < n)%nat → loop_tests n 0 = earlier_tests f j ++ (f, j) :: later_tests f j n.
Proof.
  intros Hj. replace n with (j + S (n - S j))%nat at 1 by lia.
  rewrite loop_tests_app. unfold earlier_tests, later_tests. simpl.
  rewrite <- app_assoc. destruct f; reflexivity.
Qed.

Lemma earlier_tests_miss f j : (f, j) ∉ earlier_tests f j.
Proof.
  unfold earlier_tests. intros H. apply elem_of_app in H as [H|H].
  - apply loop_tests_groups in H. lia.
  - destruct f; simpl in H;
      repeat (apply elem_of_cons in H as [H|H]; [discriminate H |]);
      apply elem_of_nil in H; exact H.
Qed.

Lemma later_tests_miss f j n : (f, j) ∉ later_tests f j n.
Proof.
  unfold later_tests. intros H. apply elem_of_app in H as [H|H].
  - destruct f; simpl in H;
      repeat (apply elem_of_cons in H as [H|H]; [discriminate H |]);
      apply elem_of_nil in H; exact H.
  - apply loop_tests_groups in H. lia.
Qed.

(** The group loop makes the tests of [loop_tests], each with the bounds it
    has reached at the turn of that group. *)
Lemma group_loop_tests n : ∀ i first_block last_block st,
  group_loop n i first_block last_block st
  = run_tests (λ j, turn_bounds (fs st) (j - i) i first_block last_block) (loop_tests n i) st.
Proof.
  induction n as [|n IH]; intros i first_block last_block st;
    unfold group_loop; fold group_loop; [reflexivity |].
  rewrite bind_run. cbn [gets loop_tests run_tests check_field].
  rewrite Nat.sub_diag. cbn [turn_bounds fst snd].
  set (last := group_last_block i last_block (fs st)).
  pose proof (touches_turn i first_block last st) as Hturn.
  rewrite (turn_then (run_tests _ _)), (turn_then (_ ≫= _)).
  destruct ((check_block_bitmap i first_block last
             ≫= λ _, check_inode_bitmap i first_block last
             ≫= λ _, check_inode_table i first_block last) st) as [[] st3|why st3];
    [| reflexivity].
  simpl in Hturn. destruct Hturn as (Hs & Hi & Hl & _).
  rewrite bind_run. cbn [gets]. rewrite IH. apply run_tests_ext.
  intros f j Hin. apply loop_tests_groups in Hin.
  replace (j - i)%nat with (S (j - S i)) by lia. cbn [turn_bounds]. fold last.
  rewrite Hs. apply turn_bounds_same; assumption.
Qed.

(** What one test leaves alone. *)
Lemma check_field_frame f i first_block last_block st :
  let st' := state_of (check_field f i first_block last_block st) in
  opts st' = opts st
  ∧ (∀ f', length (counters f' (reloc st')) = length (counters f' (reloc st)))
  ∧ (modified (run st) = true → modified (run st') = true)
  ∧ ∀ f' j, (f', j) ≠ (f, i) →
      pointer f' (group_desc (fs st') !!! j) = pointer f' (group_desc (fs st) !!! j)
      ∧ counters f' (reloc st') !!! j = counters f' (reloc st) !!! j.
Proof.
  rewrite check_field_run.
  destruct (out_of_range _ _ _ _ _); [| simpl; auto].
  destruct (offered_frame f i st) as (Ho & Hfs & Hrel & Hrun).
  destruct (truthy _); cbv zeta; cbn [state_of].
  - destruct (relocated_frame f i (accepted (offered f i st)))
      as (Hgd & _ & _ & Hib & Hrun').
    change (fs (accepted (offered f i st))) with (fs (offered f i st)) in Hgd.
    rewrite Hfs in Hgd.
    assert (Hc : ∀ f', counters f' (reloc (relocated f i (accepted (offered f i st))))
                       = if decide (f' = f) then alter Z.succ i (counters f (reloc st))
                         else counters f' (reloc st)).
    { intros f'. rewrite relocated_counters.
      change (reloc (accepted (offered f i st))) with (reloc (offered f i st)).
      rewrite Hrel. reflexivity. }
    split; [destruct f; exact Ho |].
    split.
    { intros f'. rewrite Hc. destruct (decide (f' = f)) as [->|];
        [apply length_alter | reflexivity]. }
    split; [intros _; destruct f; reflexivity |].
    intros f' j Hne. split.
    + rewrite Hgd, list_lookup_total_alter.
      destruct (decide (i = j ∧ (i < length (group_desc (fs st)))%nat)) as [[-> _]|];
        [| reflexivity].
      rewrite pointer_set_pointer, decide_False; [reflexivity |].
      intros ->. apply Hne. reflexivity.
    + rewrite Hc. destruct (decide (f' = f)) as [-> |Hf]; [| reflexivity].
      rewrite list_lookup_total_alter, decide_False; [reflexivity |].
      intros [-> _]. apply Hne. reflexivity.
  - rewrite Ho, Hfs, Hrel, Hrun. auto.
Qed.

(** What a list of tests leaves alone, however far it gets. *)
Lemma run_tests_frame bounds l : ∀ st,
  let st' := state_of (run_tests bounds l st) in
  opts st' = opts st
  ∧ super (fs st') = super (fs st)
  ∧ inode_blocks_per_group (fs st') = inode_blocks_per_group (fs st)
  ∧ length (group_desc (fs st')) = length (group_desc (fs st))
  ∧ (∀ f, length (counters f (reloc st')) = length (counters f (reloc st)))
  ∧ (modified (run st) = true → modified (run st') = true)
  ∧ ∀ f j, (f, j) ∉ l →
      pointer f (group_desc (fs st') !!! j) = pointer f (group_desc (fs st) !!! j)
      ∧ counters f (reloc st') !!! j = counters f (reloc st) !!! j.
Proof.
  induction l as [|[f i] l IH]; intros st; [simpl; repeat split; auto |].
  cbn [run_tests]. rewrite bind_run.
  pose proof (check_field_frame f i (bounds i).1 (bounds i).2 st) as (Ho & Hc & Hm & Hp).
  pose proof (touches_check f i (bounds i).1 (bounds i).2 st) as (Hs & Hi & Hl & _).
  destruct (check_field f i (bounds i).1 (bounds i).2 st) as [[] st1|why st1];
    simpl in Ho, Hc, Hm, Hp, Hs, Hi, Hl.
  - specialize (IH st1). cbv zeta in IH. destruct IH as (Ho' & Hs' & Hi' & Hl' & Hc' & Hm' & Hp').
    split; [congruence |]. split; [congruence |]. split; [congruence |]. split; [congruence |].
    split; [intros f'; rewrite Hc', Hc; reflexivity |].
    split; [auto |].
    intros f' j Hnin. apply not_elem_of_cons in Hnin as [Hne Hnin].
    destruct (Hp' f' j Hnin) as [E1 E2]. destruct (Hp f' j Hne) as [E3 E4].
    split; congruence.
  - simpl. split; [exact Ho |]. split; [exact Hs |]. split; [exact Hi |]. split; [exact Hl |].
    split; [exact Hc |]. split; [exact Hm |].
    intros f' j Hnin. apply not_elem_of_cons in Hnin as [Hne _]. apply Hp, Hne.
Qed.

(** On a superblock that is consistent, on a device that is large enough,
    [check_super_block] comes to the group loop without a word. *)
Lemma check_super_block_on_consistent st :
  typed_super (super (fs st)) →
  consistent_superblock (super (fs st)) →
  (∃ size, ext2fs_get_device_size (filesystem_name (opts st))
             (EXT2_BLOCK_SIZE (super (fs st))) (world st) = (0, size)
           ∧ s_blocks_count (super (fs st)) ≤ size) →
  check_super_block st
  = group_loop (length (group_desc (fs st))) 0
      (s_first_data_block (super (fs st)))
      (wrap32 (s_first_data_block (super (fs st)) + s_blocks_per_group (super (fs st)))) st.
Proof.
  intros (Ti & Tb & Tr & Tf & Tlb & Tlf & Tbpg & Tfpg & Tipg & Tsize)
    (Hs & Hipg & Hfrag & Hbpg & Hfirst) (size & Hsize & Hbig).
  destruct Hs as (H1 & H2 & H3 & H4 & H5 & H6 & H7 & H8).
  specialize (Tsize ltac:(lia)).
  unfold check_super_block. rewrite bind_run. simpl.
  rewrite !scalar_check_step.
  rewrite !min_check_bounds, !max_check_bounds, !both_check_bounds.
  rewrite !to_unsigned_long_small by lia.
  repeat match goal with
         | |- context [?a <? ?b] =>
             replace (a <? b) with false by (symmetry; apply Z.ltb_ge; lia)
         | |- context [?a >? ?b] =>
             replace (a >? b) with false by (symmetry; rewrite Z.gtb_ltb; apply Z.ltb_ge; lia)
         end.
  simpl. unfold preenhalt. exec. rewrite Hsize. simpl.
  replace (size <? s_blocks_count (super (fs st))) with false
    by (symmetry; apply Z.ltb_ge; lia).
  simpl.
  replace (s_log_block_size (super (fs st)) =? s_log_frag_size (super (fs st))) with true
    by (symmetry; apply Z.eqb_eq; exact Hfrag).
  simpl.
  replace (s_frags_per_group (super (fs st))
           `div` wrap32 (s_log_block_size (super (fs st))
                         - s_log_frag_size (super (fs st)) + 1))
    with (s_frags_per_group (super (fs st))).
  2: { rewrite Hfrag.
       replace (s_log_frag_size (super (fs st)) - s_log_frag_size (super (fs st)) + 1)
         with 1 by lia.
       change (wrap32 1) with 1. symmetry. apply Z.div_1_r. }
  replace (s_blocks_per_group (super (fs st)) =? s_frags_per_group (super (fs st)))
    with true by (symmetry; apply Z.eqb_eq; exact Hbpg).
  simpl.
  replace (s_first_data_block (super (fs st))
           =? (if s_log_block_size (super (fs st)) =? 0 then 1 else 0))
    with true by (symmetry; apply Z.eqb_eq; exact Hfirst).
  reflexivity.
Qed.

(** On such a volume [check_super_block] is the list of the tests of the
    loop, made with the bounds of the groups. *)
Lemma check_super_block_tests st :
  typed_super (super (fs st)) →
  consistent_superblock (super (fs st)) →
  (∃ size, ext2fs_get_device_size (filesystem_name (opts st))
             (EXT2_BLOCK_SIZE (super (fs st))) (world st) = (0, size)
           ∧ s_blocks_count (super (fs st)) ≤ size) →
  check_super_block st
  = run_tests (loop_bounds (fs st)) (loop_tests (length (group_desc (fs st))) 0) st.
Proof.
  intros Ht Hc Hd. rewrite check_super_block_on_consistent by assumption.
  rewrite group_loop_tests. apply run_tests_ext.
  intros f j _. rewrite Nat.sub_0_r. reflexivity.
Qed.

(** A pointer outside the block range of its group fails the test the loop
    makes with the bounds of that group, provided the extent of an inode
    table does not run over the 32 bits its end is computed in. *)
Lemma outside_fails_test f fs j :
  geometry_fits fs → (j < length (group_desc fs))%nat →
  ¬ in_group_range f fs j →
  (f = InodeTable →
   1 ≤ inode_blocks_per_group fs
   ∧ bg_inode_table (group_desc fs !!! j) + inode_blocks_per_group fs - 1 < 2 ^ 32) →
  out_of_range f (inode_blocks_per_group fs) (group_desc fs !!! j)
    (group_first fs j) (group_last fs j) = true.
Proof.
  intros Hgeo Hj Hout Hext. destruct (group_range_32bit fs j Hgeo Hj) as [H0 H32].
  unfold in_group_range in Hout.
  destruct f; simpl in *.
  - apply orb_true_iff. rewrite Z.ltb_lt, Z.geb_le. lia.
  - apply orb_true_iff. rewrite Z.ltb_lt, Z.geb_le. lia.
  - destruct Hext as [Hibpg Hfit]; [reflexivity |].
    apply orb_true_iff. rewrite Z.ltb_lt, Z.geb_le.
    destruct (Z.lt_ge_cases (bg_inode_table (group_desc fs !!! j)) (group_first fs j))
      as [Hlo|Hlo]; [left; exact Hlo | right].
    unfold wrap32. rewrite Z.mod_small by lia. lia.
Qed.

(** One test on a pointer it finds out of range. *)
Lemma check_field_relocates f i first_block last_block st :
  (i < length (group_desc (fs st)))%nat →
  length (counters f (reloc st)) = length (group_desc (fs st)) →
  out_of_range f (inode_blocks_per_group (fs st)) (group_desc (fs st) !!! i)
    first_block last_block = true →
  check_field f i first_block last_block st
  = (if truthy (policy_answer (opts st) "Relocate" 1 (world st)).1
     then Normal tt (relocated f i (accepted (offered f i st)))
     else Stopped (FatalError (Some (fatal_message f))) (offered f i st))
  ∧ (let st' := relocated f i (accepted (offered f i st)) in
     pointer f (group_desc (fs st') !!! i) = 0
     ∧ counters f (reloc st') !!! i = counters f (reloc st) !!! i + 1
     ∧ invalid_bitmaps (reloc st') = invalid_bitmaps (reloc st) + 1
     ∧ modified (run st') = true)
  ∧ fs (offered f i st) = fs st ∧ reloc (offered f i st) = reloc st.
Proof.
  intros Hi Hlen Hout. rewrite check_field_run, Hout.
  destruct (offered_frame f i st) as (Ho & Hfs & Hrel & Hrun).
  split; [reflexivity |]. split; [| split; assumption].
  destruct (relocated_frame f i (accepted (offered f i st)))
    as (Hgd & _ & _ & Hib & Hrun').
  change (fs (accepted (offered f i st))) with (fs (offered f i st)) in Hgd.
  change (reloc (accepted (offered f i st))) with (reloc (offered f i st)) in Hib.
  rewrite Hfs in Hgd. rewrite Hrel in Hib. cbv zeta.
  split.
  { rewrite Hgd, list_lookup_total_alter.
    rewrite decide_True by (split; [reflexivity | exact Hi]).
    rewrite pointer_set_pointer, decide_True; reflexivity. }
  split.
  { rewrite relocated_counters, decide_True by reflexivity.
    change (reloc (accepted (offered f i st))) with (reloc (offered f i st)).
    rewrite Hrel, list_lookup_total_alter.
    rewrite decide_True by (split; [reflexivity | rewrite Hlen; exact Hi]).
    reflexivity. }
  split; [exact Hib |]. rewrite Hrun'. reflexivity.
Qed.


End Offer.

(** ** The program at work *)

Section Runs.

(** The example of the specification: 500 of 1000 inodes and 2048 of 4096
    blocks in use, valid, mounted once out of twenty. Run with -p, [main]
    ends with [exit(FSCK_OK)] right after the summary. *)
Example clean_volume_run :
  ∃ st, main 1 (cmdline ["p"%char]) 0 (toy_world good_gd false 0)
        = Terminated (Exit FSCK_OK) st
        ∧ out st =
          [Call "init_resource_track"; Call "PRS"; Call "check_mount";
           Call "sync"; Call "sync"; Call "sleep"; Call "sync";
           Call "ext2fs_open"; Call "ehandler_init";
           Call "check_super_block"; Call "check_if_skip";
           Printf "%s: clean, %d/%d files, %d/%d blocks\n"
             [ArgS "/dev/hda1"; ArgZ 500; ArgZ 1000; ArgZ 2048; ArgZ 4096]].
Proof. eexists. split; vm_compute; reflexivity. Qed.

(** Two relocations in two rounds, one hint. *)
Example hint_once_over_a_restart :
  ∃ v st, main 3 (cmdline ["y"%char; "f"%char]) 0 (toy_world bad_gd true 1) = Returned v st
          ∧ invalid_bitmaps (reloc st) = 1
          ∧ hint_count (out st) = 1%nat.
Proof. eexists _, _. split; [vm_compute; reflexivity | split; vm_compute; reflexivity]. Qed.

(** An inode table said to begin at block 4294967295 lies outside its group,
    which ends at block 4096, but the end of its 32 blocks, computed in 32
    bits, is block 30: the test passes, no relocation is offered and the
    pointer stays. *)
Example inode_table_at_the_end_of_32_bits :
  ¬ in_group_range InodeTable (fs wrapping_table_state) 0
  ∧ check_super_block wrapping_table_state = Normal tt wrapping_table_state
  ∧ ∃ st, main 1 (cmdline ["y"%char; "f"%char]) 0 (toy_world wrapping_table true 0)
          = Returned FSCK_OK st
          ∧ group_desc (fs st) = [wrapping_table]
          ∧ invalid_bitmaps (reloc st) = 0.
Proof.
  split; [intros [[_ H] _]; vm_compute in H; discriminate H |].
  split; [vm_compute; reflexivity |].
  eexists. split; [vm_compute; reflexivity | split; vm_compute; reflexivity].
Qed.

(** A check interval of 2594968296 seconds after a last check at 1700000000
    has not elapsed at 1700005000, but the sum is 1000 in 32 bits: the check
    of the clean volume is forced. *)
Example long_check_interval_wraps :
  let st := long_interval_state in
  let s := super (fs st) in
  Z.land (s_state s) EXT2_VALID_FS ≠ 0
  ∧ Z.land (s_state s) EXT2_ERROR_FS = 0
  ∧ s_mnt_count s < s_max_mnt_count s
  ∧ time (world st) < s_lastcheck s + s_checkinterval s
  ∧ force (opts st) = 0 ∧ bad_blocks_file (opts st) = None ∧ cflag (opts st) = 0
  ∧ check_if_skip st
    = Normal tt (forced_report "has gone too long without being checked" st).
Proof. cbv zeta. repeat split; vm_compute; first [reflexivity | discriminate]. Qed.

(** A fragment size exponent of -1 is reported as 4294967295, before the
    count of reserved blocks is looked at. *)
Example negative_fragment_size_is_reported :
  check_super_block negative_frag_state
  = Stopped (FatalError None)
      (corruption_report "log_frag_size" 4294967295 negative_frag_state).
Proof. vm_compute. reflexivity. Qed.

(** An interactive run without terminal on a mounted volume ends in
    [check_mount], before the terminal is asked for. *)
Example mounted_volume_without_terminal :
  ∃ st, main 1 (cmdline []) 0 mounted_world = Terminated (Exit 0) st
        ∧ out st =
          [Call "init_resource_track"; Call "PRS";
           Eprintf "e2fsck %s, %s for EXT2 FS %s, %s\n"
             [ArgS "1.02"; ArgS "16-Jan-96"; ArgS "0.5b"; ArgS "95/08/09"];
           Call "check_mount";
           Printf "%s is mounted.  " [ArgS "/dev/hda1"];
           Printf "check aborted.\n" []].
Proof. eexists. split; vm_compute; reflexivity. Qed.

(** A modified, valid filesystem ends with exit value 1; no input makes it 2. *)
Example modified_volume_exit_value :
  ∃ st, main 1 (cmdline ["y"%char; "f"%char]) 0 (toy_world bad_gd true 0)
        = Returned FSCK_NONDESTRUCT st
        ∧ run st = mk_run true true.
Proof. eexists. split; vm_compute; reflexivity. Qed.

End Runs.

(** ** The theorems at work *)

Section Witnesses.

(** Closes a goal that holds by running the program. *)
Ltac by_running :=
  vm_compute;
  first [ reflexivity | discriminate | (let H := fresh in intros H; discriminate H) ].

(** C4 at a superblock without inodes. *)
Lemma C4_witness :
  ∃ descr value,
    violated (super (fs corrupt_state)) descr value
    ∧ check_super_block corrupt_state
      = Stopped (FatalError None) (corruption_report descr value corrupt_state).
Proof.
  apply (C4_scalar_corruption_is_fatal corrupt_state).
  - unfold typed_super. repeat split; by_running.
  - unfold scalar_invariants. intros (H & _). vm_compute in H. apply H. reflexivity.
Defined.


(** C2 at a modified, valid filesystem: the exit value is 1. *)
Lemma C2_witness :
  ∃ st', finalize modified_state = Normal (exit_classification (run modified_state)) st'
         ∧ exit_classification (run modified_state) ≠ FSCK_REBOOT
         ∧ exit_classification (run modified_state) =
           match modified (run modified_state), valid (run modified_state) with
           | false, true => 0
           | true, true => 1
           | _, false => 4
           end.
Proof.
  apply (C2_exit_value_of_finalize modified_state). split.
  - by_running.
  - intros H. exfalso. apply H. vm_compute. reflexivity.
Defined.

(** C5 at the volume with two groups, on which [check_super_block] runs
    through the loop: the second group, cut short by the end of the volume,
    holds its pointers in its last blocks. *)
Lemma C5_witness :
  check_super_block two_group_volume = Normal tt two_group_volume
  ∧ (∀ f, in_group_range f (fs two_group_volume) 1)
  ∧ (∀ j, (j < length (group_desc (fs two_group_volume)))%nat →
          loop_bounds (fs two_group_volume) j
          = (group_first (fs two_group_volume) j, group_last (fs two_group_volume) j))
  ∧ (∀ f j, (j < length (group_desc (fs two_group_volume)))%nat →
            in_group_range f (fs two_group_volume) j →
            counters f (reloc (state_of (check_super_block two_group_volume))) !!! j
            = counters f (reloc two_group_volume) !!! j).
Proof.
  split; [vm_compute; reflexivity |].
  split; [intros []; unfold in_group_range; repeat split; by_running |].
  apply (C5_pointers_in_range_are_not_flagged two_group_volume).
  unfold geometry_fits. repeat split; by_running.
Defined.

(** C10 at [e2fsck -n -c]: the run returns, and the handle it leaves has
    been written back. *)
Lemma C10_witness :
  let st := opened ["n"%char; "c"%char] (toy_world good_gd false 0) in
  let st_f := passes_done (after_pass1 (state_of (up_to_pass1 st))) in
  read_only_scan = Returned FSCK_OK read_only_scan_end
  ∧ rwflag (opts read_only_scan_end) = 1
  ∧ check_and_repair st = Normal (Finish FSCK_OK) read_only_scan_end
  ∧ fs read_only_scan_end = written_back st_f
  ∧ s_mnt_count (super (fs read_only_scan_end)) = 0
  ∧ s_lastcheck (super (fs read_only_scan_end)) = 1000
  ∧ s_state (super (fs read_only_scan_end)) = EXT2_VALID_FS
  ∧ fs_dirty (fs read_only_scan_end) = true.
Proof.
  cbv zeta.
  destruct (@C10_read_only_with_bad_blocks_stays_rw toy 1 (cmdline ["n"%char; "c"%char]) 0
              (toy_world good_gd false 0)) as (Hrw & Hround & _).
  - by_running.
  - right. by_running.
  - split; [vm_compute; reflexivity |]. split; [exact Hrw |].
    destruct (Hround (opened ["n"%char; "c"%char] (toy_world good_gd false 0))
                (state_of (up_to_pass1 (opened ["n"%char; "c"%char]
                                          (toy_world good_gd false 0)))))
      as (_ & _ & _ & _ & _ & Hret);
      [vm_compute; reflexivity | vm_compute; reflexivity | vm_compute; reflexivity |].
    split.
    { eapply eq_trans; [apply Hret | vm_compute; reflexivity].
      split; [by_running | intros H; exfalso; apply H; vm_compute; reflexivity]. }
    split; [vm_compute; reflexivity |]. split; [vm_compute; reflexivity |].
    split; [vm_compute; reflexivity |]. split; vm_compute; reflexivity.
Defined.

(** C7 at the volume marked clean with the unsound superblock: the
    validator stops the round, and the heuristic is not consulted. *)
Lemma C7_witness :
  round (at_restart ["p"%char] unsound_clean_world)
  = Stopped (FatalError None) (validated ["p"%char] unsound_clean_world).
Proof.
  apply (proj2 (C7_validator_runs_before_skip_check (at_restart ["p"%char] unsound_clean_world))
           (opened ["p"%char] unsound_clean_world) (FatalError None)
           (validated ["p"%char] unsound_clean_world));
    vm_compute; reflexivity.
Defined.

(** The validator runs on a volume the heuristic would have skipped: on the
    handle of the volume marked clean, [check_if_skip] would leave with the
    success status, but [main] ends in the fatal error of the validator, and
    the heuristic is never called. *)
Lemma C7_validator_runs_on_skippable_volume :
  (∃ st, check_if_skip (opened ["p"%char] unsound_clean_world) = Stopped (Exit FSCK_OK) st)
  ∧ ∃ st,
      main 1 (cmdline ["p"%char]) 0 unsound_clean_world = Terminated (FatalError None) st
      ∧ out st =
        [Call "init_resource_track"; Call "PRS"; Call "check_mount"; Call "sync";
         Call "sync"; Call "sleep"; Call "sync"; Call "ext2fs_open"; Call "ehandler_init";
         Call "check_super_block";
         Printf "Corruption found in superblock.  (%s = %lu).\n"
           [ArgS "r_blocks_count"; ArgZ 5000];
         Printf corrupt_msg []].
Proof.
  split; eexists; [| split]; vm_compute; reflexivity.
Defined.



End Witnesses.

(** * Further properties of the program *)

(** ** The command line *)

(** Splits the goal on the option letter, as the [switch] does. *)
Ltac by_letter :=
  repeat
    match goal with
    | |- context [(?c =? ?k)%char] =>
        is_var c; destruct (Ascii.eqb_spec c k) as [->|?]; simpl
    end.

Section Options.
Context {X : Externals}.

Lemma PRS_loop_app l1 : ∀ l2 flush st,
  PRS_loop (l1 ++ l2) flush st
  = match PRS_loop l1 flush st with
    | Normal flush' st' => PRS_loop l2 flush' st'
    | Stopped why st' => Stopped why st'
    end.
Proof.
  induction l1 as [|[c optarg] l1 IH]; intros l2 flush st; [reflexivity |].
  change (((c, optarg) :: l1) ++ l2) with ((c, optarg) :: (l1 ++ l2)).
  unfold PRS_loop; fold PRS_loop. rewrite !bind_run.
  destruct (PRS_case c optarg flush st) as [flush' st'|why st']; [apply IH | reflexivity].
Qed.

Lemma PRS_case_modes c optarg flush st :
  modes (opts (state_of (PRS_case c optarg flush st)))
  = if is_mode c then mode_of c else modes (opts st).
Proof.
  unfold PRS_case, usage, update_opts, is_mode, mode_of. exec.
  by_letter; try reflexivity; destruct have_BLKFLSBUF; reflexivity.
Qed.

Lemma mode_of_exclusive c o : modes o = mode_of c → exclusive_modes o.
Proof.
  unfold modes, mode_of, exclusive_modes. intros H.
  destruct (c =? "n")%char; [| destruct (c =? "y")%char]; inversion H; auto 10.
Qed.

Lemma modes_exclusive o o' : modes o' = modes o → exclusive_modes o → exclusive_modes o'.
Proof.
  unfold modes, exclusive_modes. intros H. inversion H as [[Hp Hn Hy]].
  rewrite Hp, Hn, Hy. auto.
Qed.

Lemma PRS_loop_exclusive l : ∀ flush st,
  exclusive_modes (opts st) → exclusive_modes (opts (state_of (PRS_loop l flush st))).
Proof.
  induction l as [|[c optarg] l IH]; intros flush st Hex;
    unfold PRS_loop; fold PRS_loop; [exact Hex |].
  rewrite bind_run. pose proof (PRS_case_modes c optarg flush st) as Hc.
  assert (Hex' : exclusive_modes (opts (state_of (PRS_case c optarg flush st)))).
  { destruct (is_mode c); [eapply mode_of_exclusive, Hc | eapply modes_exclusive; eauto]. }
  destruct (PRS_case c optarg flush st) as [flush' st1|why st1]; simpl in *;
    [apply IH, Hex' | exact Hex'].
Qed.

(** What one turn of the [switch] that returned has done. *)
Lemma PRS_case_returns c optarg flush st flush' st' :
  PRS_case c optarg flush st = Normal flush' st' →
  known_option c = true
  ∧ tflag (opts st') = tflag (opts st) + (if (c =? "t")%char then 1 else 0)
  ∧ cflag (opts st') = cflag (opts st) + (if (c =? "c")%char then 1 else 0)
  ∧ replace_bad_blocks (opts st')
    = replace_bad_blocks (opts st) + (if (c =? "L")%char then 1 else 0)
  ∧ bad_blocks_file (opts st')
    = (if names_bad_blocks c then Some optarg else bad_blocks_file (opts st))
  ∧ show_version_only (opts st')
    = (if (c =? "V")%char then 1 else show_version_only (opts st))
  ∧ device_name (opts st')
    = (if (c =? "N")%char then Some optarg else device_name (opts st))
  ∧ rwflag (opts st') = rwflag (opts st)
  ∧ program_name (opts st') = program_name (opts st)
  ∧ same_but_opts st st'.
Proof.
  unfold PRS_case, usage, update_opts, names_bad_blocks, same_but_opts. exec.
  by_letter; try destruct have_BLKFLSBUF; intros H; inversion H; subst; clear H; simpl;
    repeat split; lia.
Qed.

Lemma same_but_opts_refl st : same_but_opts st st.
Proof. unfold same_but_opts. auto 10. Qed.

Lemma same_but_opts_trans a b c : same_but_opts a b → same_but_opts b c → same_but_opts a c.
Proof. unfold same_but_opts. intuition congruence. Qed.

Lemma occurrences_cons c c' optarg l :
  occurrences c ((c', optarg) :: l) = (if (c' =? c)%char then 1 else 0) + occurrences c l.
Proof.
  unfold occurrences. destruct (Ascii.eqb_spec c' c) as [->|Hne].
  - rewrite filter_cons_True by reflexivity. simpl length. lia.
  - rewrite filter_cons_False by exact Hne. lia.
Qed.

(** What a loop over the options that returned has done. *)
Lemma PRS_loop_returns l : ∀ flush st flush' st',
  PRS_loop l flush st = Normal flush' st' →
  Forall (λ p, known_option p.1 = true) l
  ∧ tflag (opts st') = tflag (opts st) + occurrences "t" l
  ∧ cflag (opts st') = cflag (opts st) + occurrences "c" l
  ∧ replace_bad_blocks (opts st') = replace_bad_blocks (opts st) + occurrences "L" l
  ∧ rwflag (opts st') = rwflag (opts st)
  ∧ program_name (opts st') = program_name (opts st)
  ∧ same_but_opts st st'.
Proof.
  induction l as [|[c optarg] l IH]; intros flush st flush' st' H;
    unfold PRS_loop in H; fold PRS_loop in H.
  - inversion H; subst. unfold occurrences. simpl.
    rewrite !Z.add_0_r. repeat split; auto using same_but_opts_refl.
  - inv_bind H. apply PRS_case_returns in Hm as (Hk & Ht & Hc & HL & _ & _ & _ & Hrw & Hp & Hs).
    apply IH in H as (Hall & Ht' & Hc' & HL' & Hrw' & Hp' & Hs').
    rewrite !occurrences_cons.
    split; [constructor; assumption |].
    split; [lia |]. split; [lia |]. split; [lia |].
    split; [congruence |]. split; [congruence |].
    eapply same_but_opts_trans; eassumption.
Qed.

(** The value of a setting that only the letters [sets] write, when the
    last of them among the options is [c]. *)
Lemma PRS_loop_last {V} (get : Options → V) (sets : ascii → bool) (value : ascii → string → V) :
  (∀ c optarg flush st flush' st',
     PRS_case c optarg flush st = Normal flush' st' →
     get (opts st') = if sets c then value c optarg else get (opts st)) →
  ∀ l1 c optarg l2 flush st flush' st',
    PRS_loop (l1 ++ (c, optarg) :: l2) flush st = Normal flush' st' →
    sets c = true → Forall (λ p, sets p.1 = false) l2 →
    get (opts st') = value c optarg.
Proof.
  intros Hcase l1 c optarg l2 flush st flush' st' H Hc Hl2.
  rewrite PRS_loop_app in H.
  destruct (PRS_loop l1 flush st) as [flush1 st1|]; [| discriminate].
  unfold PRS_loop in H; fold PRS_loop in H. inv_bind H.
  apply Hcase in Hm. rewrite Hc in Hm. rewrite <- Hm. clear Hm Hc.
  revert a st0 H. induction Hl2 as [|[c' optarg'] l2 Hc' _ IH]; intros a st0 H;
    unfold PRS_loop in H; fold PRS_loop in H.
  - inversion H; reflexivity.
  - inv_bind H. apply Hcase in Hm. simpl in Hc'. rewrite Hc' in Hm.
    rewrite <- Hm. eapply IH, H.
Qed.

Lemma named_frame cmd st :
  same_but_opts st (named cmd st)
  ∧ modes (opts (named cmd st)) = modes (opts st)
  ∧ tflag (opts (named cmd st)) = tflag (opts st)
  ∧ cflag (opts (named cmd st)) = cflag (opts st)
  ∧ replace_bad_blocks (opts (named cmd st)) = replace_bad_blocks (opts st)
  ∧ bad_blocks_file (opts (named cmd st)) = bad_blocks_file (opts st)
  ∧ device_name (opts (named cmd st)) = device_name (opts st)
  ∧ rwflag (opts (named cmd st)) = rwflag (opts st).
Proof.
  unfold named, same_but_opts. destruct (argv0 cmd); simpl; auto 20.
Qed.

Lemma settled_frame device o :
  modes (settled device o) = modes o
  ∧ tflag (settled device o) = tflag o
  ∧ cflag (settled device o) = cflag o
  ∧ replace_bad_blocks (settled device o) = replace_bad_blocks o
  ∧ bad_blocks_file (settled device o) = bad_blocks_file o
  ∧ show_version_only (settled device o) = show_version_only o
  ∧ program_name (settled device o) = program_name o
  ∧ filesystem_name (settled device o) = Some device
  ∧ device_name (settled device o)
    = match device_name o with Some name => Some name | None => Some device end
  ∧ rwflag (settled device o) = if plain_n o then 0 else rwflag o.
Proof.
  unfold settled, modes. destruct (plain_n o), (device_name o) eqn:E; simpl;
    rewrite ?E; simpl; auto 20.
Qed.

(** [PRS] taken apart: the loop over the options, then the assignments
    below it, then the flush, which writes nothing but the trace. *)
Lemma PRS_run cmd st :
  match PRS_loop (options cmd) 0 (named cmd st) with
  | Stopped why st2 => PRS cmd st = Stopped why st2
  | Normal flush st2 =>
      if truthy (show_version_only (opts st2)) then PRS cmd st = Normal tt st2
      else
        match operands cmd with
        | [device] =>
            let st3 := set_opts (settled device (opts st2)) st2 in
            PRS cmd st = Normal tt st3
            ∨ (truthy flush = true ∧ have_BLKFLSBUF = true
               ∧ ∃ e, PRS cmd st = Stopped (Exit FSCK_ERROR) (add_event e st3))
            ∨ (truthy flush = true ∧ have_BLKFLSBUF = false
               ∧ PRS cmd st = Stopped (FatalError (Some "BLKFLSBUF not supported")) st3)
        | _ => PRS cmd st = usage st2
        end
  end.
Proof.
  unfold PRS. rewrite bind_run.
  assert (Hn : (match argv0 cmd with
                | Some name => update_opts (set_program_name name)
                | None => mret tt
                end) st = Normal tt (named cmd st))
    by (unfold named; destruct (argv0 cmd); reflexivity).
  rewrite Hn, bind_run.
  destruct (PRS_loop (options cmd) 0 (named cmd st)) as [flush st2|why st2]; [| reflexivity].
  unfold update_opts. exec.
  destruct (truthy (show_version_only (opts st2))); [reflexivity |].
  destruct (operands cmd) as [|device [|]]; simpl; [reflexivity | | reflexivity].
  unfold settled. fold (plain_n (opts st2)).
  destruct (plain_n (opts st2)); simpl;
    destruct (device_name (opts st2)); simpl;
    destruct (truthy flush); simpl; try (left; reflexivity);
    destruct have_BLKFLSBUF; simpl;
    try (right; right; split; [reflexivity | split; reflexivity]);
    split_pair; simpl; repeat (split_if; simpl);
    first [ left; reflexivity
          | right; left; split; [reflexivity | split; [reflexivity | eexists; reflexivity]] ].
Qed.

(** The usage line, as [usage] prints it in state [st]. *)
Lemma usage_run {A} st : usage (A:=A) st = Stopped (Exit FSCK_USAGE) (usage_report st).
Proof. reflexivity. Qed.

(** Why one turn of the [switch] stops: an unknown letter, or -F where
    BLKFLSBUF is not defined. *)
Lemma PRS_case_stops c optarg flush st why st' :
  PRS_case c optarg flush st = Stopped why st' →
  (why = Exit FSCK_USAGE ∧ known_option c = false ∧ st' = usage_report st)
  ∨ (why = FatalError (Some "-F not supported") ∧ c = "F"%char
     ∧ have_BLKFLSBUF = false ∧ st' = st).
Proof.
  unfold PRS_case, update_opts. exec.
  by_letter; rewrite ?usage_run; try destruct have_BLKFLSBUF eqn:E;
    intros H; inversion H; subst; clear H;
    first
      [ right; auto; fail
      | left; split; [reflexivity |]; split; [| reflexivity];
        unfold known_option; simpl;
        repeat match goal with
               | H : ?c ≠ ?k |- context [(?c =? ?k)%char] =>
                   destruct (Ascii.eqb_spec c k); [contradiction |]
               end;
        reflexivity ].
Qed.

(** The local [flush] is raised by -F only, and only where BLKFLSBUF is
    defined. *)
Lemma PRS_case_flush c optarg flush st flush' st' :
  PRS_case c optarg flush st = Normal flush' st' →
  flush' = flush ∨ (flush' = 1 ∧ c = "F"%char ∧ have_BLKFLSBUF = true).
Proof.
  unfold PRS_case, usage, update_opts. exec.
  by_letter; try destruct have_BLKFLSBUF; intros H; inversion H; subst; auto.
Qed.

Lemma PRS_loop_flush l : ∀ flush st flush' st',
  PRS_loop l flush st = Normal flush' st' →
  flush' = flush
  ∨ (flush' = 1 ∧ have_BLKFLSBUF = true ∧ Exists (λ p, p.1 = "F"%char) l).
Proof.
  induction l as [|[c optarg] l IH]; intros flush st flush' st' H;
    unfold PRS_loop in H; fold PRS_loop in H.
  - inversion H; auto.
  - inv_bind H. apply IH in H as [->|(-> & Hh & HF)].
    + apply PRS_case_flush in Hm as [->|(-> & -> & Hh)]; [left; reflexivity |].
      right. split; [reflexivity |]. split; [exact Hh |]. left. reflexivity.
    + right. split; [reflexivity |]. split; [exact Hh |]. right. exact HF.
Qed.

(** Why the loop over the options stops, and where. *)
Lemma PRS_loop_stops l : ∀ flush st why st',
  PRS_loop l flush st = Stopped why st' →
  (why = Exit FSCK_USAGE ∧ Exists (λ p, known_option p.1 = false) l
   ∧ ∃ st1, same_but_opts st st1 ∧ st' = usage_report st1)
  ∨ (why = FatalError (Some "-F not supported") ∧ have_BLKFLSBUF = false
     ∧ Exists (λ p, p.1 = "F"%char) l ∧ same_but_opts st st').
Proof.
  induction l as [|[c optarg] l IH]; intros flush st why st' H;
    unfold PRS_loop in H; fold PRS_loop in H; [discriminate |].
  rewrite bind_run in H.
  destruct (PRS_case c optarg flush st) as [flush1 st1|why1 st1] eqn:E.
  - apply PRS_case_returns in E as (_ & _ & _ & _ & _ & _ & _ & _ & _ & Hs).
    apply IH in H as [(-> & Hex & st2 & Hs2 & ->)|(-> & Hh & Hex & Hs2)].
    + left. split; [reflexivity |]. split; [right; exact Hex |].
      exists st2. split; [eapply same_but_opts_trans; eassumption | reflexivity].
    + right. split; [reflexivity |]. split; [exact Hh |]. split; [right; exact Hex |].
      eapply same_but_opts_trans; eassumption.
  - inversion H; subst. apply PRS_case_stops in E as [(-> & Hk & ->)|(-> & -> & Hh & ->)].
    + left. split; [reflexivity |]. split; [left; exact Hk |].
      exists st. split; [apply same_but_opts_refl | reflexivity].
    + right. split; [reflexivity |]. split; [exact Hh |]. split; [left; reflexivity |].
      apply same_but_opts_refl.
Qed.

(** The loop returns on every list of known letters, -F apart where
    BLKFLSBUF is not defined. *)
Lemma PRS_loop_known l : ∀ flush st,
  Forall (λ p, known_option p.1 = true) l →
  (have_BLKFLSBUF = false → Forall (λ p, p.1 ≠ "F"%char) l) →
  ∃ flush' st', PRS_loop l flush st = Normal flush' st'.
Proof.
  induction l as [|[c optarg] l IH]; intros flush st Hk HF;
    unfold PRS_loop; fold PRS_loop; [eexists _, _; reflexivity |].
  rewrite bind_run. inversion Hk as [|? ? Hc Hl]; subst. simpl in Hc.
  destruct (PRS_case c optarg flush st) as [flush1 st1|why1 st1] eqn:E.
  - apply IH; [exact Hl |]. intros Hh. specialize (HF Hh). inversion HF; assumption.
  - apply PRS_case_stops in E as [(_ & Hk' & _)|(_ & -> & Hh & _)]; [congruence |].
    specialize (HF Hh). inversion HF as [|? ? Hne _]; subst. contradiction.
Qed.

(** -V raises [show_version_only], and nothing lowers it. *)
Lemma PRS_loop_version l : ∀ flush st flush' st',
  PRS_loop l flush st = Normal flush' st' →
  show_version_only (opts st) = 1 ∨ Exists (λ p, p.1 = "V"%char) l →
  show_version_only (opts st') = 1.
Proof.
  induction l as [|[c optarg] l IH]; intros flush st flush' st' H Hv;
    unfold PRS_loop in H; fold PRS_loop in H.
  - inversion H; subst. destruct Hv as [Hv|Hv]; [exact Hv | inversion Hv].
  - inv_bind H. apply PRS_case_returns in Hm as (_ & _ & _ & _ & _ & HV & _).
    eapply IH; [exact H |]. rewrite HV.
    destruct (Ascii.eqb_spec c "V") as [->|Hne]; [left; reflexivity |].
    destruct Hv as [Hv|Hv]; [left; exact Hv |].
    inversion Hv as [? ? Hc|? ? Hl]; subst; [contradiction | right; exact Hl].
Qed.

(** A call of [PRS] that returned went through the loop, and then either
    left at [if (show_version_only) return;] or made the assignments below
    it for the one operand. *)
Lemma PRS_returns cmd st st' :
  PRS cmd st = Normal tt st' →
  ∃ flush st2,
    PRS_loop (options cmd) 0 (named cmd st) = Normal flush st2
    ∧ ((show_version_only (opts st2) ≠ 0 ∧ st' = st2)
       ∨ (show_version_only (opts st2) = 0
          ∧ ∃ device, operands cmd = [device]
                      ∧ st' = set_opts (settled device (opts st2)) st2)).
Proof.
  intros H. pose proof (PRS_run cmd st) as Hrun.
  destruct (PRS_loop (options cmd) 0 (named cmd st)) as [flush st2|why st2];
    [| congruence].
  exists flush, st2. split; [reflexivity |].
  destruct (truthy (show_version_only (opts st2))) eqn:Ev.
  - left. apply truthy_true in Ev. split; [exact Ev | congruence].
  - right. apply truthy_false in Ev. split; [exact Ev |].
    destruct (operands cmd) as [|device [|]];
      [rewrite usage_run in Hrun; congruence | | rewrite usage_run in Hrun; congruence].
    exists device. split; [reflexivity |].
    destruct Hrun as [Hrun|[(_ & _ & e & Hrun)|(_ & _ & Hrun)]]; congruence.
Qed.

(** The options of the state [PRS] ends in, however it ends, are those the
    loop left, up to the assignments below the loop. *)
Lemma PRS_opts cmd st :
  let o2 := opts (state_of (PRS_loop (options cmd) 0 (named cmd st))) in
  opts (state_of (PRS cmd st)) = o2
  ∨ ∃ device, opts (state_of (PRS cmd st)) = settled device o2.
Proof.
  pose proof (PRS_run cmd st) as Hrun.
  destruct (PRS_loop (options cmd) 0 (named cmd st)) as [flush st2|why st2]; simpl.
  - destruct (truthy (show_version_only (opts st2))); [rewrite Hrun; left; reflexivity |].
    destruct (operands cmd) as [|device [|]];
      [rewrite Hrun; left; reflexivity | | rewrite Hrun; left; reflexivity].
    right. exists device.
    destruct Hrun as [Hrun|[(_ & _ & e & Hrun)|(_ & _ & Hrun)]]; rewrite Hrun; reflexivity.
  - rewrite Hrun. left. reflexivity.
Qed.

(** The three modes of operation exclude each other: whatever the command
    line and however far [main] gets, at most one of [preen], [nflag] and
    [yflag] is set, since each of the cases 'p'/'a', 'n' and 'y' clears the
    other two. *)
Theorem modes_exclude_each_other (n : nat) (cmd : Cmdline) (pis : Z) (w : World) :
  exclusive_modes (opts (final_state (main n cmd pis w))).
Proof.
  rewrite main_opts.
  set (st0 := add_event (Call "PRS") (add_event (Call "init_resource_track")
                                        (initial_state pis w))).
  assert (Hloop : exclusive_modes
                    (opts (state_of (PRS_loop (options cmd) 0 (named cmd st0))))).
  { apply PRS_loop_exclusive.
    eapply modes_exclusive; [apply named_frame |]. left. repeat split. }
  destruct (PRS_opts cmd st0) as [->|(device & ->)]; [exact Hloop |].
  eapply modes_exclusive; [apply settled_frame | exact Hloop].
Qed.

(** Of several mode letters on the command line the last one decides: when
    [PRS] returns, the modes are those the last of -p, -a, -n, -y sets. *)
Theorem last_mode_option_wins (cmd : Cmdline) (l1 l2 : list (ascii * string)) (c : ascii)
  (optarg : string) (st st' : State) :
  options cmd = l1 ++ (c, optarg) :: l2 →
  is_mode c = true →
  Forall (λ p, is_mode p.1 = false) l2 →
  PRS cmd st = Normal tt st' →
  modes (opts st') = mode_of c.
Proof.
  intros Hopts Hc Hl2 H. apply PRS_returns in H as (flush & st2 & Hloop & Hst').
  rewrite Hopts in Hloop.
  assert (H2 : modes (opts st2) = mode_of c).
  { eapply (PRS_loop_last modes is_mode (λ c _, mode_of c)); [| exact Hloop | exact Hc | exact Hl2].
    intros c0 optarg0 flush0 s0 flush1 s1 Hcase.
    pose proof (PRS_case_modes c0 optarg0 flush0 s0) as Hm. rewrite Hcase in Hm. exact Hm. }
  destruct Hst' as [(_ & ->)|(_ & device & _ & ->)]; [exact H2 |].
  simpl. rewrite <- H2. apply settled_frame.
Qed.

(** -t, -c and -L count: when [PRS] returns, [tflag], [cflag] and
    [replace_bad_blocks] have grown by the number of times the letter
    occurs among the options. *)
Theorem repeated_options_are_counted (cmd : Cmdline) (st st' : State) :
  PRS cmd st = Normal tt st' →
  tflag (opts st') = tflag (opts st) + occurrences "t" (options cmd)
  ∧ cflag (opts st') = cflag (opts st) + occurrences "c" (options cmd)
  ∧ replace_bad_blocks (opts st')
    = replace_bad_blocks (opts st) + occurrences "L" (options cmd).
Proof.
  intros H. apply PRS_returns in H as (flush & st2 & Hloop & Hst').
  apply PRS_loop_returns in Hloop as (_ & Ht & Hc & HL & _).
  destruct (named_frame cmd st) as (_ & _ & Ht0 & Hc0 & HL0 & _).
  rewrite Ht0 in Ht. rewrite Hc0 in Hc. rewrite HL0 in HL.
  destruct Hst' as [(_ & ->)|(_ & device & _ & ->)]; [auto |].
  destruct (settled_frame device (opts st2)) as (_ & Ht1 & Hc1 & HL1 & _).
  simpl. rewrite Ht1, Hc1, HL1. auto.
Qed.

(** -L falls through into the case of -l: both name the bad-blocks file, and
    when [PRS] returns the file is the argument of the last of them. *)
Theorem last_bad_blocks_file_wins (cmd : Cmdline) (l1 l2 : list (ascii * string))
  (c : ascii) (optarg : string) (st st' : State) :
  options cmd = l1 ++ (c, optarg) :: l2 →
  names_bad_blocks c = true →
  Forall (λ p, names_bad_blocks p.1 = false) l2 →
  PRS cmd st = Normal tt st' →
  bad_blocks_file (opts st') = Some optarg.
Proof.
  intros Hopts Hc Hl2 H. apply PRS_returns in H as (flush & st2 & Hloop & Hst').
  rewrite Hopts in Hloop.
  assert (H2 : bad_blocks_file (opts st2) = Some optarg).
  { eapply (PRS_loop_last bad_blocks_file names_bad_blocks (λ _ optarg, Some optarg));
      [| exact Hloop | exact Hc | exact Hl2].
    intros c0 optarg0 flush0 s0 flush1 s1 Hcase.
    apply PRS_case_returns in Hcase. apply Hcase. }
  destruct Hst' as [(_ & ->)|(_ & device & _ & ->)]; [exact H2 |].
  simpl. rewrite <- H2. apply settled_frame.
Qed.

(** [PRS] returns on well-formed command lines only: every option letter
    has a case in the [switch], and unless -V was given there is exactly one
    operand, which has become [filesystem_name]; [device_name] is set, and
    touches nothing but the options. *)
Theorem PRS_returns_on_well_formed_command_lines (cmd : Cmdline) (st st' : State) :
  PRS cmd st = Normal tt st' →
  Forall (λ p, known_option p.1 = true) (options cmd)
  ∧ same_but_opts st st'
  ∧ (show_version_only (opts st') ≠ 0
     ∨ ∃ device, operands cmd = [device]
                 ∧ filesystem_name (opts st') = Some device
                 ∧ device_name (opts st') ≠ None).
Proof.
  intros H. apply PRS_returns in H as (flush & st2 & Hloop & Hst').
  apply PRS_loop_returns in Hloop as (Hall & _ & _ & _ & _ & _ & Hs).
  split; [exact Hall |].
  assert (Hs2 : same_but_opts st st2)
    by (eapply same_but_opts_trans; [apply named_frame | exact Hs]).
  destruct Hst' as [(Hv & ->)|(_ & device & Hop & ->)].
  - split; [exact Hs2 |]. left. exact Hv.
  - split; [exact Hs2 |]. right. exists device. split; [exact Hop |].
    destruct (settled_frame device (opts st2)) as (_ & _ & _ & _ & _ & _ & _ & Hf & Hd & _).
    simpl. split; [exact Hf |]. rewrite Hd. destruct (device_name (opts st2)); discriminate.
Qed.

(** How the [PRS] of the model stops: with the usage line and [FSCK_USAGE],
    with [FSCK_ERROR] when the device cannot be flushed for -F, or with
    "-F not supported" where BLKFLSBUF is not defined. *)
Lemma PRS_stops (cmd : Cmdline) (st : State) (why : Stop) (st' : State) :
  PRS cmd st = Stopped why st' →
  (why = Exit FSCK_USAGE ∧ ∃ st1, same_but_opts st st1 ∧ st' = usage_report st1)
  ∨ (why = Exit FSCK_ERROR ∧ have_BLKFLSBUF = true
     ∧ Exists (λ p, p.1 = "F"%char) (options cmd))
  ∨ (why = FatalError (Some "-F not supported") ∧ have_BLKFLSBUF = false
     ∧ Exists (λ p, p.1 = "F"%char) (options cmd)).
Proof.
  intros H. pose proof (PRS_run cmd st) as Hrun.
  destruct (PRS_loop (options cmd) 0 (named cmd st)) as [flush st2|why2 st2] eqn:Eloop.
  - pose proof (PRS_loop_flush _ _ _ _ _ Eloop) as Hflush.
    apply PRS_loop_returns in Eloop as (_ & _ & _ & _ & _ & _ & Hs).
    assert (Hs2 : same_but_opts st st2)
      by (eapply same_but_opts_trans; [apply named_frame | exact Hs]).
    destruct (truthy (show_version_only (opts st2))); [congruence |].
    destruct (operands cmd) as [|device [|]].
    + rewrite usage_run in Hrun. left. split; [congruence |]. exists st2.
      split; [exact Hs2 | congruence].
    + destruct Hrun as [Hrun|[(Hf & Hh & e & Hrun)|(Hf & Hh & Hrun)]]; [congruence | |].
      * right. left. split; [congruence |]. split; [exact Hh |].
        destruct Hflush as [->|(_ & _ & HF)]; [discriminate | exact HF].
      * destruct Hflush as [->|(_ & Hh' & _)]; [discriminate | congruence].
    + rewrite usage_run in Hrun. left. split; [congruence |]. exists st2.
      split; [exact Hs2 | congruence].
  - rewrite Hrun in H. inversion H; subst.
    apply PRS_loop_stops in Eloop as [(-> & _ & st1 & Hs & ->)|(-> & Hh & HF & _)].
    + left. split; [reflexivity |]. exists st1. split; [| reflexivity].
      eapply same_but_opts_trans; [apply named_frame | exact Hs].
    + right. right. auto.
Qed.

(** Every exit of [PRS] has its cause. It leaves with [FSCK_USAGE] only
    after the usage line, printed in a state that differs from the one it
    was entered in by its options at most; with [FSCK_ERROR] only where
    BLKFLSBUF is defined and -F was given; with "-F not supported" only
    where BLKFLSBUF is not defined and -F was given; and never with
    "BLKFLSBUF not supported", a branch that is dead since [flush] is only
    raised where BLKFLSBUF is defined. The two exits for want of memory,
    "Couldn't malloc() newpath" and "Couldn't malloc bad_blocks_file", are
    not among the cases: the model takes [malloc] to succeed. *)
Theorem PRS_exits_have_their_causes (cmd : Cmdline) (st : State) (why : Stop) (st' : State) :
  PRS cmd st = Stopped why st' →
  why ≠ FatalError (Some "BLKFLSBUF not supported")
  ∧ (why = Exit FSCK_USAGE → ∃ st1, same_but_opts st st1 ∧ st' = usage_report st1)
  ∧ (why = Exit FSCK_ERROR →
     have_BLKFLSBUF = true ∧ Exists (λ p, p.1 = "F"%char) (options cmd))
  ∧ (why = FatalError (Some "-F not supported") →
     have_BLKFLSBUF = false ∧ Exists (λ p, p.1 = "F"%char) (options cmd)).
Proof.
  intros H.
  destruct (PRS_stops cmd st why st' H) as [(-> & H1)|[(-> & H2 & H3)|(-> & H2 & H3)]];
    (split; [discriminate |]);
    (split; [intros E | split; intros E]);
    first [ solve [auto] | exfalso; vm_compute in E; discriminate E ].
Qed.

Lemma plain_n_settled device o : plain_n (settled device o) = plain_n o.
Proof.
  destruct (settled_frame device o) as (Hm & _ & Hc & _ & Hb & _).
  unfold modes in Hm. injection Hm as _ Hn _.
  unfold plain_n. rewrite Hn, Hc, Hb. reflexivity.
Qed.

(** [PRS] puts the run in read-only mode for -n alone: when it returns
    without -V, [rwflag] is 0 if -n came without a bad-blocks file and
    without -c, and is as it was before in every other case. *)
Theorem rwflag_is_cleared_for_plain_n_only (cmd : Cmdline) (st st' : State) :
  PRS cmd st = Normal tt st' →
  show_version_only (opts st') = 0 →
  rwflag (opts st') = if plain_n (opts st') then 0 else rwflag (opts st).
Proof.
  intros H Hv. apply PRS_returns in H as (flush & st2 & Hloop & Hst').
  apply PRS_loop_returns in Hloop as (_ & _ & _ & _ & Hrw & _).
  destruct (named_frame cmd st) as (_ & _ & _ & _ & _ & _ & _ & Hrw0).
  destruct Hst' as [(Hv2 & ->)|(_ & device & _ & ->)]; [contradiction |].
  simpl. rewrite plain_n_settled.
  destruct (settled_frame device (opts st2)) as (_ & _ & _ & _ & _ & _ & _ & _ & _ & Hset).
  rewrite Hset. destruct (plain_n (opts st2)); congruence.
Qed.

(** -V ends the run before anything is looked at: with known option
    letters one of which is -V, whatever the operands, [main] prints the
    version line (unless in preen mode) and leaves with [exit(0)]: no mount
    check, no terminal check, and the filesystem is not opened. *)
Theorem version_only_run_exits_at_once (n : nat) (cmd : Cmdline) (pis : Z) (w : World) :
  Forall (λ p, known_option p.1 = true) (options cmd) →
  (have_BLKFLSBUF = false → Forall (λ p, p.1 ≠ "F"%char) (options cmd)) →
  Exists (λ p, p.1 = "V"%char) (options cmd) →
  ∃ st,
    main n cmd pis w = Terminated (Exit 0) st
    ∧ out st =
      [Call "init_resource_track"; Call "PRS"]
      ++ (if truthy (preen (opts st)) then []
          else [Eprintf "e2fsck %s, %s for EXT2 FS %s, %s\n"
                  [ArgS E2FSPROGS_VERSION; ArgS E2FSPROGS_DATE;
                   ArgS EXT2FS_VERSION; ArgS EXT2FS_DATE]])
    ∧ fs st = no_fs ∧ world st = w.
Proof.
  intros Hk HF HV.
  set (st0 := add_event (Call "PRS") (add_event (Call "init_resource_track")
                                        (initial_state pis w))).
  destruct (PRS_loop_known (options cmd) 0 (named cmd st0) Hk HF) as (flush & st2 & Hloop).
  pose proof (PRS_loop_version _ _ _ _ _ Hloop (or_intror HV)) as Hv.
  pose proof (PRS_run cmd st0) as Hrun. rewrite Hloop in Hrun.
  assert (Et : truthy (show_version_only (opts st2)) = true)
    by (rewrite Hv; reflexivity).
  rewrite Et in Hrun.
  apply PRS_loop_returns in Hloop as (_ & _ & _ & _ & _ & _ & Hs).
  assert (Hs2 : same_but_opts st0 st2)
    by (eapply same_but_opts_trans; [apply named_frame | exact Hs]).
  destruct Hs2 as (Hfs & _ & _ & Hw & _ & _ & Hout).
  unfold main, prologue, startup. exec. fold st0. rewrite Hrun. simpl.
  unfold banner_and_mount. exec.
  destruct (truthy (preen (opts st2))) eqn:Ep; simpl; rewrite Et; simpl;
    eexists; (split; [reflexivity |]); simpl; rewrite ?Ep, Hout;
    (split; [reflexivity |]); split; assumption.
Qed.

End Options.

(** ** The mount check *)

Section Mount.
Context {X : Externals}.

(** [check_mount] ends the process in one case only: it takes the
    filesystem for mounted, the run is read-write, and the operator does not
    confirm, be it that the answer is no or that there is no terminal to ask
    on. It then leaves with [exit(0)] after "check aborted.". In every other
    case it returns: a filesystem whose mount state cannot be found out is
    checked, so is a mounted one in read-only mode, and so is a mounted one
    the operator insists on. It never touches options, handle, counters or
    run state. *)
Theorem check_mount_stops_on_refusal_only (st : State) :
  same_but_trace st (state_of (check_mount st))
  ∧ if seen_mounted st && truthy (rwflag (opts st)) && negb (confirmed st)
    then ∃ st' l,
           check_mount st = Stopped (Exit 0) st'
           ∧ out st' = out st ++ l ++ [Printf "check aborted.\n" []]
    else ∃ st', check_mount st = Normal tt st'.
Proof.
  unfold check_mount, same_but_trace, seen_mounted, confirmed. exec.
  destruct (ext2fs_check_if_mounted _ _) as [retval mount_flags]. simpl.
  destruct (truthy retval) eqn:Er; simpl; [split; [auto 10 | eauto] |].
  destruct (truthy (Z.land mount_flags EXT2_MF_MOUNTED)) eqn:Em; simpl;
    [| split; [auto 10 | eauto]].
  destruct (linux_mntent && truthy (open_mtab (world st)) && (open_mtab (world st) =? EROFS));
    simpl; [split; [auto 10 | eauto] |].
  destruct (truthy (rwflag (opts st))) eqn:Erw; simpl; [| split; [auto 10 | eauto]].
  destruct (isatty 0 (world st) && isatty 1 (world st)); simpl.
  - destruct (ask_yn _ _ _) as [answer w']. simpl.
    destruct (truthy answer); simpl; (split; [auto 10 |]); [eauto |].
    eexists _, [_; _]. split; [reflexivity |]. simpl.
    rewrite <- !app_assoc. reflexivity.
  - split; [auto 10 |]. eexists _, [_]. split; [reflexivity |]. simpl.
    rewrite <- !app_assoc. reflexivity.
Qed.

End Mount.

(** ** The terminal *)

Section Terminal.
Context {X : Externals}.

Lemma add_events_frame l : ∀ st,
  opts (add_events l st) = opts st ∧ world (add_events l st) = world st
  ∧ fs (add_events l st) = fs st.
Proof.
  induction l as [|e l IH]; intros st; [auto |].
  change (add_events (e :: l) st) with (add_events l (add_event e st)).
  destruct (IH (add_event e st)) as (-> & -> & ->). auto.
Qed.

(** A call of [PRS] that returned has written the options and nothing
    else. *)
Lemma PRS_frame cmd st st' : PRS cmd st = Normal tt st' → same_but_opts st st'.
Proof.
  intros H. apply PRS_returns in H as (flush & st2 & Hloop & Hst').
  apply PRS_loop_returns in Hloop as (_ & _ & _ & _ & _ & _ & Hs).
  assert (Hs2 : same_but_opts st st2)
    by (eapply same_but_opts_trans; [apply named_frame | exact Hs]).
  destruct Hst' as [(_ & ->)|(_ & device & _ & ->)]; exact Hs2.
Qed.

(** [check_mount] in a read-write run without terminal. *)
Lemma check_mount_without_terminal st :
  isatty 0 (world st) && isatty 1 (world st) = false →
  rwflag (opts st) ≠ 0 →
  check_mount st =
  if seen_mounted st
  then Stopped (Exit 0)
         (add_events [Printf "%s is mounted.  " [show (device_name (opts st))];
                      Printf "check aborted.\n" []] st)
  else Normal tt (add_events (mount_error st) st).
Proof.
  intros Htty Hrw. apply truthy_true in Hrw.
  unfold check_mount, seen_mounted, mount_error. exec.
  destruct (ext2fs_check_if_mounted _ _) as [retval mount_flags]. simpl.
  destruct (truthy retval); simpl; [reflexivity |].
  destruct (truthy (Z.land mount_flags EXT2_MF_MOUNTED)); simpl; [| reflexivity].
  destruct (linux_mntent && truthy (open_mtab (world st)) && (open_mtab (world st) =? EROFS));
    simpl; [reflexivity |].
  rewrite Hrw. simpl. rewrite Htty. reflexivity.
Qed.

(** C8, as the code has it. Take a run whose command line [PRS] accepts, in
    interactive mode (none of -p/-a, -n, -y) and without -V, whose standard
    input or output is no terminal. The run does not fall back to default
    answers and never opens the filesystem. If [check_mount] takes the
    volume for mounted, the run ends there with [exit(0)] after
    "check aborted.", the operator not having been asked. Otherwise
    [check_mount] returns, having reported at most that the mount state
    could not be found out, and [main] stops with
    [die("need terminal for interactive repairs")] before the filesystem is
    opened and before any repair could be decided. *)
Theorem C8_interactive_run_needs_terminal (n : nat) (cmd : Cmdline) (pis : Z) (w : World)
  (st1 : State) :
  PRS cmd (add_event (Call "PRS")
             (add_event (Call "init_resource_track") (initial_state pis w)))
  = Normal tt st1 →
  preen (opts st1) = 0 → nflag (opts st1) = 0 → yflag (opts st1) = 0 →
  show_version_only (opts st1) = 0 →
  isatty 0 w && isatty 1 w = false →
  fs st1 = no_fs ∧ world st1 = w
  ∧ main n cmd pis w =
    if seen_mounted st1
    then Terminated (Exit 0)
           (add_events [banner; Call "check_mount";
                        Printf "%s is mounted.  " [show (device_name (opts st1))];
                        Printf "check aborted.\n" []] st1)
    else Terminated (Die "need terminal for interactive repairs")
           (add_events ([banner; Call "check_mount"] ++ mount_error st1) st1).
Proof.
  intros HPRS Hp Hn Hy Hv Htty.
  pose proof (PRS_frame _ _ _ HPRS) as (Hfs & _ & _ & Hw & _).
  simpl in Hfs, Hw.
  pose proof (PRS_rwflag cmd (add_event (Call "PRS")
                (add_event (Call "init_resource_track") (initial_state pis w))) eq_refl)
    as Hrw.
  rewrite HPRS in Hrw. simpl in Hrw.
  assert (Hrw1 : rwflag (opts st1) = 1)
    by (destruct Hrw as [H|(H & _)]; [exact H | contradiction]).
  split; [exact Hfs |]. split; [exact Hw |].
  set (st2 := add_event (Call "check_mount") (add_event banner st1)).
  assert (Hstart : startup cmd (initial_state pis w) = check_mount st2).
  { unfold startup. exec. rewrite HPRS. simpl. unfold banner_and_mount. exec.
    rewrite Hp, Hv. reflexivity. }
  unfold main, prologue. rewrite bind_run, Hstart.
  rewrite check_mount_without_terminal;
    [| change (world st2) with (world st1); rewrite Hw; exact Htty
     | change (opts st2) with (opts st1); rewrite Hrw1; discriminate].
  change (seen_mounted st2) with (seen_mounted st1).
  change (mount_error st2) with (mount_error st1).
  destruct (seen_mounted st1); [reflexivity |].
  unfold need_terminal. exec.
  destruct (add_events_frame (mount_error st1) st2) as (Ho & Hw2 & _).
  rewrite Ho. change (opts st2) with (opts st1). rewrite Hp, Hn, Hy. simpl.
  rewrite Hw2. change (world st2) with (world st1). rewrite Hw, Htty.
  reflexivity.
Qed.

End Terminal.

(** ** When the skip heuristic exits, and what it says *)

Section Heuristic.
Context {X : Externals}.

(** [check_if_skip] ends the process on clean volumes only: if it does not
    return, it has left with [FSCK_OK] after the one-line summary, none of
    -f, -l/-L, -c was given, the state of the volume has the valid bit and
    not the error bit, the mount count is below the maximum (compared as
    unsigned) and the check interval, if there is one, has not elapsed. *)
Theorem check_if_skip_exits_on_clean_volumes_only (st : State) (why : Stop) (st' : State) :
  check_if_skip st = Stopped why st' →
  let s := super (fs st) in
  why = Exit FSCK_OK
  ∧ st' = clean_report st
  ∧ force (opts st) = 0 ∧ bad_blocks_file (opts st) = None ∧ cflag (opts st) = 0
  ∧ Z.land (s_state s) EXT2_ERROR_FS = 0
  ∧ Z.land (s_state s) EXT2_VALID_FS ≠ 0
  ∧ s_mnt_count s < to_unsigned (s_max_mnt_count s)
  ∧ (s_checkinterval s = 0 ∨ time (world st) < wrap32 (s_lastcheck s + s_checkinterval s)).
Proof.
  unfold check_if_skip, skip_reason, clean_report. exec.
  destruct (truthy (force (opts st))) eqn:Ef; simpl; [discriminate |].
  destruct (bad_blocks_file (opts st)) eqn:Eb; simpl; [discriminate |].
  destruct (truthy (cflag (opts st))) eqn:Ec; simpl; [discriminate |].
  destruct (truthy (Z.land (s_state (super (fs st))) EXT2_ERROR_FS)) eqn:Ee; simpl;
    [discriminate |].
  destruct (s_mnt_count (super (fs st)) >=? to_unsigned (s_max_mnt_count (super (fs st))))
    eqn:Em; simpl; [discriminate |].
  destruct (truthy (s_checkinterval (super (fs st)))
            && (time (world st)
                >=? wrap32 (s_lastcheck (super (fs st)) + s_checkinterval (super (fs st)))))
    eqn:Ei; simpl; [discriminate |].
  destruct (truthy (Z.land (s_state (super (fs st))) EXT2_VALID_FS)) eqn:Ev; simpl;
    [| discriminate].
  intros H. inversion H; subst; clear H.
  apply truthy_false in Ef, Ec, Ee. apply truthy_true in Ev.
  rewrite Z.geb_leb in Em. apply Z.leb_gt in Em.
  repeat (split; [first [reflexivity | assumption] |]).
  apply andb_false_iff in Ei as [Ei|Ei].
  - left. apply truthy_false, Ei.
  - right. rewrite Z.geb_leb in Ei. apply Z.leb_gt in Ei. exact Ei.
Qed.


End Heuristic.

(** ** What validation guarantees *)

Section Validation.
Context {X : Externals}.

(** A call of [check_super_block] that returned has come through the nine
    scalar checks and the four tests that follow them, and then through the
    group loop, entered with handle and counters as they were. The checks
    compare [unsigned long] values: on fields that hold values of their C
    types they say that the superblock is consistent. *)
Lemma check_super_block_reaches_loop st st' :
  check_super_block st = Normal tt st' →
  (typed_super (super (fs st)) → consistent_superblock (super (fs st)))
  ∧ (ext2fs_get_device_size (filesystem_name (opts st)) (EXT2_BLOCK_SIZE (super (fs st)))
       (world st)).1 = 0
  ∧ ∃ st0,
      group_loop (length (group_desc (fs st))) 0
        (s_first_data_block (super (fs st)))
        (wrap32 (s_first_data_block (super (fs st)) + s_blocks_per_group (super (fs st))))
        st0 = Normal tt st'
      ∧ fs st0 = fs st ∧ reloc st0 = reloc st ∧ opts st0 = opts st.
Proof.
  intros H. unfold check_super_block in H. rewrite bind_run in H. simpl in H.
  do 9 (rewrite scalar_check_step in H;
        match type of H with
        | (if ?b then _ else _) = _ => destruct b eqn:?; [discriminate H |]
        end).
  rewrite min_check_bounds, max_check_bounds, both_check_bounds in *.
  assert (Hscalar : typed_super (super (fs st)) →
                    scalar_invariants (super (fs st))
                    ∧ 1 ≤ s_inodes_per_group (super (fs st))).
  { intros (Ti & Tb & Tr & Tf & Tlb & Tlf & Tbpg & Tfpg & Tipg & Tsize).
    unfold scalar_invariants.
    repeat match goal with
           | E : _ || _ = false |- _ => apply orb_false_iff in E as [? ?]
           end.
    repeat match goal with
           | E : (_ <? _) = false |- _ => apply Z.ltb_ge in E
           | E : (_ >? _) = false |- _ => rewrite Z.gtb_ltb in E; apply Z.ltb_ge in E
           end.
    assert (S0 : to_unsigned_long 0 = 0) by (apply to_unsigned_long_small; lia).
    assert (S1 : to_unsigned_long 1 = 1) by (apply to_unsigned_long_small; lia).
    assert (S2 : to_unsigned_long 2 = 2) by (apply to_unsigned_long_small; lia).
    rewrite ?S0, ?S1, ?S2 in *.
    rewrite ?(to_unsigned_long_small (s_inodes_count (super (fs st)))),
      ?(to_unsigned_long_small (s_blocks_count (super (fs st)))),
      ?(to_unsigned_long_small (s_r_blocks_count (super (fs st)))),
      ?(to_unsigned_long_small (s_first_data_block (super (fs st)))),
      ?(to_unsigned_long_small (s_log_block_size (super (fs st)))),
      ?(to_unsigned_long_small (s_blocks_per_group (super (fs st)))),
      ?(to_unsigned_long_small (s_frags_per_group (super (fs st)))),
      ?(to_unsigned_long_small (s_inodes_per_group (super (fs st)))) in * by lia.
    assert (Hfrag : 0 ≤ s_log_frag_size (super (fs st)) ≤ 2).
    { destruct (Z.lt_ge_cases (s_log_frag_size (super (fs st))) 0) as [Hneg|Hpos].
      - pose proof (to_unsigned_long_negative (s_log_frag_size (super (fs st)))). lia.
      - rewrite ?(to_unsigned_long_small (s_log_frag_size (super (fs st)))) in * by lia.
        lia. }
    rewrite ?(to_unsigned_long_small (s_log_frag_size (super (fs st)))) in * by lia.
    assert (Hlbs : s_log_block_size (super (fs st)) ≤ 2) by lia.
    specialize (Tsize Hlbs).
    rewrite ?(to_unsigned_long_small (8 * EXT2_BLOCK_SIZE (super (fs st)))) in * by lia.
    repeat split; lia. }
  clear - H Hscalar. unfold preenhalt in H. exec_in H.
  destruct (ext2fs_get_device_size _ _ _) as [retval should_be]. simpl in H |- *.
  destruct (truthy retval) eqn:Er; [discriminate H |]. apply truthy_false in Er.
  assert (Hcons :
            (s_log_block_size (super (fs st)) =? s_log_frag_size (super (fs st))) = true →
            (s_blocks_per_group (super (fs st)) =?
             s_frags_per_group (super (fs st))
             `div` wrap32 (s_log_block_size (super (fs st))
                           - s_log_frag_size (super (fs st)) + 1)) = true →
            (s_first_data_block (super (fs st)) =?
             (if s_log_block_size (super (fs st)) =? 0 then 1 else 0)) = true →
            typed_super (super (fs st)) →
            consistent_superblock (super (fs st))).
  { intros E1 E2 E3 Ht. apply Z.eqb_eq in E1, E2, E3.
    destruct (Hscalar Ht) as [Hs Hi]. unfold consistent_superblock.
    split; [exact Hs |]. split; [exact Hi |]. split; [exact E1 |]. split; [| exact E3].
    rewrite E2, E1.
    replace (s_log_frag_size (super (fs st)) - s_log_frag_size (super (fs st)) + 1)
      with 1 by lia.
    change (wrap32 1) with 1. apply Z.div_1_r. }
  destruct (should_be <? s_blocks_count (super (fs st))); simpl in H.
  - rewrite ask_run in H. simpl in H.
    destruct (truthy (policy_answer _ _ _ _).1); simpl in H; [discriminate H |].
    repeat match type of H with
           | context [if negb ?b then _ else _] =>
               destruct b eqn:?; simpl in H; [| discriminate H]
           end.
    split; [auto |]. split; [exact Er |]. eexists. split; [exact H |]. auto.
  - repeat match type of H with
           | context [if negb ?b then _ else _] =>
               destruct b eqn:?; simpl in H; [| discriminate H]
           end.
    split; [auto |]. split; [exact Er |]. eexists. split; [exact H |]. auto.
Qed.

(** *** The two counts of the relocations *)

Lemma total_alter_succ l : ∀ i, (i < length l)%nat → total (alter Z.succ i l) = total l + 1.
Proof.
  induction l as [|x l IH]; intros i Hi; simpl in Hi; [lia |].
  destruct i as [|i]; [simpl; lia |].
  change (alter Z.succ (S i) (x :: l)) with (x :: alter Z.succ i l).
  unfold total in *. simpl. rewrite IH by lia. lia.
Qed.

Lemma balanced_refl st : balanced st st.
Proof. unfold balanced. repeat split; lia. Qed.

Lemma balanced_trans a b c : balanced a b → balanced b c → balanced a c.
Proof.
  intros (Hg & Hl & Hb) (Hg' & Hl' & Hb'). unfold balanced.
  split; [congruence |]. split; [intros f; rewrite Hl', Hl; reflexivity | lia].
Qed.

Lemma balanced_same st st' : fs st' = fs st → reloc st' = reloc st → balanced st st'.
Proof. intros Hf Hr. unfold balanced. rewrite Hf, Hr. repeat split; lia. Qed.

Lemma balanced_check_field f i first_block last_block st :
  (i < length (counters f (reloc st)))%nat →
  balanced st (state_of (check_field f i first_block last_block st)).
Proof.
  intros Hi. rewrite check_field_run.
  destruct (out_of_range _ _ _ _ _); [| apply balanced_refl].
  destruct (offered_frame f i st) as (Ho & Hfs & Hrel & Hrun).
  destruct (truthy _); simpl; [| apply balanced_same; assumption].
  destruct (relocated_frame f i (accepted (offered f i st))) as (Hgd & _ & _ & Hib & _).
  change (fs (accepted (offered f i st))) with (fs (offered f i st)) in Hgd.
  change (reloc (accepted (offered f i st))) with (reloc (offered f i st)) in Hib.
  rewrite Hfs in Hgd. rewrite Hrel in Hib.
  assert (Hc : ∀ f', counters f' (reloc (relocated f i (accepted (offered f i st))))
                     = if decide (f' = f) then alter Z.succ i (counters f (reloc st))
                       else counters f' (reloc st)).
  { intros f'. rewrite relocated_counters.
    change (reloc (accepted (offered f i st))) with (reloc (offered f i st)).
    rewrite Hrel. reflexivity. }
  unfold balanced. split; [rewrite Hgd; apply length_alter |]. split.
  - intros f'. rewrite Hc. destruct (decide (f' = f)) as [->|]; [apply length_alter | reflexivity].
  - rewrite Hib.
    assert (Hsum : relocations (reloc (relocated f i (accepted (offered f i st))))
                   = relocations (reloc st) + 1).
    { unfold relocations.
      change (invalid_inode_bitmap ?r) with (counters InodeBitmap r).
      change (invalid_block_bitmap ?r) with (counters BlockBitmap r).
      change (invalid_inode_table ?r) with (counters InodeTable r).
      rewrite !Hc. destruct f; simpl; rewrite total_alter_succ by exact Hi; lia. }
    lia.
Qed.

(** The three tests of one turn keep the counts in step, however far they
    get. *)
Lemma balanced_turn i first_block last_block st :
  (∀ f, (i < length (counters f (reloc st)))%nat) →
  balanced st
    (state_of ((check_block_bitmap i first_block last_block
                ≫= λ _, check_inode_bitmap i first_block last_block
                ≫= λ _, check_inode_table i first_block last_block) st)).
Proof.
  intros Hi.
  pose proof (balanced_check_field BlockBitmap i first_block last_block st (Hi _)) as H1.
  simpl in H1. rewrite bind_run.
  destruct (check_block_bitmap i first_block last_block st) as [[] st1|why st1];
    simpl in *; [| exact H1].
  assert (Hi1 : ∀ f, (i < length (counters f (reloc st1)))%nat).
  { intros f. destruct H1 as (_ & Hl & _). rewrite Hl. apply Hi. }
  pose proof (balanced_check_field InodeBitmap i first_block last_block st1 (Hi1 _)) as H2.
  simpl in H2. rewrite bind_run.
  destruct (check_inode_bitmap i first_block last_block st1) as [[] st2|why st2];
    simpl in *; [| eapply balanced_trans; eassumption].
  assert (Hi2 : ∀ f, (i < length (counters f (reloc st2)))%nat).
  { intros f. destruct H2 as (_ & Hl & _). rewrite Hl. apply Hi1. }
  pose proof (balanced_check_field InodeTable i first_block last_block st2 (Hi2 _)) as H3.
  simpl in H3.
  eapply balanced_trans; [| exact H3]. eapply balanced_trans; eassumption.
Qed.

Lemma balanced_group_loop n : ∀ i first_block last_block st,
  (∀ f, (i + n ≤ length (counters f (reloc st)))%nat) →
  balanced st (state_of (group_loop n i first_block last_block st)).
Proof.
  induction n as [|n IH]; intros i first_block last_block st Hlen;
    unfold group_loop; fold group_loop; [apply balanced_refl |].
  rewrite bind_run. simpl.
  set (last := group_last_block i last_block (fs st)).
  assert (Hturn : balanced st
            (state_of ((check_block_bitmap i first_block last
                        ≫= λ _, check_inode_bitmap i first_block last
                        ≫= λ _, check_inode_table i first_block last) st)))
    by (apply balanced_turn; intros f; specialize (Hlen f); lia).
  rewrite turn_then.
  destruct ((check_block_bitmap i first_block last
             ≫= λ _, check_inode_bitmap i first_block last
             ≫= λ _, check_inode_table i first_block last) st) as [[] st3|why st3];
    simpl in Hturn; [| exact Hturn].
  rewrite bind_run. simpl.
  eapply balanced_trans; [exact Hturn |]. apply IH.
  intros f. destruct Hturn as (_ & Hl & _). rewrite Hl. specialize (Hlen f). lia.
Qed.

(** The two counts of the relocations stay in step: whatever
    [check_super_block] does and however it ends, the running total
    [invalid_bitmaps] has grown by as much as the three per-group counter
    arrays together, provided each array has a slot for every group (which
    is how [main] allocates them). *)
Theorem validation_keeps_the_counts_in_step (st : State) :
  (∀ f, length (counters f (reloc st)) = length (group_desc (fs st))) →
  let st' := state_of (check_super_block st) in
  invalid_bitmaps (reloc st') - invalid_bitmaps (reloc st)
  = relocations (reloc st') - relocations (reloc st).
Proof.
  intros Hlen.
  destruct (check_super_block_enters_loop st) as (st0 & [-> | ->] & Hfs & Hrel); simpl.
  - rewrite Hrel. lia.
  - rewrite <- Hrel. apply balanced_group_loop.
    intros f. rewrite Hrel, Hlen. lia.
Qed.

(** *** What the loop has done when it returns *)

Lemma relocates_nothing st : relocates (λ _ _, false) st st.
Proof. unfold relocates. repeat split; auto. Qed.

Lemma relocates_ext hit hit' st st' :
  (∀ f j, (j < length (group_desc (fs st)))%nat → hit f j = hit' f j) →
  relocates hit st st' → relocates hit' st st'.
Proof.
  intros Heq (Hs & Hi & Hl & Hc & H). unfold relocates.
  repeat (split; [assumption |]). intros f j Hj. rewrite <- Heq by exact Hj. apply H, Hj.
Qed.

(** Two rounds of relocations that do not meet add up. *)
Lemma relocates_then hit1 hit2 st st1 st2 :
  relocates hit1 st st1 → relocates hit2 st1 st2 →
  (∀ f j, hit1 f j && hit2 f j = false) →
  relocates (λ f j, hit1 f j || hit2 f j) st st2.
Proof.
  intros (Hs & Hi & Hl & Hc & H) (Hs' & Hi' & Hl' & Hc' & H') Hmeet. unfold relocates.
  split; [congruence |]. split; [congruence |]. split; [congruence |].
  split; [intros f; rewrite Hc', Hc; reflexivity |].
  intros f j Hj. specialize (H f j Hj). specialize (H' f j). rewrite Hl in H'.
  specialize (H' Hj). specialize (Hmeet f j).
  destruct (hit1 f j), (hit2 f j); simpl in *; try discriminate;
    destruct H as [Hp Hn], H' as [Hp' Hn']; split; congruence.
Qed.

(** One test that returned has relocated its pointer if it was out of
    range, and nothing else. *)
Lemma relocates_check_field f i first_block last_block st st' :
  check_field f i first_block last_block st = Normal tt st' →
  length (counters f (reloc st)) = length (group_desc (fs st)) →
  relocates
    (λ f' j, bool_decide (f' = f ∧ j = i)
             && out_of_range f (inode_blocks_per_group (fs st)) (group_desc (fs st) !!! i)
                  first_block last_block)
    st st'.
Proof.
  intros H Hlen. rewrite check_field_run in H.
  destruct (out_of_range _ _ _ _ _) eqn:Hout.
  2: { inversion H; subst. eapply relocates_ext; [| apply relocates_nothing].
       intros f' j _. simpl. rewrite andb_false_r. reflexivity. }
  destruct (truthy _); [| discriminate]. inversion H; subst; clear H.
  destruct (offered_frame f i st) as (Ho & Hfs & Hrel & Hrun).
  destruct (relocated_frame f i (accepted (offered f i st))) as (Hgd & Hs & Hi & _).
  change (fs (accepted (offered f i st))) with (fs (offered f i st)) in Hgd, Hs, Hi.
  rewrite Hfs in Hgd, Hs, Hi.
  assert (Hc : ∀ f', counters f' (reloc (relocated f i (accepted (offered f i st))))
                     = if decide (f' = f) then alter Z.succ i (counters f (reloc st))
                       else counters f' (reloc st)).
  { intros f'. rewrite relocated_counters.
    change (reloc (accepted (offered f i st))) with (reloc (offered f i st)).
    rewrite Hrel. reflexivity. }
  unfold relocates. split; [exact Hs |]. split; [exact Hi |].
  split; [rewrite Hgd; apply length_alter |]. split.
  { intros f'. rewrite Hc. destruct (decide (f' = f)) as [->|];
      [apply length_alter | reflexivity]. }
  intros f' j Hj. rewrite andb_true_r, Hgd, Hc.
  destruct (bool_decide_reflect (f' = f ∧ j = i)) as [[-> ->]|Hne].
  - rewrite (decide_True (P := f = f)) by reflexivity.
    rewrite !list_lookup_total_alter.
    rewrite decide_True by (split; [reflexivity | exact Hj]).
    rewrite decide_True by (split; [reflexivity | rewrite Hlen; exact Hj]).
    rewrite pointer_set_pointer, decide_True by reflexivity.
    split; reflexivity.
  - split.
    + rewrite list_lookup_total_alter.
      destruct (decide (i = j ∧ (i < length (group_desc (fs st)))%nat)) as [[-> _]|];
        [| reflexivity].
      rewrite pointer_set_pointer, decide_False; [reflexivity |].
      intros ->. apply Hne. auto.
    + destruct (decide (f' = f)) as [->|]; [| reflexivity].
      rewrite list_lookup_total_alter_ne; [reflexivity |].
      intros ->. apply Hne. auto.
Qed.

(** The tests of two different fields are about different pointers. *)
Lemma apart (f1 f2 f : Field) (i j : nat) (b1 b2 : bool) :
  f1 ≠ f2 →
  bool_decide (f = f1 ∧ j = i) && b1 && (bool_decide (f = f2 ∧ j = i) && b2) = false.
Proof.
  intros Hne. destruct (bool_decide_reflect (f = f1 ∧ j = i)) as [[-> ->]|]; [| reflexivity].
  rewrite (bool_decide_eq_false_2 (f1 = f2 ∧ i = i)) by (intros [? _]; contradiction).
  apply andb_false_r.
Qed.

(** The three tests of one turn, when they all return. *)
Lemma relocates_turn i first_block last_block st st3 :
  (check_block_bitmap i first_block last_block
   ≫= λ _, check_inode_bitmap i first_block last_block
   ≫= λ _, check_inode_table i first_block last_block) st = Normal tt st3 →
  (i < length (group_desc (fs st)))%nat →
  (∀ f, length (counters f (reloc st)) = length (group_desc (fs st))) →
  relocates
    (λ f j, bool_decide (j = i)
            && out_of_range f (inode_blocks_per_group (fs st)) (group_desc (fs st) !!! i)
                 first_block last_block)
    st st3.
Proof.
  intros H Hi Hlen.
  inv_bind H. destruct a. rename st0 into st1, Hm into H1.
  inv_bind H. destruct a. rename st0 into st2, Hm into H2.
  apply (relocates_check_field BlockBitmap) in H1; [| apply Hlen].
  pose proof H1 as (Hs1 & Hi1 & Hl1 & Hc1 & Hp1).
  apply (relocates_check_field InodeBitmap) in H2; [| rewrite Hc1, Hl1; apply Hlen].
  pose proof (relocates_then _ _ _ _ _ H1 H2) as H12.
  specialize (H12 ltac:(intros f j; apply apart; discriminate)).
  pose proof H12 as (Hs2 & Hi2 & Hl2 & Hc2 & Hp2).
  apply (relocates_check_field InodeTable) in H; [| rewrite Hc2, Hl2; apply Hlen].
  pose proof (relocates_then _ _ _ _ _ H12 H) as H123.
  specialize (H123 ltac:(intros f j; cbv beta;
                         rewrite andb_orb_distrib_l, !apart by discriminate; reflexivity)).
  eapply relocates_ext; [| exact H123].
  intros f j Hj. cbv beta.
  destruct (bool_decide_reflect (j = i)) as [->|Hne].
  2: { rewrite !bool_decide_eq_false_2 by (intros [_ ?]; contradiction). reflexivity. }
  assert (E1 : pointer InodeBitmap (group_desc (fs st1) !!! i)
               = pointer InodeBitmap (group_desc (fs st) !!! i)).
  { specialize (Hp1 InodeBitmap i Hi). cbv beta in Hp1.
    rewrite bool_decide_eq_false_2 in Hp1 by (intros [? _]; discriminate).
    apply Hp1. }
  assert (E2 : pointer InodeTable (group_desc (fs st2) !!! i)
               = pointer InodeTable (group_desc (fs st) !!! i)).
  { specialize (Hp2 InodeTable i Hi). cbv beta in Hp2.
    rewrite !bool_decide_eq_false_2 in Hp2 by (intros [? _]; discriminate).
    apply Hp2. }
  rewrite Hi1, Hi2.
  rewrite (out_of_range_pointer InodeBitmap _ _ _ _ _ E1).
  rewrite (out_of_range_pointer InodeTable _ _ _ _ _ E2).
  destruct f;
    repeat first [ rewrite bool_decide_eq_true_2 by auto
                 | rewrite bool_decide_eq_false_2 by (intros [? _]; discriminate) ];
    cbn [andb orb]; rewrite ?orb_false_r; reflexivity.
Qed.

(** The loop, when it returns, has relocated the pointers it found out of
    range on the descriptors as they were when it began, and nothing else. *)
Lemma relocates_group_loop n : ∀ i first_block last_block st st',
  group_loop n i first_block last_block st = Normal tt st' →
  (i + n ≤ length (group_desc (fs st)))%nat →
  (∀ f, length (counters f (reloc st)) = length (group_desc (fs st))) →
  relocates (flagged (fs st) n i first_block last_block) st st'.
Proof.
  induction n as [|n IH]; intros i first_block last_block st st' H Hin Hlen;
    unfold group_loop in H; fold group_loop in H.
  - inversion H; subst. eapply relocates_ext; [| apply relocates_nothing].
    intros f j _. unfold flagged. rewrite bool_decide_eq_false_2 by lia. reflexivity.
  - rewrite bind_run in H. simpl in H.
    set (last := group_last_block i last_block (fs st)) in H.
    rewrite turn_then in H.
    destruct ((check_block_bitmap i first_block last
               ≫= λ _, check_inode_bitmap i first_block last
               ≫= λ _, check_inode_table i first_block last) st)
      as [[] st3|why st3] eqn:Eturn; [| discriminate].
    rewrite bind_run in H. simpl in H.
    apply relocates_turn in Eturn; [| lia | exact Hlen].
    pose proof Eturn as (Hs & Hi & Hl & Hc & Hp).
    apply IH in H; [| rewrite Hl; lia | intros f; rewrite Hc, Hl; apply Hlen].
    pose proof (relocates_then _ _ _ _ _ Eturn H) as Hboth.
    specialize (Hboth ltac:(intros f j; unfold flagged;
                            destruct (bool_decide_reflect (j = i)) as [->|];
                            [rewrite bool_decide_eq_false_2 by lia; apply andb_false_r
                            | reflexivity])).
    eapply relocates_ext; [| exact Hboth].
    intros f j Hj. cbv beta. unfold flagged.
    destruct (bool_decide_reflect (j = i)) as [->|Hne].
    + rewrite (bool_decide_eq_false_2 (S i ≤ i < S i + n)%nat) by lia.
      rewrite (bool_decide_eq_true_2 (i ≤ i < i + S n)%nat) by lia.
      rewrite Nat.sub_diag. cbn [andb orb turn_bounds fst snd]. fold last.
      rewrite orb_false_r. reflexivity.
    + cbn [andb orb].
      destruct (bool_decide_reflect (S i ≤ j < S i + n)%nat) as [Hr|Hr].
      * rewrite (bool_decide_eq_true_2 (i ≤ j < i + S n)%nat) by lia. cbn [andb].
        replace (j - i)%nat with (S (j - S i)) by lia. cbn [turn_bounds]. fold last.
        rewrite Hi, Hs.
        rewrite (turn_bounds_same (fs st) (fs st3)) by assumption.
        apply out_of_range_pointer.
        specialize (Hp f j Hj). cbv beta in Hp.
        rewrite bool_decide_eq_false_2 in Hp by exact Hne. apply Hp.
      * rewrite (bool_decide_eq_false_2 (i ≤ j < i + S n)%nat) by lia. reflexivity.
Qed.

(** When [check_super_block] returns, it has relocated exactly the pointers
    that were out of the range of their group: each of them is 0 and its
    counter one higher, every other pointer and counter is as it was, and so
    are the superblock and the number of groups. The range of group [j] is
    the pair of bounds the loop holds at its turn; the counter arrays are
    taken to have a slot for every group, as [main] allocates them. *)
Theorem validation_relocates_what_is_out_of_range (st st' : State) (f : Field) (j : nat) :
  check_super_block st = Normal tt st' →
  (∀ f, length (counters f (reloc st)) = length (group_desc (fs st))) →
  (j < length (group_desc (fs st)))%nat →
  super (fs st') = super (fs st)
  ∧ length (group_desc (fs st')) = length (group_desc (fs st))
  ∧ if out_of_range f (inode_blocks_per_group (fs st)) (group_desc (fs st) !!! j)
         (loop_bounds (fs st) j).1 (loop_bounds (fs st) j).2
    then pointer f (group_desc (fs st') !!! j) = 0
         ∧ counters f (reloc st') !!! j = counters f (reloc st) !!! j + 1
    else pointer f (group_desc (fs st') !!! j) = pointer f (group_desc (fs st) !!! j)
         ∧ counters f (reloc st') !!! j = counters f (reloc st) !!! j.
Proof.
  intros H Hlen Hj.
  apply check_super_block_reaches_loop in H as (_ & _ & st0 & Hloop & Hfs & Hrel & _).
  rewrite <- Hfs in Hloop at 1.
  apply relocates_group_loop in Hloop;
    [| rewrite Hfs; lia | intros f'; rewrite Hrel, Hfs; apply Hlen].
  destruct Hloop as (Hs & _ & Hl & _ & Hp).
  rewrite Hfs in Hs, Hl. split; [exact Hs |]. split; [exact Hl |].
  specialize (Hp f j). rewrite Hfs, Hrel in Hp. specialize (Hp Hj).
  unfold flagged in Hp. rewrite bool_decide_eq_true_2 in Hp by lia.
  rewrite Nat.sub_0_r in Hp. exact Hp.
Qed.

(** A superblock that [check_super_block] lets through is consistent: if
    its fields hold values of their C types, it keeps the nine bounds, its
    fragment size is its block size, a group has as many blocks as
    fragments, the first data block is 1 for 1 KB blocks and 0 for larger
    ones, and the size of the device could be read. The superblock is not
    written. *)
Theorem validation_returns_on_consistent_superblocks_only (st st' : State) :
  check_super_block st = Normal tt st' →
  typed_super (super (fs st)) →
  consistent_superblock (super (fs st))
  ∧ (ext2fs_get_device_size (filesystem_name (opts st)) (EXT2_BLOCK_SIZE (super (fs st)))
       (world st)).1 = 0
  ∧ super (fs st') = super (fs st).
Proof.
  intros H Ht.
  apply check_super_block_reaches_loop in H as (Hc & Hd & st0 & Hloop & Hfs & _).
  split; [exact (Hc Ht) |]. split; [exact Hd |].
  pose proof (group_loop_flags (length (group_desc (fs st))) 0
                (s_first_data_block (super (fs st)))
                (wrap32 (s_first_data_block (super (fs st))
                         + s_blocks_per_group (super (fs st)))) st0) as Hflags.
  rewrite Hloop in Hflags. simpl in Hflags. destruct Hflags as (Hs & _).
  rewrite Hs, Hfs. reflexivity.
Qed.

End Validation.

(** ** Opening the filesystem *)

Section Opening.
Context {X : Externals}.

(** The loop over the block sizes: it stops at the first size for which
    [ext2fs_open] succeeds, and returns the error of the last size if there
    is none. *)
Lemma open_block_sizes_run sb sizes : ∀ retval st,
  ∃ r st2,
    open_block_sizes sb sizes retval st = Normal r st2
    ∧ same_but_handle st st2
    ∧ (∃ l, out st2 = out st ++ l ∧ Forall opening_event l
            ∧ (sizes ≠ [] → Call "ext2fs_open" ∈ l))
    ∧ (sizes ≠ [] → ∃ bs, ext2fs_open (filesystem_name (opts st)) (open_flags (opts st))
                           sb bs (world st) = (r, fs st2))
    ∧ (r = 0 → sizes ≠ [] →
       ∃ l1 bs l2, sizes = l1 ++ bs :: l2 ∧ Forall (open_fails st sb) l1
                   ∧ ext2fs_open (filesystem_name (opts st)) (open_flags (opts st))
                       sb bs (world st) = (0, fs st2)).
Proof.
  induction sizes as [|size rest IH]; intros retval st;
    unfold open_block_sizes; fold open_block_sizes.
  - exists retval, st. split; [reflexivity |]. split; [repeat split |].
    split; [exists []; split; [symmetry; apply app_nil_r |];
            split; [constructor | intros; contradiction] |].
    split; intros; contradiction.
  - rewrite bind_run, open_once_run.
    destruct (ext2fs_open _ _ sb size _) as [r0 h0] eqn:E. simpl.
    set (st1 := set_fs h0 (add_event (Call "ext2fs_open") st)).
    destruct (truthy r0) eqn:Er0.
    + apply truthy_true in Er0.
      destruct (IH r0 st1)
        as (r & st2 & Hrun & Hsame & (l & Hout & Hl & _) & Hlast & Hfirst).
      exists r, st2. split; [exact Hrun |].
      split; [destruct Hsame as (? & ? & ? & ?); repeat split; assumption |].
      split.
      { exists (Call "ext2fs_open" :: l). split; [| split].
        - rewrite Hout. simpl. rewrite <- app_assoc. reflexivity.
        - constructor; [right; right; reflexivity | exact Hl].
        - intros _. apply list_elem_of_here. }
      split.
      { intros _. destruct rest as [|size' rest'].
        - unfold open_block_sizes in Hrun. injection Hrun as <- <-.
          exists size. exact E.
        - destruct Hlast as (bs & Hbs); [discriminate |]. exists bs. exact Hbs. }
      intros Hr _. destruct rest as [|size' rest'].
      * unfold open_block_sizes in Hrun. injection Hrun as <- <-. contradiction.
      * destruct (Hfirst Hr) as (l1 & bs & l2 & Hsizes & Hfail & Hbs); [discriminate |].
        exists (size :: l1), bs, l2. split; [rewrite Hsizes; reflexivity |].
        split; [| exact Hbs].
        constructor; [unfold open_fails; rewrite E; exact Er0 | exact Hfail].
    + apply truthy_false in Er0. subst r0.
      exists 0, st1. split; [reflexivity |]. split; [repeat split |].
      split; [exists [Call "ext2fs_open"]; split; [reflexivity |]; split;
              [constructor; [right; right; reflexivity | constructor]
              | intros _; apply list_elem_of_here] |].
      split; [intros _; exists size; exact E |].
      intros _ _. exists [], size, rest. split; [reflexivity |].
      split; [constructor | exact E].
Qed.

(** The block size [bs] is the one [main] opens the filesystem with, given
    the options: the one of -B if -b was given as well, the first of
    [possible_block_sizes] that works if only -b was given, and 0 without
    -b, whatever -B says. *)
Lemma open_attempt_run st0 :
  let o := opts st0 in
  ∃ r st2,
    (if truthy (superblock o) && truthy (blocksize o) then
       open_once (superblock o) (blocksize o)
     else if truthy (superblock o) then
       open_block_sizes (superblock o) possible_block_sizes 0
     else open_once 0 0) st0 = Normal r st2
    ∧ same_but_handle st0 st2
    ∧ (∃ l, out st2 = out st0 ++ l ∧ Forall opening_event l ∧ Call "ext2fs_open" ∈ l)
    ∧ ∃ bs,
        ext2fs_open (filesystem_name o) (open_flags o) (superblock o) bs (world st0)
        = (r, fs st2)
        ∧ (superblock o = 0 → bs = 0)
        ∧ (superblock o ≠ 0 → blocksize o ≠ 0 → bs = blocksize o)
        ∧ (superblock o ≠ 0 → blocksize o = 0 → r = 0 →
           ∃ l1 l2, possible_block_sizes = l1 ++ bs :: l2
                    ∧ Forall (open_fails st0 (superblock o)) l1).
Proof.
  intros o.
  assert (Hone : ∃ l, out (add_event (Call "ext2fs_open") st0) = out st0 ++ l
                      ∧ Forall opening_event l ∧ Call "ext2fs_open" ∈ l).
  { exists [Call "ext2fs_open"]. split; [reflexivity |]. split.
    - constructor; [right; right; reflexivity | constructor].
    - apply list_elem_of_here. }
  destruct (truthy (superblock o)) eqn:Esb; simpl.
  - apply truthy_true in Esb. destruct (truthy (blocksize o)) eqn:Ebs.
    + apply truthy_true in Ebs. rewrite open_once_run. fold o.
      destruct (ext2fs_open _ _ _ _ _) as [r h] eqn:E. simpl.
      exists r, (set_fs h (add_event (Call "ext2fs_open") st0)).
      split; [reflexivity |]. split; [repeat split |]. split; [exact Hone |].
      exists (blocksize o). split; [exact E |].
      split; [intros; contradiction |]. split; [reflexivity | intros; contradiction].
    + apply truthy_false in Ebs.
      destruct (open_block_sizes_run (superblock o) possible_block_sizes 0 st0)
        as (r & st2 & Hrun & Hsame & (l & Hout & Hl & Hcall) & Hlast & Hfirst).
      exists r, st2. split; [exact Hrun |]. split; [exact Hsame |].
      split; [exists l; split; [exact Hout |]; split; [exact Hl |]; apply Hcall; discriminate |].
      destruct (Z.eq_dec r 0) as [->|Hr].
      * destruct Hfirst as (l1 & bs & l2 & Hsizes & Hfail & Hbs);
          [reflexivity | discriminate |].
        exists bs. split; [exact Hbs |]. split; [intros; contradiction |].
        split; [intros; contradiction |]. intros _ _ _. exists l1, l2. auto.
      * destruct Hlast as (bs & Hbs); [discriminate |].
        exists bs. split; [exact Hbs |]. split; [intros; contradiction |].
        split; intros; contradiction.
  - apply truthy_false in Esb. rewrite open_once_run. fold o. rewrite Esb.
    destruct (ext2fs_open _ _ _ _ _) as [r h] eqn:E. simpl.
    exists r, (set_fs h (add_event (Call "ext2fs_open") st0)).
    split; [reflexivity |]. split; [repeat split |]. split; [exact Hone |].
    exists 0. split; [exact E |].
    split; [reflexivity |]. split; intros; contradiction.
Qed.

(** When the part of [main] between the label [restart] and the call of
    [check_super_block] returns, the handle is one [ext2fs_open] gave without
    error for the superblock of -b (0 without -b); the block size it was
    opened with is the one of -B if -b was given too, the first of 1024,
    2048, 4096, 8192 that [ext2fs_open] accepts if only -b was given, and 0
    without -b, whatever -B says; and its revision is not above the one this
    e2fsck knows, where EXT2_CURRENT_REV is defined. *)
Theorem open_filesystem_returns_a_supported_handle (st st1 : State) :
  open_filesystem st = Normal tt st1 →
  let o := opts st in
  ∃ bs h,
    ext2fs_open (filesystem_name o) (open_flags o) (superblock o) bs (world st) = (0, h)
    ∧ super (fs st1) = super h ∧ group_desc (fs st1) = group_desc h
    ∧ (superblock o = 0 → bs = 0)
    ∧ (superblock o ≠ 0 → blocksize o ≠ 0 → bs = blocksize o)
    ∧ (superblock o ≠ 0 → blocksize o = 0 →
       ∃ l1 l2, possible_block_sizes = l1 ++ bs :: l2
                ∧ Forall (open_fails st (superblock o)) l1)
    ∧ (∀ current, E2FSCK_CURRENT_REV = Some current → s_rev_level (super h) ≤ current).
Proof.
  intros H o. unfold open_filesystem in H. repeat inv_bind H.
  match goal with Hs : sync_disks _ = _ |- _ => unfold sync_disks in Hs; step_in Hs end.
  match goal with Hs : gets opts _ = _ |- _ => step_in Hs end.
  set (st0 := add_event (Call "sync") (add_event (Call "sleep")
                (add_event (Call "sync") (add_event (Call "sync") st)))) in *.
  destruct (open_attempt_run st0) as (r & st2 & Hrun & Hsame & _ & bs & Hbs & H0 & HB & Hprobe).
  change (opts st0) with (opts st) in *. change (world st0) with (world st) in *.
  fold o in Hrun, Hbs, H0, HB, Hprobe, Hm1.
  rewrite Hrun in Hm1. injection Hm1 as <- <-.
  destruct (truthy r) eqn:Er; [never_returns Hm2 | step_in Hm2].
  apply truthy_false in Er. subst r.
  exists bs, (fs st4). split; [exact Hbs |].
  assert (Hrev : fs st5 = fs st4
                 ∧ ∀ current, E2FSCK_CURRENT_REV = Some current →
                              s_rev_level (super (fs st4)) ≤ current).
  { destruct E2FSCK_CURRENT_REV as [current|].
    - inv_bind Hm3. step_in Hm.
      destruct (s_rev_level (super (fs st2)) >? current) eqn:Erev;
        [never_returns Hm3 | step_in Hm3].
      split; [reflexivity |]. intros c [= <-].
      rewrite Z.gtb_ltb in Erev. apply Z.ltb_ge in Erev. exact Erev.
    - step_in Hm3. split; [reflexivity | discriminate]. }
  destruct Hrev as (Hfs5 & Hrev).
  assert (Hfs6 : super (fs st6) = super (fs st5) ∧ group_desc (fs st6) = group_desc (fs st5)).
  { destruct (truthy (superblock (opts st)) && truthy (rwflag (opts st)));
      unfold ext2fs_mark_super_dirty in Hm4; step_in Hm4; split; reflexivity. }
  step_in Hm5. step_in Hm6. step_in Hm7. step_in Hm8. step_in H. simpl.
  destruct Hfs6 as (-> & ->). rewrite Hfs5.
  split; [reflexivity |]. split; [reflexivity |]. split; [exact H0 |]. split; [exact HB |].
  split; [| exact Hrev].
  intros Hsb Hbz. apply Hprobe; auto.
Qed.

(** If the filesystem cannot be opened, the round ends there: [main] leaves
    through [fatal_error(0)] and never calls [check_super_block]. What it
    has written since the label [restart] are the calls of [sync], [sleep]
    and [ext2fs_open], then the [com_err] line "while trying to open" with
    the error code, then one line of advice. The code is the error of the
    last [ext2fs_open], or EXT2_ET_REV_TOO_HIGH when the open succeeded on a
    revision this e2fsck does not know. Options, counters, run state and
    world are as they were. *)
Theorem open_failure_is_fatal (st : State) (why : Stop) (st' : State) :
  open_filesystem st = Stopped why st' →
  let o := opts st in
  why = FatalError None
  ∧ round st = Stopped (FatalError None) st'
  ∧ same_but_handle st st'
  ∧ ∃ l code advice,
      out st' = out st ++ l
                ++ [ComErr (program_name o) code "while trying to open %s"
                      [show (filesystem_name o)]; advice]
      ∧ Forall opening_event l
      ∧ ((code ≠ 0
          ∧ ∃ bs, ext2fs_open (filesystem_name o) (open_flags o) (superblock o) bs (world st)
                  = (code, fs st'))
         ∨ (code = EXT2_ET_REV_TOO_HIGH
            ∧ advice = Printf "Get a newer version of e2fsck!\n" []
            ∧ ∃ current, E2FSCK_CURRENT_REV = Some current
                         ∧ current < s_rev_level (super (fs st')))).
Proof.
  intros H o. unfold round. rewrite (bind_stopped _ _ _ _ _ H).
  unfold open_filesystem, sync_disks in H. exec_in H.
  set (st0 := add_event (Call "sync") (add_event (Call "sleep")
                (add_event (Call "sync") (add_event (Call "sync") st)))) in *.
  destruct (open_attempt_run st0)
    as (r & st2 & Hrun & Hsame & (l & Hout & Hl & _) & bs & Hbs & _).
  change (opts st0) with (opts st) in *. change (world st0) with (world st) in *.
  fold o in Hbs. rewrite Hrun in H. clear Hrun.
  assert (Hl0 : ∃ l', out st2 = out st ++ l' ∧ Forall opening_event l').
  { exists ([Call "sync"; Call "sync"; Call "sleep"; Call "sync"] ++ l). split.
    - rewrite Hout. unfold st0. simpl. rewrite <- !app_assoc. reflexivity.
    - apply Forall_app. split; [| exact Hl].
      repeat (constructor; [unfold opening_event; auto |]). constructor. }
  clear l Hout Hl. destruct Hl0 as (l & Hout & Hl).
  assert (Hsame' : same_but_handle st st2) by exact Hsame.
  destruct (truthy r) eqn:Er.
  - apply truthy_true in Er.
    assert (Hstop : ∃ advice,
              Stopped (A:=unit) why st'
              = Stopped (FatalError None)
                  (add_event advice
                     (add_event (ComErr (program_name (opts st)) r "while trying to open %s"
                                   [show (filesystem_name (opts st))]) st2))).
    { rewrite <- H.
      repeat match goal with
             | |- context [if ?b then _ else _] => destruct b; simpl
             end; eexists; reflexivity. }
    clear H. destruct Hstop as (advice & [= -> ->]).
    split; [reflexivity |]. split; [reflexivity |].
    split; [destruct Hsame' as (? & ? & ? & ?); repeat split; assumption |].
    exists l, r, advice. split; [simpl; rewrite Hout, <- !app_assoc; reflexivity |].
    split; [exact Hl |]. left. split; [exact Er |]. exists bs. exact Hbs.
  - destruct E2FSCK_CURRENT_REV as [current|] eqn:Ecur.
    + destruct (s_rev_level (super (fs st2)) >? current) eqn:Erev.
      * injection H as <- <-.
        split; [reflexivity |]. split; [reflexivity |].
        split; [destruct Hsame' as (? & ? & ? & ?); repeat split; assumption |].
        exists l, EXT2_ET_REV_TOO_HIGH, (Printf "Get a newer version of e2fsck!\n" []).
        split; [simpl; rewrite Hout, <- !app_assoc; reflexivity |].
        split; [exact Hl |]. right. split; [reflexivity |]. split; [reflexivity |].
        exists current. split; [reflexivity |].
        rewrite Z.gtb_ltb in Erev. apply Z.ltb_lt in Erev. exact Erev.
      * exfalso. destruct (truthy (superblock (opts st)) && truthy (rwflag (opts st)));
          discriminate H.
    + exfalso. destruct (truthy (superblock (opts st)) && truthy (rwflag (opts st)));
        discriminate H.
Qed.

End Opening.

(** ** A round from end to end *)

Section Rounds.
Context {X : Externals}.

Ltac traces :=
  first
    [ exact extends_refl | exact extends_trans | exact extends_emit
    | exact extends_silent | exact extends_hint | exact extends_skip ].

Lemma extends_returned {A} (m : M A) st a st' :
  extends st (state_of (m st)) → m st = Normal a st' → ∃ l, out st' = out st ++ l.
Proof. intros H E. rewrite E in H. exact H. Qed.

Lemma open_filesystem_calls st st0 :
  open_filesystem st = Normal tt st0 →
  ∃ l1 l2, out st0 = out st ++ l1 ++ Call "ext2fs_open" :: l2.
Proof.
  intros H. unfold open_filesystem in H. repeat inv_bind H.
  match goal with Hs : sync_disks _ = _ |- _ => unfold sync_disks in Hs; step_in Hs end.
  match goal with Hs : gets opts _ = _ |- _ => step_in Hs end.
  set (st0' := add_event (Call "sync") (add_event (Call "sleep")
                 (add_event (Call "sync") (add_event (Call "sync") st)))) in *.
  destruct (open_attempt_run st0') as (r & st2 & Hrun & _ & (l & Hout & _ & Hcall) & _).
  change (opts st0') with (opts st) in *.
  rewrite Hrun in Hm1. injection Hm1 as <- <-.
  destruct (truthy r); [never_returns Hm2 | step_in Hm2].
  assert (Hrev : st5 = st4).
  { destruct E2FSCK_CURRENT_REV as [current|].
    - inv_bind Hm3. step_in Hm.
      destruct (_ >? current); [never_returns Hm3 | step_in Hm3]. reflexivity.
    - step_in Hm3. reflexivity. }
  subst st5.
  assert (Hdirty : ∃ l', out st6 = out st4 ++ l').
  { destruct (truthy (superblock (opts st)) && truthy (rwflag (opts st)));
      unfold ext2fs_mark_super_dirty in Hm4; step_in Hm4; simpl.
    - eexists [_]. reflexivity.
    - exists []. symmetry. apply app_nil_r. }
  destruct Hdirty as (l' & Hout').
  step_in Hm5. step_in Hm6. step_in Hm7. step_in Hm8. step_in H. simpl.
  apply list_elem_of_split in Hcall as (la & lb & ->).
  exists ([Call "sync"; Call "sync"; Call "sleep"; Call "sync"] ++ la),
         (lb ++ l' ++ [Call "ehandler_init"]).
  rewrite Hout', Hout. unfold st0'. simpl. rewrite <- !app_assoc. reflexivity.
Qed.

Lemma finalize_calls st v st' :
  finalize st = Normal v st' →
  ∃ la lb lc,
    out st' = out st ++ la ++ Call "show_stats"
                :: lb ++ Call "write_bitmaps" :: Call "ext2fs_close" :: lc.
Proof.
  intros H. rewrite finalize_run in H.
  assert (Hb : ∃ la, out (before_stats st) = out st ++ la ++ [Call "show_stats"]).
  { unfold before_stats.
    destruct (modified (run st) && negb (truthy (preen (opts st))));
      destruct (truthy (rwflag (opts st))); simpl;
      [eexists [_; _] | eexists [_] | eexists [_] | exists []];
      simpl; rewrite <- ?app_assoc; reflexivity. }
  destruct Hb as (la & Hb).
  assert (Hs : extends (before_stats st) (state_of (show_stats (before_stats st))))
    by (apply (preserves_show_stats extends); traces).
  destruct (show_stats (before_stats st)) as [[] st1|]; [| discriminate].
  destruct Hs as (lb & Hs). cbn [state_of] in Hs.
  exists la, lb.
  destruct (truthy (tflag (opts st))); injection H as _ <-; simpl;
    rewrite Hs, Hb; [eexists [_; _; _; _; _] | eexists [_; _; _; _]];
    simpl; rewrite <- !app_assoc; simpl; reflexivity.
Qed.

Lemma call_out fn st a st' : call fn st = Normal a st' → out st' = out st ++ [Call fn].
Proof. intros H. step_in H. reflexivity. Qed.

Lemma run_external_out fn p st a st' :
  run_external fn p st = Normal a st' → out st' = out st ++ [Call fn].
Proof. unfold run_external. intros H. step_in H. reflexivity. Qed.

Lemma gets_out {A} (f : State → A) st a st' : gets f st = Normal a st' → st' = st.
Proof. intros H. step_in H. reflexivity. Qed.


(** With read-write mode off, the end of [main] leaves the handle as it
    found it: the block under [if (rwflag)] is the only place where it
    writes to the superblock. *)
Lemma finalize_read_only st v st' :
  finalize st = Normal v st' → rwflag (opts st) = 0 → fs st' = fs st.
Proof.
  intros H Hrw. rewrite finalize_run in H.
  assert (Hb : fs (before_stats st) = fs st).
  { unfold before_stats. rewrite Hrw. simpl.
    destruct (modified (run st) && negb (truthy (preen (opts st)))); reflexivity. }
  pose proof (show_stats_frame (before_stats st)) as (Hfs & _).
  destruct (show_stats (before_stats st)) as [[] st1|]; [| discriminate].
  cbn [state_of] in Hfs.
  destruct (truthy (tflag (opts st))); injection H as _ <-; simpl; rewrite Hfs; exact Hb.
Qed.

(** A run that returns has come through [PRS] and past the test of
    [show_version_only]. *)
Lemma main_returned_options n cmd pis w v st' :
  main n cmd pis w = Returned v st' →
  ∃ st1,
    PRS cmd (add_event (Call "PRS")
               (add_event (Call "init_resource_track") (initial_state pis w)))
    = Normal tt st1
    ∧ show_version_only (opts st1) = 0
    ∧ opts st' = opts st1.
Proof.
  intros H. pose proof (main_opts n cmd pis w) as Hopts. rewrite H in Hopts. simpl in Hopts.
  unfold main in H.
  destruct (prologue cmd (initial_state pis w)) as [[] stp|] eqn:Ep; [| discriminate].
  unfold prologue in Ep. inv_bind Ep. clear Ep H.
  unfold startup in Hm. do 3 inv_bind Hm.
  repeat match goal with
         | Hc : call _ _ = Normal _ _ |- _ => step_in Hc
         end.
  match goal with Hp : PRS cmd _ = Normal ?u ?s1 |- _ =>
    destruct u; exists s1; rewrite Hp in Hopts; split; [exact Hp |]; split; [| exact Hopts]
  end.
  unfold banner_and_mount in Hm. inv_bind Hm.
  match goal with Hg : gets opts _ = Normal _ _ |- _ => step_in Hg end.
  inv_bind Hm. inv_bind Hm.
  match goal with
  | Hv : (if truthy ?x then _ else _) _ = Normal _ _ |- _ =>
      destruct (truthy x) eqn:Ev; [discriminate Hv |]
  end.
  apply truthy_false in Ev. exact Ev.
Qed.


End Rounds.

(** ** The ranges of the groups *)

Section Tiling.
Context {X : Externals}.

(** The ranges the loop tests the groups against tile the volume: the
    first begins at the first data block, each of the others where the one
    before it ends, the last ends at the block count, and none is turned
    over. So a block lies in the range of at most one group. *)
Theorem group_ranges_tile_the_volume (fs : ext2_filsys) (j : nat) :
  geometry_fits fs →
  (j < length (group_desc fs))%nat →
  (j = 0%nat → (loop_bounds fs j).1 = s_first_data_block (super fs))
  ∧ ((S j < length (group_desc fs))%nat → (loop_bounds fs j).2 = (loop_bounds fs (S j)).1)
  ∧ (S j = length (group_desc fs) → (loop_bounds fs j).2 = s_blocks_count (super fs))
  ∧ (loop_bounds fs j).1 ≤ (loop_bounds fs j).2.
Proof.
  intros Hgeo Hj. rewrite loop_bounds_range by assumption. simpl.
  pose proof Hgeo as (Hf & Hbpg & Hcount & Hfit).
  unfold group_last, group_first, group_desc_count in *.
  split; [intros ->; simpl; lia |].
  split.
  { intros HS. rewrite loop_bounds_range by assumption. simpl. unfold group_first.
    rewrite Nat2Z.inj_succ.
    destruct (Z.eqb_spec (Z.of_nat j) (Z.of_nat (length (group_desc fs)) - 1)); lia. }
  split.
  { intros HS. destruct (Z.eqb_spec (Z.of_nat j) (Z.of_nat (length (group_desc fs)) - 1)); lia. }
  destruct (Z.eqb_spec (Z.of_nat j) (Z.of_nat (length (group_desc fs)) - 1)) as [E|E].
  - rewrite E. exact Hfit.
  - lia.
Qed.

End Tiling.

Section Converse.
Context {X : Externals}.

(** A pointer the loop lets pass lies in its group: with a geometry that
    fits, a pointer of group [j] that is not found out of range with the
    bounds the loop holds is inside the block range of the group, and so is
    the whole inode table, provided its extent does not run over the 32
    bits the sum is taken in. *)
Theorem pointers_that_pass_are_in_range (f : Field) (fs : ext2_filsys) (j : nat) :
  geometry_fits fs →
  (j < length (group_desc fs))%nat →
  (f = InodeTable →
   1 ≤ inode_blocks_per_group fs
   ∧ bg_inode_table (group_desc fs !!! j) + inode_blocks_per_group fs - 1 < 2 ^ 32) →
  out_of_range f (inode_blocks_per_group fs) (group_desc fs !!! j)
    (loop_bounds fs j).1 (loop_bounds fs j).2 = false →
  in_group_range f fs j.
Proof.
  intros Hgeo Hj Hext Hout. rewrite loop_bounds_range in Hout by assumption. simpl in Hout.
  destruct (group_range_32bit fs j Hgeo Hj) as (Hfirst & Hlast).
  unfold in_group_range.
  destruct f; simpl in Hout; apply orb_false_iff in Hout as [Hlo Hhi];
    apply Z.ltb_ge in Hlo; rewrite Z.geb_leb in Hhi; apply Z.leb_gt in Hhi.
  - lia.
  - lia.
  - destruct Hext as (Hibpg & Hfit); [reflexivity |].
    unfold wrap32 in Hhi. rewrite Z.mod_small in Hhi by lia. lia.
Qed.

End Converse.

(** ** A sound volume *)

Section Silent.
Context {X : Externals}.

(** A loop none of whose tests fails returns at once, in the state it was
    entered in. *)
Lemma group_loop_silent n : ∀ i first_block last_block st,
  (∀ f k, (k < n)%nat →
     out_of_range f (inode_blocks_per_group (fs st)) (group_desc (fs st) !!! (i + k)%nat)
       (turn_bounds (fs st) k i first_block last_block).1
       (turn_bounds (fs st) k i first_block last_block).2 = false) →
  group_loop n i first_block last_block st = Normal tt st.
Proof.
  induction n as [|n IH]; intros i first_block last_block st Hin;
    unfold group_loop; fold group_loop; [reflexivity |].
  rewrite bind_run. simpl.
  set (last := group_last_block i last_block (fs st)).
  assert (H0 : ∀ f, check_field f i first_block last st = Normal tt st).
  { intros f. rewrite check_field_run.
    specialize (Hin f 0%nat ltac:(lia)). rewrite Nat.add_0_r in Hin. simpl in Hin.
    fold last in Hin. rewrite Hin. reflexivity. }
  pose proof (H0 BlockBitmap) as Hb. pose proof (H0 InodeBitmap) as Hi.
  pose proof (H0 InodeTable) as Ht. simpl in Hb, Hi, Ht.
  rewrite turn_then.
  rewrite bind_run, Hb, bind_run, Hi, Ht.
  rewrite bind_run. simpl. apply IH.
  intros f k Hk. specialize (Hin f (S k) ltac:(lia)). simpl in Hin. fold last in Hin.
  replace (S i + k)%nat with (i + S k)%nat by lia. exact Hin.
Qed.

(** Validation is silent on a sound volume: if the superblock is
    consistent, its fields holding values of their C types, the device is
    not smaller than the superblock says and every pointer lies in the block
    range of its group, [check_super_block] returns without a word and
    without touching anything. *)
Theorem sound_volume_passes_validation_untouched (st : State) :
  typed_super (super (fs st)) →
  consistent_superblock (super (fs st)) →
  geometry_fits (fs st) →
  (∃ size, ext2fs_get_device_size (filesystem_name (opts st))
             (EXT2_BLOCK_SIZE (super (fs st))) (world st) = (0, size)
           ∧ s_blocks_count (super (fs st)) ≤ size) →
  (∀ f j, (j < length (group_desc (fs st)))%nat → in_group_range f (fs st) j) →
  check_super_block st = Normal tt st.
Proof.
  intros Ht Hc Hgeo Hdev Hin. rewrite check_super_block_on_consistent by assumption.
  apply group_loop_silent.
  intros f k Hk. rewrite Nat.add_0_l.
  change (turn_bounds (fs st) k 0 _ _) with (loop_bounds (fs st) k).
  rewrite loop_bounds_range by assumption. simpl.
  apply in_range_passes_test; auto.
Qed.

End Silent.

(** ** The usage line *)

Section Usage.
Context {X : Externals}.

(** Without -V, [show_version_only] stays as it is. *)
Lemma PRS_loop_no_version l : ∀ flush st flush' st',
  PRS_loop l flush st = Normal flush' st' →
  Forall (λ p, p.1 ≠ "V"%char) l →
  show_version_only (opts st') = show_version_only (opts st).
Proof.
  induction l as [|[c optarg] l IH]; intros flush st flush' st' H HV;
    unfold PRS_loop in H; fold PRS_loop in H.
  - inversion H; reflexivity.
  - inv_bind H. inversion HV as [|? ? Hc Hl]; subst. simpl in Hc.
    apply PRS_case_returns in Hm as (_ & _ & _ & _ & _ & Hv & _).
    rewrite (IH _ _ _ _ H Hl), Hv.
    destruct (Ascii.eqb_spec c "V"); [contradiction | reflexivity].
Qed.

(** A command line of known options that does not name exactly one device
    ends in [usage]: unless -V was given, [PRS] prints the usage line with
    the program name and leaves with [FSCK_USAGE], having changed nothing
    but the options. *)
Theorem wrong_number_of_devices_gives_usage (cmd : Cmdline) (st : State) :
  Forall (λ p, known_option p.1 = true) (options cmd) →
  (have_BLKFLSBUF = false → Forall (λ p, p.1 ≠ "F"%char) (options cmd)) →
  Forall (λ p, p.1 ≠ "V"%char) (options cmd) →
  show_version_only (opts st) = 0 →
  length (operands cmd) ≠ 1%nat →
  ∃ st1, PRS cmd st = Stopped (Exit FSCK_USAGE) (usage_report st1)
         ∧ same_but_opts st st1.
Proof.
  intros Hk HF HV Hv Hops.
  destruct (PRS_loop_known (options cmd) 0 (named cmd st) Hk HF) as (flush & st2 & Hloop).
  pose proof (PRS_loop_no_version _ _ _ _ _ Hloop HV) as Hv2.
  pose proof (PRS_run cmd st) as Hrun. rewrite Hloop in Hrun.
  assert (Hn : show_version_only (opts (named cmd st)) = 0)
    by (unfold named; destruct (argv0 cmd); exact Hv).
  rewrite Hn in Hv2. rewrite Hv2 in Hrun. simpl in Hrun.
  apply PRS_loop_returns in Hloop as (_ & _ & _ & _ & _ & _ & Hs).
  exists st2. split.
  - destruct (operands cmd) as [|device [|]];
      [rewrite Hrun; apply usage_run | simpl in Hops; contradiction
      | rewrite Hrun; apply usage_run].
  - eapply same_but_opts_trans; [apply named_frame | exact Hs].
Qed.

End Usage.

(** ** The name of the device *)

Section DeviceName.
Context {X : Externals}.

(** Where a loop over options without one of the letters [sets] leaves a
    setting only they write. *)
Lemma PRS_loop_unset {V} (get : Options → V) (sets : ascii → bool) (value : ascii → string → V) :
  (∀ c optarg flush st flush' st',
     PRS_case c optarg flush st = Normal flush' st' →
     get (opts st') = if sets c then value c optarg else get (opts st)) →
  ∀ l flush st flush' st',
    PRS_loop l flush st = Normal flush' st' →
    Forall (λ p, sets p.1 = false) l →
    get (opts st') = get (opts st).
Proof.
  intros Hcase l. induction l as [|[c optarg] l IH]; intros flush st flush' st' H Hl;
    unfold PRS_loop in H; fold PRS_loop in H.
  - inversion H; reflexivity.
  - inv_bind H. inversion Hl as [|? ? Hc Hl']; subst. simpl in Hc.
    apply Hcase in Hm. rewrite Hc in Hm. rewrite <- Hm. eapply IH; eassumption.
Qed.

(** The name the messages use: when [PRS] returns without -V, [device_name]
    is the argument of the last -N among the options, and without any -N it
    is the device itself, as [filesystem_name] is. *)
Theorem device_name_is_the_last_N_or_the_device (cmd : Cmdline) (st st' : State) :
  PRS cmd st = Normal tt st' →
  show_version_only (opts st') = 0 →
  (Forall (λ p, (p.1 =? "N")%char = false) (options cmd) →
   device_name (opts st) = None →
   device_name (opts st') = filesystem_name (opts st'))
  ∧ (∀ l1 name l2,
       options cmd = l1 ++ ("N"%char, name) :: l2 →
       Forall (λ p, (p.1 =? "N")%char = false) l2 →
       device_name (opts st') = Some name).
Proof.
  intros H Hv. apply PRS_returns in H as (flush & st2 & Hloop & Hst').
  destruct Hst' as [(Hv2 & ->)|(_ & device & _ & ->)]; [contradiction |].
  destruct (settled_frame device (opts st2)) as (_ & _ & _ & _ & _ & _ & _ & Hf & Hd & _).
  simpl. rewrite Hf, Hd.
  assert (Hcase : ∀ c optarg flush st flush' st',
            PRS_case c optarg flush st = Normal flush' st' →
            device_name (opts st')
            = if (c =? "N")%char then (λ _ optarg, Some optarg) c optarg
              else device_name (opts st)).
  { intros c optarg f0 s0 f1 s1 Hc. apply PRS_case_returns in Hc. apply Hc. }
  split.
  - intros HN Hnone.
    rewrite (PRS_loop_unset device_name (λ c, (c =? "N")%char) (λ _ optarg, Some optarg)
               Hcase _ _ _ _ _ Hloop HN).
    destruct (named_frame cmd st) as (_ & _ & _ & _ & _ & _ & Hdn & _).
    rewrite Hdn, Hnone. reflexivity.
  - intros l1 name l2 Hopts HN. rewrite Hopts in Hloop.
    rewrite (PRS_loop_last device_name (λ c, (c =? "N")%char) (λ _ optarg, Some optarg)
               Hcase _ _ _ _ _ _ _ _ Hloop eq_refl HN).
    reflexivity.
Qed.

End DeviceName.

(** ** The further properties at work *)

Section Instances.

Ltac by_running :=
  vm_compute;
  first [ reflexivity | discriminate | (let H := fresh in intros H; discriminate H) ].

(** C8 at a run without options and without terminal, on the clean volume,
    which is not mounted. *)
Lemma C8_witness :
  main 1 (cmdline []) 0 (toy_world good_gd false 0)
  = Terminated (Die "need terminal for interactive repairs")
      (add_events [banner; Call "check_mount"] (after_PRS (toy_world good_gd false 0))).
Proof.
  destruct (@C8_interactive_run_needs_terminal toy 1 (cmdline []) 0
              (toy_world good_gd false 0) (after_PRS (toy_world good_gd false 0)))
    as (_ & _ & H);
    [by_running | by_running | by_running | by_running | by_running | by_running |].
  assert (Hm : seen_mounted (after_PRS (toy_world good_gd false 0)) = false)
    by (vm_compute; reflexivity).
  rewrite Hm in H. exact H.
Defined.

(** An interactive run without terminal on the volume with the misplaced
    block bitmap is aborted: no question is put, no default answer is taken
    and the filesystem is not opened. *)
Lemma C8_no_terminal_aborts :
  ∃ st,
    main 5 (cmdline []) 0 (toy_world bad_gd false 0)
    = Terminated (Die "need terminal for interactive repairs") st
    ∧ out st =
      [Call "init_resource_track"; Call "PRS";
       Eprintf "e2fsck %s, %s for EXT2 FS %s, %s\n"
         [ArgS "1.02"; ArgS "16-Jan-96"; ArgS "0.5b"; ArgS "95/08/09"];
       Call "check_mount"]
    ∧ fs st = no_fs.
Proof.
  eexists. repeat split; vm_compute; reflexivity.
Defined.

(** -p -n -y: the run is in always-yes mode. *)
Lemma last_mode_option_wins_witness :
  modes (opts (state_of (PRS three_modes before_PRS))) = mode_of "y".
Proof.
  apply (last_mode_option_wins three_modes
           [("p"%char, EmptyString); ("n"%char, EmptyString)] [("f"%char, EmptyString)]
           "y" EmptyString before_PRS).
  - reflexivity.
  - reflexivity.
  - repeat constructor.
  - by_running.
Defined.

(** -t -c -t -L bad -c -c: two, three and one. *)
Lemma repeated_options_are_counted_witness :
  tflag (opts (state_of (PRS counted_options before_PRS)))
  = tflag (opts before_PRS) + occurrences "t" (options counted_options)
  ∧ cflag (opts (state_of (PRS counted_options before_PRS)))
    = cflag (opts before_PRS) + occurrences "c" (options counted_options)
  ∧ replace_bad_blocks (opts (state_of (PRS counted_options before_PRS)))
    = replace_bad_blocks (opts before_PRS) + occurrences "L" (options counted_options).
Proof.
  apply (repeated_options_are_counted counted_options before_PRS). by_running.
Defined.

(** -l first -L second: the file is the second one. *)
Lemma last_bad_blocks_file_wins_witness :
  bad_blocks_file (opts (state_of (PRS two_bad_blocks_files before_PRS))) = Some "second".
Proof.
  apply (last_bad_blocks_file_wins two_bad_blocks_files
           [("l"%char, "first")] [("f"%char, EmptyString)] "L" "second" before_PRS).
  - reflexivity.
  - reflexivity.
  - repeat constructor.
  - by_running.
Defined.

(** -p -n -y -f with one device is well formed. *)
Lemma PRS_returns_on_well_formed_command_lines_witness :
  Forall (λ p, known_option p.1 = true) (options three_modes)
  ∧ same_but_opts before_PRS (state_of (PRS three_modes before_PRS))
  ∧ (show_version_only (opts (state_of (PRS three_modes before_PRS))) ≠ 0
     ∨ ∃ device, operands three_modes = [device]
                 ∧ filesystem_name (opts (state_of (PRS three_modes before_PRS)))
                   = Some device
                 ∧ device_name (opts (state_of (PRS three_modes before_PRS))) ≠ None).
Proof.
  apply (PRS_returns_on_well_formed_command_lines three_modes before_PRS). by_running.
Defined.

(** -Z is not an option: the run ends with the usage line. *)
Lemma PRS_exits_have_their_causes_witness :
  let st' := state_of (PRS (cmdline ["p"; "Z"]%char) before_PRS) in
  ∃ st1, same_but_opts before_PRS st1 ∧ st' = usage_report st1.
Proof.
  refine (proj1 (proj2 (PRS_exits_have_their_causes (cmdline ["p"; "Z"]%char) before_PRS
                          (Exit FSCK_USAGE)
                          (state_of (PRS (cmdline ["p"; "Z"]%char) before_PRS)) _))
            eq_refl).
  by_running.
Defined.

(** -n alone puts the run in read-only mode. *)
Lemma rwflag_is_cleared_for_plain_n_only_witness :
  rwflag (opts (state_of (PRS (cmdline ["n"%char]) before_PRS)))
  = if plain_n (opts (state_of (PRS (cmdline ["n"%char]) before_PRS))) then 0
    else rwflag (opts before_PRS).
Proof.
  apply (rwflag_is_cleared_for_plain_n_only (cmdline ["n"%char]) before_PRS); by_running.
Defined.

(** -V without a device. *)
Lemma version_only_run_exits_at_once_witness :
  ∃ st,
    main 1 (mk_cmdline (Some "e2fsck") [("V"%char, EmptyString)] []) 0
      (toy_world good_gd false 0)
    = Terminated (Exit 0) st
    ∧ out st =
      [Call "init_resource_track"; Call "PRS"]
      ++ (if truthy (preen (opts st)) then []
          else [Eprintf "e2fsck %s, %s for EXT2 FS %s, %s\n"
                  [ArgS E2FSPROGS_VERSION; ArgS E2FSPROGS_DATE;
                   ArgS EXT2FS_VERSION; ArgS EXT2FS_DATE]])
    ∧ fs st = no_fs ∧ world st = toy_world good_gd false 0.
Proof.
  apply (@version_only_run_exits_at_once toy 1
           (mk_cmdline (Some "e2fsck") [("V"%char, EmptyString)] []) 0
           (toy_world good_gd false 0)).
  - repeat constructor.
  - intros H. discriminate H.
  - left. reflexivity.
Defined.

(** The clean volume of the specification is skipped, and is clean. *)
Lemma check_if_skip_exits_on_clean_volumes_only_witness :
  let s := super (fs skippable_state) in
  Exit FSCK_OK = Exit FSCK_OK
  ∧ clean_report skippable_state = clean_report skippable_state
  ∧ force (opts skippable_state) = 0 ∧ bad_blocks_file (opts skippable_state) = None
  ∧ cflag (opts skippable_state) = 0
  ∧ Z.land (s_state s) EXT2_ERROR_FS = 0
  ∧ Z.land (s_state s) EXT2_VALID_FS ≠ 0
  ∧ s_mnt_count s < to_unsigned (s_max_mnt_count s)
  ∧ (s_checkinterval s = 0
     ∨ time (world skippable_state) < wrap32 (s_lastcheck s + s_checkinterval s)).
Proof.
  apply (check_if_skip_exits_on_clean_volumes_only skippable_state). by_running.
Defined.


(** The relocation of the misplaced block bitmap is counted twice. *)
Lemma validation_keeps_the_counts_in_step_witness :
  invalid_bitmaps (reloc (state_of (check_super_block relocation_state)))
  - invalid_bitmaps (reloc relocation_state)
  = relocations (reloc (state_of (check_super_block relocation_state)))
    - relocations (reloc relocation_state).
Proof.
  apply (validation_keeps_the_counts_in_step relocation_state).
  intros []; by_running.
Defined.

(** The misplaced block bitmap is relocated. *)
Lemma validation_relocates_what_is_out_of_range_witness :
  let st' := state_of (check_super_block relocation_state) in
  super (fs st') = super (fs relocation_state)
  ∧ length (group_desc (fs st')) = length (group_desc (fs relocation_state))
  ∧ if out_of_range BlockBitmap (inode_blocks_per_group (fs relocation_state))
         (group_desc (fs relocation_state) !!! 0%nat)
         (loop_bounds (fs relocation_state) 0).1 (loop_bounds (fs relocation_state) 0).2
    then pointer BlockBitmap (group_desc (fs st') !!! 0%nat) = 0
         ∧ counters BlockBitmap (reloc st') !!! 0%nat
           = counters BlockBitmap (reloc relocation_state) !!! 0%nat + 1
    else pointer BlockBitmap (group_desc (fs st') !!! 0%nat)
         = pointer BlockBitmap (group_desc (fs relocation_state) !!! 0%nat)
         ∧ counters BlockBitmap (reloc st') !!! 0%nat
           = counters BlockBitmap (reloc relocation_state) !!! 0%nat.
Proof.
  apply (validation_relocates_what_is_out_of_range relocation_state _ BlockBitmap 0).
  - by_running.
  - intros []; by_running.
  - vm_compute. lia.
Defined.

(** The superblock of the volume with two groups is consistent. *)
Lemma validation_returns_on_consistent_superblocks_only_witness :
  consistent_superblock (super (fs two_group_volume))
  ∧ (ext2fs_get_device_size (filesystem_name (opts two_group_volume))
       (EXT2_BLOCK_SIZE (super (fs two_group_volume))) (world two_group_volume)).1 = 0
  ∧ super (fs (state_of (check_super_block two_group_volume))) = super (fs two_group_volume).
Proof.
  apply (validation_returns_on_consistent_superblocks_only two_group_volume).
  - by_running.
  - unfold typed_super. repeat split; by_running.
Defined.

(** The first of the two groups ends where the second begins. *)
Lemma group_ranges_tile_the_volume_witness :
  (0%nat = 0%nat → (loop_bounds two_groups 0).1 = s_first_data_block (super two_groups))
  ∧ ((1 < length (group_desc two_groups))%nat
     → (loop_bounds two_groups 0).2 = (loop_bounds two_groups 1).1)
  ∧ (1%nat = length (group_desc two_groups)
     → (loop_bounds two_groups 0).2 = s_blocks_count (super two_groups))
  ∧ (loop_bounds two_groups 0).1 ≤ (loop_bounds two_groups 0).2.
Proof.
  apply (group_ranges_tile_the_volume two_groups 0).
  - unfold geometry_fits. repeat split; by_running.
  - vm_compute. lia.
Defined.

(** Without -b the clean volume is opened with block size 0. *)
Lemma open_filesystem_returns_a_supported_handle_witness :
  let st := at_restart ["p"%char] (toy_world good_gd false 0) in
  let st1 := opened ["p"%char] (toy_world good_gd false 0) in
  let o := opts st in
  ∃ bs h,
    ext2fs_open (filesystem_name o) (open_flags o) (superblock o) bs (world st) = (0, h)
    ∧ super (fs st1) = super h ∧ group_desc (fs st1) = group_desc h
    ∧ (superblock o = 0 → bs = 0)
    ∧ (superblock o ≠ 0 → blocksize o ≠ 0 → bs = blocksize o)
    ∧ (superblock o ≠ 0 → blocksize o = 0 →
       ∃ l1 l2, possible_block_sizes = l1 ++ bs :: l2
                ∧ Forall (open_fails st (superblock o)) l1)
    ∧ (∀ current, E2FSCK_CURRENT_REV = Some current → s_rev_level (super h) ≤ current).
Proof.
  apply (open_filesystem_returns_a_supported_handle
           (at_restart ["p"%char] (toy_world good_gd false 0))).
  by_running.
Defined.

(** A disk that cannot be read ends the run before validation. *)
Lemma open_failure_is_fatal_witness :
  let st := at_restart ["p"%char] unreadable_world in
  let st' := state_of (open_filesystem st) in
  let o := opts st in
  FatalError None = FatalError None
  ∧ round st = Stopped (FatalError None) st'
  ∧ same_but_handle st st'
  ∧ ∃ l code advice,
      out st' = out st ++ l
                ++ [ComErr (program_name o) code "while trying to open %s"
                      [show (filesystem_name o)]; advice]
      ∧ Forall opening_event l
      ∧ ((code ≠ 0
          ∧ ∃ bs, ext2fs_open (filesystem_name o) (open_flags o) (superblock o) bs (world st)
                  = (code, fs st'))
         ∨ (code = EXT2_ET_REV_TOO_HIGH
            ∧ advice = Printf "Get a newer version of e2fsck!\n" []
            ∧ ∃ current, E2FSCK_CURRENT_REV = Some current
                         ∧ current < s_rev_level (super (fs st')))).
Proof.
  apply (open_failure_is_fatal (at_restart ["p"%char] unreadable_world)). by_running.
Defined.



(** The inode table of the second of the two groups passes the test and
    lies in the group. *)
Lemma pointers_that_pass_are_in_range_witness : in_group_range InodeTable two_groups 1.
Proof.
  apply (pointers_that_pass_are_in_range InodeTable two_groups 1).
  - unfold geometry_fits. repeat split; by_running.
  - vm_compute. lia.
  - intros _. split; vm_compute; [discriminate | reflexivity].
  - by_running.
Defined.

(** -p without a device ends with the usage line. *)
Lemma wrong_number_of_devices_gives_usage_witness :
  ∃ st1, PRS no_device before_PRS = Stopped (Exit FSCK_USAGE) (usage_report st1)
         ∧ same_but_opts before_PRS st1.
Proof.
  apply (wrong_number_of_devices_gives_usage no_device before_PRS).
  - repeat constructor.
  - intros H. discriminate H.
  - repeat constructor. discriminate.
  - reflexivity.
  - simpl. lia.
Defined.

(** The volume with two groups passes validation as it is. *)
Lemma sound_volume_passes_validation_untouched_witness :
  check_super_block two_group_volume = Normal tt two_group_volume.
Proof.
  apply (sound_volume_passes_validation_untouched two_group_volume).
  - unfold typed_super. repeat split; by_running.
  - unfold consistent_superblock, scalar_invariants. repeat split; by_running.
  - unfold geometry_fits. repeat split; by_running.
  - eexists. split; [vm_compute; reflexivity | by_running].
  - intros f j Hj.
    assert (Hcases : j = 0%nat ∨ j = 1%nat) by (vm_compute in Hj; lia).
    destruct Hcases as [-> | ->]; destruct f; unfold in_group_range;
      repeat split; by_running.
Defined.

(** With -N root the messages speak of root, not of /dev/hda1. *)
Lemma device_name_is_the_last_N_or_the_device_witness :
  (Forall (λ p, (p.1 =? "N")%char = false) (options named_device) →
   device_name (opts before_PRS) = None →
   device_name (opts (state_of (PRS named_device before_PRS)))
   = filesystem_name (opts (state_of (PRS named_device before_PRS))))
  ∧ (∀ l1 name l2,
       options named_device = l1 ++ ("N"%char, name) :: l2 →
       Forall (λ p, (p.1 =? "N")%char = false) l2 →
       device_name (opts (state_of (PRS named_device before_PRS))) = Some name).
Proof.
  apply (device_name_is_the_last_N_or_the_device named_device before_PRS); by_running.
Defined.

End Instances.
